(** * pnpm-registry-summary: a shallow embedding and its verified properties

    The program (src/pnpm-registry-summary.js) reads layered [.npmrc]
    files, merges their registry declarations, scans the [packages] keys of
    a pnpm lockfile for [@scope/] prefixes and groups the scoped packages
    by their non-default registry.

    JavaScript strings are sequences of UTF-16 code units; the regular
    expressions, [trim] and [split] of the source all work on code units,
    so a string is a [list N] here.  Objects used as dictionaries are
    [gmap]s, the [Set] of scopes is a [gset]. *)

From Stdlib Require Import NArith Ascii String List Decimal DecimalPos DecimalN.
From Stdlib Require Import Sorted.
From stdpp Require Import gmap list sets.

Set Warnings "-register-all,-clear-no-such-hyp".

Open Scope N_scope.
Open Scope list_scope.

(** ** Strings *)

Module JsString.

Abbreviation char := N (only parsing).
Abbreviation jsstring := (list N) (only parsing).

(** The code units of an ASCII literal. *)
Definition js (s : string) : jsstring :=
  List.map N_of_ascii (list_ascii_of_string s).

Definition ch_at : char := 64.      (* @ *)
Definition ch_slash : char := 47.   (* / *)
Definition ch_colon : char := 58.   (* : *)
Definition ch_hash : char := 35.    (* # *)
Definition ch_eq : char := 61.      (* = *)
Definition ch_lf : char := 10.      (* \n *)

(** ECMAScript LineTerminator: LF, CR, LS, PS. *)
Definition isLineTerminator (c : char) : bool :=
  (c =? 10) || (c =? 13) || (c =? 8232) || (c =? 8233).

(** ECMAScript WhiteSpace (TAB, VT, FF, SP, NBSP, ZWNBSP and the Unicode
    space separators) together with LineTerminator: the class [\s] of a
    regular expression, and the characters [String.prototype.trim]
    removes. *)
Definition isSpace (c : char) : bool :=
  (c =? 9) || (c =? 11) || (c =? 12) || (c =? 32) || (c =? 160)
  || (c =? 5760) || ((8192 <=? c) && (c <=? 8202))
  || (c =? 8239) || (c =? 8287) || (c =? 12288) || (c =? 65279)
  || isLineTerminator c.

(** The class [.] of a regular expression without the [s] flag. *)
Definition isDot (c : char) : bool := negb (isLineTerminator c).

Definition isNot (x : char) (c : char) : bool := negb (c =? x).

Fixpoint dropWhile (p : char -> bool) (s : jsstring) : jsstring :=
  match s with
  | c :: s' => if p c then dropWhile p s' else s
  | [] => []
  end.

Definition trimStart (s : jsstring) : jsstring := dropWhile isSpace s.
Definition trimEnd (s : jsstring) : jsstring :=
  rev (dropWhile isSpace (rev s)).

(** [s.trim()] *)
Definition trim (s : jsstring) : jsstring := trimEnd (trimStart s).

(** [s.split(sep)] for a one-character separator: the pieces between the
    separators, never an empty array. *)
Fixpoint split (sep : char) (s : jsstring) : list jsstring :=
  match s with
  | [] => [[]]
  | c :: s' =>
      if c =? sep then [] :: split sep s'
      else match split sep s' with
           | piece :: pieces => (c :: piece) :: pieces
           | [] => [[c]]
           end
  end.

(** [s.split(sep)[0]] *)
Definition splitFirst (sep : char) (s : jsstring) : jsstring :=
  match split sep s with
  | piece :: _ => piece
  | [] => []
  end.

Fixpoint startsWith (w s : jsstring) : bool :=
  match w, s with
  | [], _ => true
  | a :: w', b :: s' => (a =? b) && startsWith w' s'
  | _ :: _, [] => false
  end.

End JsString.
Export JsString.

(** ** Regular expressions

    The three patterns of the source are anchored at the start of the
    input and built from literals, one-character classes and greedy
    [*]/[+] over a class.  [run] is the backtracking matcher of ECMAScript
    restricted to that fragment: a greedy quantifier first takes as many
    characters as it can and gives them back one at a time while the rest
    of the pattern fails.  It returns, for each item of the pattern, the
    piece of the input that item consumed. *)

Module Regex.

Inductive item : Type :=
| Lit (w : jsstring)            (* a literal string *)
| Star (cls : char -> bool)     (* cls*  (greedy) *)
| Plus (cls : char -> bool)     (* cls+  (greedy) *)
| Eos.                          (* $ without the m flag *)

Section Greedy.
Context {R : Type} (cls : char -> bool)
        (k : jsstring -> jsstring -> option R).

(** [greedy taken s]: [taken] has been consumed already; consume more
    of [s] while the class allows, then continue with [k], backing off
    one character at a time when [k] fails. *)
Fixpoint greedy (taken s : jsstring) : option R :=
  match s with
  | c :: s' =>
      if cls c then
        match greedy (taken ++ [c]) s' with
        | Some r => Some r
        | None => k taken s
        end
      else k taken s
  | [] => k taken []
  end.
End Greedy.

Fixpoint run (p : list item) (s : jsstring) : option (list jsstring) :=
  match p with
  | [] => Some []
  | Lit w :: p' =>
      if startsWith w s
      then cons w <$> run p' (skipn (length w) s)
      else None
  | Star cls :: p' =>
      greedy cls (fun taken rest => cons taken <$> run p' rest) [] s
  | Plus cls :: p' =>
      match s with
      | c :: s' =>
          if cls c
          then greedy cls (fun taken rest => cons taken <$> run p' rest) [c] s'
          else None
      | [] => None
      end
  | Eos :: p' =>
      match s with
      | [] => cons [] <$> run p' []
      | _ :: _ => None
      end
  end.

(** What the piece consumed by an item looks like. *)
Definition accepts (it : item) (piece : jsstring) : Prop :=
  match it with
  | Lit w => piece = w
  | Star cls => Forall (fun c => cls c = true) piece
  | Plus cls => piece ≠ [] ∧ Forall (fun c => cls c = true) piece
  | Eos => piece = []
  end.

End Regex.
Export Regex.

(** ** Exceptions

    Code that may throw either throws (the [message] of the error) or
    yields a value. *)

Module Throw.

Definition bind {E A B : Type} (m : E + A) (f : A -> E + B) : E + B :=
  match m with
  | inl e => inl e
  | inr a => f a
  end.

Notation "'let!' x ':=' m 'in' k" := (bind m (fun x => k))
  (at level 10, x name, m at level 100, k at level 200).

End Throw.
Export Throw.

(** ** The file system

    [fs] maps every path that exists to what is there: a file with its
    text, already decoded ([readFileSync(path, 'utf8')]), or something
    that cannot be read as a file (a directory, a file without read
    permission), with the message of the error [readFileSync] throws for
    it.  [existsSync] is membership. *)

Module Fs.

Inductive node : Type :=
| File (content : jsstring)
| Unreadable (reason : jsstring).

Definition existsSync (fs : gmap jsstring node) (p : jsstring) : bool :=
  bool_decide (is_Some (fs !! p)).

(** The message of the error for a path that does not exist. *)
Definition noSuchFile (p : jsstring) : jsstring :=
  js "ENOENT: no such file or directory, open '" ++ p ++ js "'".

(** [fs.readFileSync(p, 'utf8')] *)
Definition readFileSync (fs : gmap jsstring node) (p : jsstring)
  : jsstring + jsstring :=
  match fs !! p with
  | Some (File content) => inr content
  | Some (Unreadable reason) => inl reason
  | None => inl (noSuchFile p)
  end.

End Fs.
Export Fs.

(** ** ConfigResolver: [findNpmrcFiles] and [parseNpmrc] *)

Module Npmrc.

(** [/^(@[^:]+):registry\s*=\s*(.+)$/] *)
Definition scopedRe : list item :=
  [Lit (js "@"); Plus (isNot ch_colon); Lit (js ":registry");
   Star isSpace; Lit (js "="); Star isSpace; Plus isDot; Eos].

(** [cleanLine.match(scopedRe)]: the two capture groups. *)
Definition scopedMatch (s : jsstring) : option (jsstring * jsstring) :=
  match run scopedRe s with
  | Some [a; name; _; _; _; _; value; _] => Some (a ++ name, value)
  | _ => None
  end.

(** [/^registry\s*=\s*(.+)$/] *)
Definition defaultRe : list item :=
  [Lit (js "registry"); Star isSpace; Lit (js "="); Star isSpace;
   Plus isDot; Eos].

Definition defaultMatch (s : jsstring) : option jsstring :=
  match run defaultRe s with
  | Some [_; _; _; _; value; _] => Some value
  | _ => None
  end.

(** The pair [{ registryMap, defaultRegistry }] under construction. *)
Record config : Type := Config {
  registryMap : gmap jsstring jsstring;
  defaultRegistry : jsstring
}.

Definition npmjs : jsstring := js "https://registry.npmjs.org/".

Definition initial : config :=
  {| registryMap := ∅; defaultRegistry := npmjs |}.

(** [line.trim().split('#')[0]] *)
Definition cleanLine (line : jsstring) : jsstring :=
  splitFirst ch_hash (trim line).

(** What one line declares. *)
Inductive decl : Type :=
| ScopeDecl (scope registry : jsstring)
| DefaultDecl (registry : jsstring)
| NoDecl.

Definition classify (line : jsstring) : decl :=
  let clean := cleanLine line in
  match clean with
  | [] => NoDecl                       (* if (!cleanLine) continue *)
  | _ :: _ =>
      match scopedMatch clean with
      | Some (scope, registry) => ScopeDecl scope (trim registry)
      | None =>
          match defaultMatch clean with
          | Some registry => DefaultDecl (trim registry)
          | None => NoDecl
          end
      end
  end.

(** The body of the inner loop. *)
Definition applyLine (st : config) (line : jsstring) : config :=
  match classify line with
  | ScopeDecl scope registry =>
      {| registryMap := <[scope := registry]> (registryMap st);
         defaultRegistry := defaultRegistry st |}
  | DefaultDecl registry =>
      {| registryMap := registryMap st; defaultRegistry := registry |}
  | NoDecl => st
  end.

Definition lines (content : jsstring) : list jsstring := split ch_lf content.

(** The body of the outer loop: a path that does not exist is skipped;
    reading one that exists may throw. *)
Definition applyFile (fs : gmap jsstring node)
           (st : config) (filePath : jsstring) : jsstring + config :=
  if existsSync fs filePath then
    let! content := readFileSync fs filePath in
    inr (foldl applyLine st (lines content))
  else inr st.

(** The outer loop: an error thrown for one path ends it. *)
Fixpoint applyFiles (fs : gmap jsstring node)
         (st : config) (filePaths : list jsstring) : jsstring + config :=
  match filePaths with
  | [] => inr st
  | filePath :: rest =>
      let! st' := applyFile fs st filePath in
      applyFiles fs st' rest
  end.

(** Arrays live in a store, addressed by reference: [parseNpmrc] receives
    the reference its caller holds.  [filePaths.reverse()] reverses that
    array in place and the loop then runs over it.  The result is the
    configuration returned, or the message of the error thrown, and the
    store as the call leaves it. *)
Definition parseNpmrc (fs : gmap jsstring node) (filePaths : positive)
           (σ : gmap positive (list jsstring))
  : (jsstring + config) * gmap positive (list jsstring) :=
  let σ' := alter (@rev jsstring) filePaths σ in
  (applyFiles fs initial (σ' !!! filePaths), σ').

Section Paths.
(** Node's [os.homedir()], [path.join] and [path.dirname]. *)
Variable homedir : jsstring.
Variable path_join : jsstring -> jsstring -> jsstring.
Variable path_dirname : jsstring -> jsstring.

Definition userNpmrc : jsstring := path_join homedir (js ".npmrc").
Definition projectNpmrc (lockfilePath : jsstring) : jsstring :=
  path_join (path_dirname lockfilePath) (js ".npmrc").

(** [lockfilePath] is a string or null; null and the empty string are
    falsy. *)
Definition findNpmrcFiles (fs : gmap jsstring node)
           (lockfilePath : option jsstring) : list jsstring :=
  let locations := [userNpmrc] in
  let locations :=
    match lockfilePath with
    | Some (c :: p) => projectNpmrc (c :: p) :: locations   (* unshift *)
    | Some [] | None => locations
    end in
  List.filter (existsSync fs) locations.
End Paths.

(** *** The vocabulary of the specification *)

(** [line] matches [@<scope>:registry = <value>]; [registry] is the
    trimmed value. *)
Definition scopeLine (line scope registry : jsstring) : Prop :=
  ∃ value, scopedMatch (cleanLine line) = Some (scope, value)
           ∧ registry = trim value.

(** [line] matches [registry = <value>]; [registry] is the trimmed
    value. *)
Definition defaultLine (line registry : jsstring) : Prop :=
  ∃ value, defaultMatch (cleanLine line) = Some value
           ∧ registry = trim value.

(** Every path of [paths] that exists can be read. *)
Definition readable (fs : gmap jsstring node) (paths : list jsstring)
  : Prop :=
  ∀ p reason, p ∈ paths → fs !! p ≠ Some (Unreadable reason).

(** A layer declares [registry] for [scope]: the last of its lines for
    that scope says so. *)
Definition declaresScope (content scope registry : jsstring) : Prop :=
  ∃ before line after,
    lines content = before ++ line :: after
    ∧ scopeLine line scope registry
    ∧ ∀ l r, l ∈ after → ¬ scopeLine l scope r.

Definition mentionsScope (content scope : jsstring) : Prop :=
  ∃ line r, line ∈ lines content ∧ scopeLine line scope r.

(** A layer declares the default registry: its last [registry = ...]
    line says so. *)
Definition declaresDefault (content registry : jsstring) : Prop :=
  ∃ before line after,
    lines content = before ++ line :: after
    ∧ defaultLine line registry
    ∧ ∀ l r, l ∈ after → ¬ defaultLine l r.

Definition mentionsDefault (content : jsstring) : Prop :=
  ∃ line r, line ∈ lines content ∧ defaultLine line r.

(** The shape of a key of the mapping: [@], at least one more character,
    no colon. *)
Definition scopeShape (key : jsstring) : Prop :=
  head key = Some ch_at ∧ (2 ≤ length key)%nat ∧ ch_colon ∉ key.

(** Stand-ins for Node's [path.join] and [path.dirname]: they agree with
    them on absolute, normalised paths without a trailing slash, for
    [dirnamePath] of a file below some directory. *)
Definition joinPath (dir name : jsstring) : jsstring :=
  dir ++ ch_slash :: name.

Fixpoint dirnamePath (p : jsstring) : jsstring :=
  match p with
  | [] => []
  | c :: p' =>
      if existsb (N.eqb ch_slash) p' then c :: dirnamePath p' else []
  end.

End Npmrc.
Export Npmrc.

(** ** JavaScript values and objects *)

Module JsObject.

(** What [yaml.load] can return: a scalar, a sequence or a mapping (or
    undefined for an empty document).  A mapping keeps its properties in
    the order the loader created them, each key once.  [VExotic n] stands
    for any other object a schema of the loader builds (a Date, a typed
    array of length [n], a regular expression): it is truthy, has no
    [packages] property, and its enumerable own keys are the indices below
    [n].  The number type is a parameter. *)
Inductive jsval (Num : Type) : Type :=
| VUndefined
| VNull
| VBool (b : bool)
| VNum (n : Num)
| VStr (s : jsstring)
| VArr (items : list (jsval Num))
| VObj (props : list (jsstring * jsval Num))
| VExotic (indices : nat).

Arguments VUndefined {Num}.
Arguments VNull {Num}.
Arguments VBool {Num} b.
Arguments VNum {Num} n.
Arguments VStr {Num} s.
Arguments VArr {Num} items.
Arguments VObj {Num} props.
Arguments VExotic {Num} indices.

(** The names every plain object inherits from [Object.prototype]; each
    of them holds a function (or, for [__proto__], the prototype object
    itself), so reading one from an object without such an own property
    yields a truthy value that is not an array. *)
Definition objectPrototypeKeys : list jsstring :=
  List.map js
    ["constructor"; "__defineGetter__"; "__defineSetter__";
     "hasOwnProperty"; "__lookupGetter__"; "__lookupSetter__";
     "isPrototypeOf"; "propertyIsEnumerable"; "toString"; "valueOf";
     "__proto__"; "toLocaleString"]%string.

(** The outcome of [o[k]] on an object literal used as a dictionary. *)
Inductive property (A : Type) : Type :=
| Own (v : A)
| Inherited
| Absent.

Arguments Own {A} v.
Arguments Inherited {A}.
Arguments Absent {A}.

Definition getProp {A : Type} (o : gmap jsstring A) (k : jsstring)
  : property A :=
  match o !! k with
  | Some v => Own v
  | None => if bool_decide (k ∈ objectPrototypeKeys) then Inherited else Absent
  end.

Definition isDigit (c : char) : bool := (48 <=? c) && (c <=? 57).

Fixpoint digitsValue (acc : N) (s : jsstring) : N :=
  match s with
  | [] => acc
  | c :: s' => digitsValue (10 * acc + (c - 48)) s'
  end.

(** An array index: the canonical decimal form of an integer below
    2^32 - 1. *)
Definition isArrayIndex (k : jsstring) : bool :=
  match k with
  | [] => false
  | c :: rest =>
      forallb isDigit k
      && (negb (c =? 48) || match rest with [] => true | _ :: _ => false end)
      && (digitsValue 0 k <? 4294967295)
  end.

Fixpoint insertIndex (k : jsstring) (l : list jsstring) : list jsstring :=
  match l with
  | [] => [k]
  | x :: l' =>
      if digitsValue 0 k <=? digitsValue 0 x then k :: l
      else x :: insertIndex k l'
  end.

Definition sortIndices (l : list jsstring) : list jsstring :=
  foldr insertIndex [] l.

(** The own keys of an ordinary object in enumeration order: array
    indices in ascending order, then the other keys in creation order. *)
Definition ownKeys (created : list jsstring) : list jsstring :=
  sortIndices (List.filter isArrayIndex created)
  ++ List.filter (fun k => negb (isArrayIndex k)) created.

(** The code units of a decimal numeral. *)
Fixpoint uintCodes (d : Decimal.uint) : jsstring :=
  match d with
  | Decimal.Nil => []
  | Decimal.D0 d' => 48 :: uintCodes d'
  | Decimal.D1 d' => 49 :: uintCodes d'
  | Decimal.D2 d' => 50 :: uintCodes d'
  | Decimal.D3 d' => 51 :: uintCodes d'
  | Decimal.D4 d' => 52 :: uintCodes d'
  | Decimal.D5 d' => 53 :: uintCodes d'
  | Decimal.D6 d' => 54 :: uintCodes d'
  | Decimal.D7 d' => 55 :: uintCodes d'
  | Decimal.D8 d' => 56 :: uintCodes d'
  | Decimal.D9 d' => 57 :: uintCodes d'
  end.

(** [String(i)] for an index: its decimal numeral. *)
Definition indexToString (i : nat) : jsstring :=
  uintCodes (N.to_uint (N.of_nat i)).

(** The keys ["0"], ["1"], ... of an array or a string of length [n]. *)
Definition indexKeys (n : nat) : list jsstring :=
  List.map indexToString (seq 0 n).

Section Values.
Context {Num : Type}.
(** [numFalsy n]: [n] is [+0], [-0] or [NaN]. *)
Variable numFalsy : Num -> bool.

Definition truthy (v : jsval Num) : bool :=
  match v with
  | VUndefined | VNull => false
  | VBool b => b
  | VNum n => negb (numFalsy n)
  | VStr [] => false
  | VStr (_ :: _) | VArr _ | VObj _ | VExotic _ => true
  end.

Fixpoint ownProp (k : jsstring) (props : list (jsstring * jsval Num))
  : option (jsval Num) :=
  match props with
  | [] => None
  | (k', v) :: props' =>
      if bool_decide (k' = k) then Some v else ownProp k props'
  end.

(** [lockData?.packages]: only a mapping can have the property. *)
Definition getPackages (lockData : jsval Num) : jsval Num :=
  match lockData with
  | VObj props => default VUndefined (ownProp (js "packages") props)
  | _ => VUndefined
  end.

(** [v || {}] *)
Definition orEmptyObject (v : jsval Num) : jsval Num :=
  if truthy v then v else VObj [].

Definition keysOfNullish : jsstring :=
  js "Cannot convert undefined or null to object".

(** [Object.keys(v)]; it throws a TypeError on undefined and null. *)
Definition Object_keys (v : jsval Num) : jsstring + list jsstring :=
  match v with
  | VUndefined | VNull => inl keysOfNullish
  | VBool _ | VNum _ => inr []
  | VStr s => inr (indexKeys (length s))
  | VArr items => inr (indexKeys (length items))
  | VObj props => inr (ownKeys (List.map fst props))
  | VExotic indices => inr (indexKeys indices)
  end.
End Values.

End JsObject.
Export JsObject.

(** ** LockfileScanner: [extractScopes] and [extractPackagesByRegistry] *)

Module Lockfile.

(** [/^(@[^/]+)\//] *)
Definition scopeRe : list item :=
  [Lit (js "@"); Plus (isNot ch_slash); Lit (js "/")].

(** [pkg.match(scopeRe)]: the capture group. *)
Definition scopeMatch (pkg : jsstring) : option jsstring :=
  match run scopeRe pkg with
  | Some [a; name; _] => Some (a ++ name)
  | _ => None
  end.

(** The two errors the scanner throws:
    [new Error(`Lockfile not found: ${lockPath}`)] and
    [new Error(`Failed to parse lockfile: ${error.message}`)]. *)
Inductive error : Type :=
| LockfileNotFound (lockPath : jsstring)
| LockfileParseError (reason : jsstring).

Definition message (e : error) : jsstring :=
  match e with
  | LockfileNotFound lockPath => js "Lockfile not found: " ++ lockPath
  | LockfileParseError reason => js "Failed to parse lockfile: " ++ reason
  end.

(** [error.message] of what a scanner throws, for the [catch] of its
    caller. *)
Definition thrown {A : Type} (m : error + A) : jsstring + A :=
  match m with
  | inl e => inl (message e)
  | inr a => inr a
  end.

(** [try { ... } catch (error) { throw new Error(...) }] *)
Definition catchParse {A : Type} (m : jsstring + A) : error + A :=
  match m with
  | inl reason => inl (LockfileParseError reason)
  | inr a => inr a
  end.

(** Calling the [push] of a value that has none. *)
Definition pushNotAFunction : jsstring :=
  js "packagesByRegistry[registry].push is not a function".

(** The body of the loop of [extractScopes]. *)
Definition addScope (scopes : gset jsstring) (pkg : jsstring)
  : gset jsstring :=
  match scopeMatch pkg with
  | Some scope => {[scope]} ∪ scopes
  | None => scopes
  end.

(** The body of the loop of [extractPackagesByRegistry].  A scope starts
    with [@], which no inherited property name does, so
    [registryMap[scope]] is an own property or undefined; an empty
    [registry] is falsy. *)
Definition addPackage (registryMap : gmap jsstring jsstring)
           (defaultRegistry : jsstring)
           (packagesByRegistry : gmap jsstring (list jsstring))
           (pkg : jsstring) : jsstring + gmap jsstring (list jsstring) :=
  match scopeMatch pkg with
  | None => inr packagesByRegistry
  | Some scope =>
      match registryMap !! scope with
      | None => inr packagesByRegistry
      | Some registry =>
          if bool_decide (registry ≠ []) && bool_decide (registry ≠ defaultRegistry)
          then
            match getProp packagesByRegistry registry with
            | Absent => inr (<[registry := [pkg]]> packagesByRegistry)
            | Own l => inr (<[registry := l ++ [pkg]]> packagesByRegistry)
            | Inherited => inl pushNotAFunction
            end
          else inr packagesByRegistry
      end
  end.

Section Scanner.
Context {Num : Type}.
Variable numFalsy : Num -> bool.
(** [yaml.load] of js-yaml: the loaded document, or the message of the
    exception it throws. *)
Variable yaml_load : jsstring -> jsstring + jsval Num.

(** [Object.keys(lockData?.packages || {})] *)
Definition packageKeys (lockData : jsval Num) : jsstring + list jsstring :=
  Object_keys (orEmptyObject numFalsy (getPackages lockData)).

Definition extractScopes (fs : gmap jsstring node)
           (lockPath : jsstring) : error + gset jsstring :=
  if existsSync fs lockPath then
    catchParse (
      let! content := readFileSync fs lockPath in
      let! lockData := yaml_load content in
      let! keys := packageKeys lockData in
      inr (foldl addScope ∅ keys))
  else inl (LockfileNotFound lockPath).

Definition extractPackagesByRegistry (fs : gmap jsstring node)
           (lockPath : jsstring) (registryMap : gmap jsstring jsstring)
           (defaultRegistry : jsstring)
  : error + gmap jsstring (list jsstring) :=
  if existsSync fs lockPath then
    catchParse (
      let! content := readFileSync fs lockPath in
      let! lockData := yaml_load content in
      let! keys := packageKeys lockData in
      foldl (fun acc pkg =>
               let! packagesByRegistry := acc in
               addPackage registryMap defaultRegistry
                          packagesByRegistry pkg)
            (inr ∅) keys)
  else inl (LockfileNotFound lockPath).
End Scanner.

(** *** The vocabulary of the specification *)

(** [pkg] belongs under registry [R]: it has a scope prefix that the
    mapping sends to [R]. *)
Definition mapsTo (registryMap : gmap jsstring jsstring) (R : jsstring)
           (pkg : jsstring) : bool :=
  match scopeMatch pkg with
  | Some scope => bool_decide (registryMap !! scope = Some R)
  | None => false
  end.

(** The list the classification is to hold for [R] once [keys] have been
    scanned: nothing for the empty string and for the default registry,
    else the packages of [R] in the order of [keys]. *)
Definition expected (registryMap : gmap jsstring jsstring)
           (defaultRegistry : jsstring) (keys : list jsstring)
           (R : jsstring) : list jsstring :=
  if bool_decide (R ≠ []) && bool_decide (R ≠ defaultRegistry)
  then List.filter (mapsTo registryMap R) keys
  else [].

(** [m] is the classification of [keys]: a registry is a key of [m]
    exactly when its list is not empty. *)
Definition classified (registryMap : gmap jsstring jsstring)
           (defaultRegistry : jsstring) (keys : list jsstring)
           (m : gmap jsstring (list jsstring)) : Prop :=
  ∀ R, m !! R = match expected registryMap defaultRegistry keys R with
                | [] => None
                | pkg :: pkgs => Some (pkg :: pkgs)
                end.

Definition startsWithDigit (s : jsstring) : Prop :=
  match s with
  | d :: _ => isDigit d = true
  | [] => False
  end.

(** The package keys in the order of the source document. *)
Definition documentKeys {Num : Type} (packages : jsval Num)
  : list jsstring :=
  match packages with
  | VObj props => List.map fst props
  | _ => []
  end.

End Lockfile.
Export Lockfile.

(** ** The pipeline of [main] *)

Module Main.

(** The arguments [main] passes to [displaySummary]. *)
Record summary : Type := Summary {
  shownScopes : gset jsstring;
  shownRegistryMap : gmap jsstring jsstring;
  shownPackagesByRegistry : gmap jsstring (list jsstring);
  shownDefaultRegistry : jsstring;
  shownNpmrcFiles : list jsstring
}.

Section Run.
Context {Num : Type}.
Variable numFalsy : Num -> bool.
Variable yaml_load : jsstring -> jsstring + jsval Num.
Variable homedir : jsstring.
Variable path_join : jsstring -> jsstring -> jsstring.
Variable path_dirname : jsstring -> jsstring.

(** The [try] block of [main] for a resolved lockfile path: the array
    [npmrcFiles] is created by [findNpmrcFiles] (reference 1 of a fresh
    store), handed to [parseNpmrc], and read again by [displaySummary].
    The result is what [displaySummary] is called with, or the message
    of the error caught. *)
Definition analyse (fs : gmap jsstring node) (lockfilePath : jsstring)
  : jsstring + summary :=
  let npmrcFiles : positive := 1%positive in
  let σ : gmap positive (list jsstring) :=
    {[ npmrcFiles :=
         findNpmrcFiles homedir path_join path_dirname fs (Some lockfilePath) ]} in
  let (returned, σ') := parseNpmrc fs npmrcFiles σ in
  let! parsed := returned in
  let! scopes := thrown (extractScopes numFalsy yaml_load fs lockfilePath) in
  let! packagesByRegistry :=
    thrown (extractPackagesByRegistry numFalsy yaml_load fs lockfilePath
              (registryMap parsed) (defaultRegistry parsed)) in
  inr {| shownScopes := scopes;
         shownRegistryMap := registryMap parsed;
         shownPackagesByRegistry := packagesByRegistry;
         shownDefaultRegistry := defaultRegistry parsed;
         shownNpmrcFiles := σ' !!! npmrcFiles |}.
End Run.

End Main.
Export Main.

(** ** The Reporter: [displaySummary]

    [displaySummary] enumerates its objects ([Object.entries],
    [Object.keys], [Object.values]) in the order of their own properties
    (keys that are array indices ascending, then the others as they were
    created), which a [gmap] does not record: here an object is the list of
    its entries in that order, each key once.  What is printed is the list
    of the lines of the calls of [console.log], the empty line for a call
    without argument. *)

Module Display.

(** [a < b] on strings: code unit by code unit, a proper prefix first. *)
Fixpoint ltString (a b : jsstring) : bool :=
  match a, b with
  | _, [] => false
  | [], _ :: _ => true
  | x :: a', y :: b' =>
      if x <? y then true else if y <? x then false else ltString a' b'
  end.

Definition leString (a b : jsstring) : bool := negb (ltString b a).

Fixpoint insertString (x : jsstring) (l : list jsstring) : list jsstring :=
  match l with
  | [] => [x]
  | y :: l' => if leString x y then x :: l else y :: insertString x l'
  end.

(** [array.sort()] on an array of strings: ascending in the order above. *)
Definition sortStrings (l : list jsstring) : list jsstring :=
  foldr insertString [] l.

(** [`${n}`] for a length. *)
Definition numeral (n : nat) : jsstring := uintCodes (N.to_uint (N.of_nat n)).

Definition packageEmoji : jsstring := [55357; 56550].      (* U+1F4E6 *)
Definition pageEmoji : jsstring := [55357; 56516].         (* U+1F4C4 *)
Definition wrenchEmoji : jsstring := [55357; 56615].       (* U+1F527 *)
Definition pinEmoji : jsstring := [55357; 56525].          (* U+1F4CD *)
Definition chartEmoji : jsstring := [55357; 56522].        (* U+1F4CA *)
Definition checkEmoji : jsstring := [9989].                (* U+2705 *)
Definition warningEmoji : jsstring := [9888; 65039].       (* U+26A0 U+FE0F *)
Definition infoEmoji : jsstring := [8505; 65039].          (* U+2139 U+FE0F *)
Definition crossEmoji : jsstring := [10060].               (* U+274C *)
Definition arrow : jsstring := [8594].                     (* U+2192 *)

(** The lines common to both outcomes. *)
Definition summaryHeader (registryMap : list (jsstring * jsstring))
           (defaultRegistry : jsstring) (npmrcFiles : list jsstring)
  : list jsstring :=
  [js "## " ++ packageEmoji ++ js " Registry Summary";
   pageEmoji ++ js " .npmrc files used:"]
  ++ List.map (fun file => 9 :: file) npmrcFiles
  ++ [wrenchEmoji ++ js " Registries:" ++ [10; 9] ++ js "Default " ++ arrow
        ++ js " " ++ defaultRegistry]
  ++ List.map (fun '(scope, registry) =>
                 9 :: scope ++ js " " ++ arrow ++ js " " ++ registry)
       registryMap.

(** The block printed for one registry, its packages already sorted. *)
Definition registryBlock (entry : jsstring * list jsstring) : list jsstring :=
  let (registry, packages) := entry in
  ([9] ++ pinEmoji ++ js " " ++ registry)
  :: List.map (fun pkg => 9 :: pkg) packages ++ [[]].

Definition totalLine (totalPackages registries : nat) : jsstring :=
  chartEmoji ++ js " Total: " ++ numeral totalPackages
  ++ js " package(s) from " ++ numeral registries ++ js " custom registr"
  ++ (if Nat.eqb registries 1 then js "y" else js "ies").

(** [displaySummary]: what it prints, and [packagesByRegistry] as it
    leaves it (the lists are sorted in place).  [scopes] is not used. *)
Definition displaySummary (scopes : gset jsstring)
           (registryMap : list (jsstring * jsstring))
           (packagesByRegistry : list (jsstring * list jsstring))
           (defaultRegistry : jsstring) (npmrcFiles : list jsstring)
  : list jsstring * list (jsstring * list jsstring) :=
  let header := summaryHeader registryMap defaultRegistry npmrcFiles in
  match packagesByRegistry with
  | [] =>
      (header ++ [checkEmoji ++ js " All packages use the default registry."],
       packagesByRegistry)
  | _ :: _ =>
      let sorted :=
        List.map (fun '(registry, packages) => (registry, sortStrings packages))
          packagesByRegistry in
      let totalPackages := length (concat (List.map snd sorted)) in
      (header
       ++ [[10] ++ warningEmoji ++ js "  Packages from non-default registries:"]
       ++ concat (List.map registryBlock sorted)
       ++ [totalLine totalPackages (length packagesByRegistry)],
       sorted)
  end.

(** The entries of an object in some order, each key once. *)
Definition enumerates {V : Type} (entries : list (jsstring * V))
           (m : gmap jsstring V) : Prop :=
  NoDup (List.map fst entries)
  ∧ ∀ k v, (k, v) ∈ entries ↔ m !! k = Some v.

(** [pkg] is on a custom registry: its scope is mapped to a registry that
    is neither empty nor the default one. *)
Definition custom (registryMap : gmap jsstring jsstring)
           (defaultRegistry : jsstring) (pkg : jsstring) : bool :=
  match scopeMatch pkg with
  | Some scope =>
      match registryMap !! scope with
      | Some registry =>
          bool_decide (registry ≠ [])
          && bool_decide (registry ≠ defaultRegistry)
      | None => false
      end
  | None => false
  end.

End Display.
Export Display.

(** ** The command line: [resolveLockfilePath] and [main] *)

Module Cli.

(** How a run ends: with the usage text, with the lockfile reported as not
    found, with the error caught around the analysis, or with the call of
    [displaySummary]. *)
Inductive outcome : Type :=
| Usage
| NotFound (shown : jsstring)
| Failed (reason : jsstring)
| Displayed (s : summary).

(** The calls of [console.error]. *)
Definition stderr (o : outcome) : list jsstring :=
  match o with
  | Usage =>
      [crossEmoji
         ++ js " Please provide the path to pnpm-lock.yaml as an argument.";
       [10] ++ js "Usage: node pnpm-registry-summary.js <path-to-pnpm-lock.yaml>";
       [10] ++ js "Examples:";
       js "  node pnpm-registry-summary.js ./pnpm-lock.yaml";
       js "  node pnpm-registry-summary.js /absolute/path/to/pnpm-lock.yaml"]
  | NotFound shown => [crossEmoji ++ js " Lockfile not found: " ++ shown]
  | Failed reason => [crossEmoji ++ js " Error: " ++ reason]
  | Displayed _ => []
  end.

(** [process.exit(1)] on every failure; a run that returns from [main]
    exits with 0. *)
Definition exitCode (o : outcome) : N :=
  match o with
  | Displayed _ => 0
  | Usage | NotFound _ | Failed _ => 1
  end.

Section Run.
Context {Num : Type}.
Variable numFalsy : Num -> bool.
Variable yaml_load : jsstring -> jsstring + jsval Num.
Variable homedir : jsstring.
Variable path_join : jsstring -> jsstring -> jsstring.
Variable path_dirname : jsstring -> jsstring.
(** Node's [path.isAbsolute] and [path.resolve], and [process.cwd()]. *)
Variable path_isAbsolute : jsstring -> bool.
Variable path_resolve : jsstring -> jsstring -> jsstring.
Variable cwd : jsstring.

(** [input] is a string or undefined; the result a string or null. *)
Definition resolveLockfilePath (input : option jsstring) : option jsstring :=
  match input with
  | Some (c :: s) =>
      Some (if path_isAbsolute (c :: s) then c :: s
            else path_resolve cwd (c :: s))
  | Some [] | None => None
  end.

(** [main], with [process.argv[2]] as its argument. *)
Definition main (fs : gmap jsstring node) (argv2 : option jsstring)
  : outcome :=
  match argv2 with
  | Some (c :: a) =>
      let lockfileArg := c :: a in
      match resolveLockfilePath (Some lockfileArg) with
      | Some (d :: p) =>
          let lockfilePath := d :: p in
          if existsSync fs lockfilePath then
            match analyse numFalsy yaml_load homedir path_join path_dirname
                    fs lockfilePath with
            | inl reason => Failed reason
            | inr s => Displayed s
            end
          else NotFound lockfilePath
      | Some [] | None => NotFound lockfileArg
      end
  | Some [] | None => Usage
  end.
End Run.

End Cli.
Export Cli.

(** ** Further vocabulary *)

Module Vocabulary.

(** What may stand as the value of a declaration and be read back as it
    is: not empty, no [#], no line terminator, no whitespace at either
    end. *)
Definition plainValue (value : jsstring) : Prop :=
  value ≠ [] ∧ (ch_hash ∉ value)
  ∧ Forall (fun c => isDot c = true) value
  ∧ (∀ x, head value = Some x → isSpace x = false)
  ∧ (∀ y, last value = Some y → isSpace y = false).

(** [pkg] makes the loop of [extractPackagesByRegistry] throw: its scope
    is mapped to a registry that passes the guard and names a property
    every object inherits. *)
Definition throwsOn (registryMap : gmap jsstring jsstring)
           (defaultRegistry : jsstring) (pkg : jsstring) : bool :=
  match scopeMatch pkg with
  | Some scope =>
      match registryMap !! scope with
      | Some registry =>
          bool_decide (registry ≠ [])
          && bool_decide (registry ≠ defaultRegistry)
          && bool_decide (registry ∈ objectPrototypeKeys)
      | None => false
      end
  | None => false
  end.

End Vocabulary.
Export Vocabulary.

(** ** A sample project

    A home directory with a user-level [.npmrc], a project with its own
    [.npmrc] and a lockfile; the inputs on which the properties below are
    exercised. *)

Module Examples.

Definition home : jsstring := js "/home/dev".
Definition lockfile : jsstring := js "/work/app/pnpm-lock.yaml".
Definition userRc : jsstring := js "/home/dev/.npmrc".
Definition projectRc : jsstring := js "/work/app/.npmrc".

Definition userText : jsstring :=
  js "registry = https://mirror.example/
@a:registry = https://user.example/a/
@b:registry = https://user.example/b/".

Definition projectText : jsstring :=
  js "# project settings
@a:registry = https://project.example/a/   # overrides the user level
@c/d:registry=https://project.example/c/".

Definition lockText : jsstring :=
  js "packages:
  '@foo/bar': {}
  baz: {}
  '@foo/qux': {}
".

(** What [yaml.load(lockText)] returns. *)
Definition lockData : jsval N :=
  VObj [(js "packages",
         VObj [(js "@foo/bar", VObj []); (js "baz", VObj []);
               (js "@foo/qux", VObj [])])].

(** A lockfile whose [packages] is a list of strings. *)
Definition listText : jsstring :=
  js "packages:
  - '@foo/bar'
  - baz
".

Definition listData : jsval N :=
  VObj [(js "packages", VArr [VStr (js "@foo/bar"); VStr (js "baz")])].

(** The scenario of two scopes, one of them on the default registry. *)
Definition scenarioLockText : jsstring :=
  js "packages:
  '@a/x': {}
  '@b/y': {}
".

Definition scenarioLockData : jsval N :=
  VObj [(js "packages",
         VObj [(js "@a/x", VObj []); (js "@b/y", VObj [])])].

(** A loader that knows these documents and rejects any other text. *)
Definition load (text : jsstring) : jsstring + jsval N :=
  if bool_decide (text = lockText) then inr lockData
  else if bool_decide (text = listText) then inr listData
  else if bool_decide (text = scenarioLockText) then inr scenarioLockData
  else inl (js "YAMLException").

Definition isZero (n : N) : bool := n =? 0.

(** What [readFileSync] says of a directory. *)
Definition isDirectory : jsstring :=
  js "EISDIR: illegal operation on a directory, read".

(** The files of the sample projects. *)
Definition files : gmap jsstring node :=
  {[ userRc := File userText; projectRc := File projectText;
     lockfile := File lockText;
     js "/work/list/pnpm-lock.yaml" := File listText;
     js "/work/bad/pnpm-lock.yaml" := File (js "packages: [");
     js "/work/odd/.npmrc" := File (js "@foo:registry = constructor");
     js "/work/odd/pnpm-lock.yaml" := File lockText;
     js "/work/blank/.npmrc" := File (js "@foo:registry = # to be filled in");
     js "/work/blank/pnpm-lock.yaml" := File lockText;
     js "/home/ci/.npmrc" := File (js "registry = R0");
     js "/work/scenario/.npmrc" := File (js "@a:registry = R1
@b:registry = R0");
     js "/work/scenario/pnpm-lock.yaml" := File scenarioLockText ]}.

(** With them two directories: [/work/app/node_modules], and the [.npmrc]
    next to the lockfile of [/work/locked]. *)
Definition fs : gmap jsstring node :=
  <[ js "/work/app/node_modules" := Unreadable isDirectory ]>
    (<[ js "/work/locked/.npmrc" := Unreadable isDirectory ]>
       (<[ js "/work/locked/pnpm-lock.yaml" := File lockText ]> files)).

(** What [parseNpmrc] returns for the sample project. *)
Definition sampleConfig : config :=
  {| registryMap :=
       {[ js "@a" := js "https://project.example/a/";
          js "@b" := js "https://user.example/b/";
          js "@c/d" := js "https://project.example/c/" ]};
     defaultRegistry := js "https://mirror.example/" |}.

(** What [main] hands to [displaySummary] for the scenario. *)
Definition scenarioSummary : summary :=
  {| shownScopes := {[ js "@a"; js "@b" ]};
     shownRegistryMap := {[ js "@a" := js "R1"; js "@b" := js "R0" ]};
     shownPackagesByRegistry := {[ js "R1" := [js "@a/x"] ]};
     shownDefaultRegistry := js "R0";
     shownNpmrcFiles := [js "/home/ci/.npmrc"; js "/work/scenario/.npmrc"] |}.

(** Stand-ins for Node's [path.isAbsolute] and [path.resolve] on POSIX,
    for a relative path without [.] or [..] segments. *)
Definition isAbsolutePath (p : jsstring) : bool := startsWith [ch_slash] p.
Definition resolvePath (cwd p : jsstring) : jsstring :=
  if isAbsolutePath p then p else joinPath cwd p.

(** The store in which reference 1 is the array [findNpmrcFiles]
    returned for the sample project. *)
Definition store : gmap positive (list jsstring) :=
  {[ 1%positive := [projectRc; userRc] ]}.

End Examples.

(** * Properties *)

(** ** Strings and the matcher *)

Module RegexFacts.

Lemma startsWith_skipn w s :
  startsWith w s = true → s = w ++ skipn (length w) s.
Proof.
  revert s; induction w as [|a w IH]; intros [|b s]; simpl; try done.
  intros [Hab Hws]%andb_prop. apply N.eqb_eq in Hab as ->.
  f_equal. by apply IH.
Qed.

Lemma startsWith_app w s : startsWith w (w ++ s) = true.
Proof.
  induction w as [|a w IH]; simpl; [done|].
  by rewrite N.eqb_refl, IH.
Qed.

Section GreedyFacts.
Context {R : Type} (cls : char → bool)
        (k : jsstring → jsstring → option R).

(** Whatever a greedy quantifier returns was produced by the
    continuation after some run of class characters. *)
Lemma greedy_sound taken s r :
  greedy cls k taken s = Some r →
  ∃ more rest, s = more ++ rest
               ∧ Forall (fun c => cls c = true) more
               ∧ k (taken ++ more) rest = Some r.
Proof.
  revert taken; induction s as [|c s IH]; intros taken; simpl.
  - intros Hk. exists [], []. by rewrite (app_nil_r taken).
  - destruct (cls c) eqn:Hc.
    + destruct (greedy cls k (taken ++ [c]) s) as [r'|] eqn:Hg.
      * intros [= <-]. apply IH in Hg as (more & rest & -> & Hall & Hk).
        exists (c :: more), rest. split; [done|]. split; [by constructor|].
        by rewrite <- app_assoc in Hk.
      * intros Hk. exists [], (c :: s). by rewrite (app_nil_r taken).
    + intros Hk. exists [], (c :: s). by rewrite (app_nil_r taken).
Qed.

(** When the class run cannot be extended, and the continuation accepts
    it whole, that is the answer: longer runs do not exist and shorter
    ones are tried later. *)
Lemma greedy_maximal taken more rest r :
  Forall (fun c => cls c = true) more →
  match rest with [] => True | c :: _ => cls c = false end →
  k (taken ++ more) rest = Some r →
  greedy cls k taken (more ++ rest) = Some r.
Proof.
  intros Hall Hrest. revert taken.
  induction Hall as [|c more Hc _ IH]; intros taken Hk; simpl.
  - rewrite app_nil_r in Hk. destruct rest as [|c rest]; simpl; [done|].
    by rewrite Hrest.
  - rewrite Hc, IH; [done|]. by rewrite <- app_assoc.
Qed.
End GreedyFacts.

(** Soundness of the matcher: the pieces are accepted item by item and
    spell out a prefix of the input, all of it when the pattern has [$]. *)
Lemma run_sound p s pieces :
  run p s = Some pieces →
  Forall2 accepts p pieces
  ∧ ∃ rest, s = concat pieces ++ rest ∧ (Eos ∈ p → rest = []).
Proof.
  revert s pieces; induction p as [|it p IH]; intros s pieces; simpl.
  - intros [= <-]. split; [constructor|]. exists s. split; [done|].
    by intros ?%elem_of_nil.
  - destruct it as [w|cls|cls|].
    + destruct (startsWith w s) eqn:Hw; [|done].
      destruct (run p (skipn (length w) s)) as [ps|] eqn:Hrun; [|done].
      intros [= <-]. apply IH in Hrun as (Hacc & rest & Hs & Heos).
      split; [by constructor|]. exists rest. split.
      * simpl. rewrite <- app_assoc, <- Hs. by apply startsWith_skipn.
      * intros [?|?]%elem_of_cons; [done|by apply Heos].
    + intros (more & rest0 & -> & Hall & Hk)%greedy_sound. simpl in Hk.
      destruct (run p rest0) as [ps|] eqn:Hrun; [|done].
      injection Hk as <-. apply IH in Hrun as (Hacc & rest & -> & Heos).
      split; [by constructor|]. exists rest. split.
      * simpl. by rewrite <- app_assoc.
      * intros [?|?]%elem_of_cons; [done|by apply Heos].
    + destruct s as [|c s]; [done|]. destruct (cls c) eqn:Hc; [|done].
      intros (more & rest0 & -> & Hall & Hk)%greedy_sound. simpl in Hk.
      destruct (run p rest0) as [ps|] eqn:Hrun; [|done].
      injection Hk as <-. apply IH in Hrun as (Hacc & rest & -> & Heos).
      split; [constructor; [|done]; split; [done|by constructor]|].
      exists rest. split.
      * simpl. by rewrite <- app_assoc.
      * intros [?|?]%elem_of_cons; [done|by apply Heos].
    + destruct s as [|c s]; [|done].
      destruct (run p []) as [ps|] eqn:Hrun; [|done].
      intros [= <-]. apply IH in Hrun as (Hacc & rest & Hs & Heos).
      split; [by constructor|]. exists rest. split; [done|].
      intros _. symmetry in Hs. by apply app_eq_nil in Hs as [_ ->].
Qed.

End RegexFacts.
Import RegexFacts.

(** Turns [run p s = Some pieces], for a pattern [p] spelled out, into the
    pieces one by one with what each item accepted. *)
Ltac run_pieces H :=
  let Hacc := fresh "Hacc" in
  let rest := fresh "rest" in
  let Hs := fresh "Hs" in
  let Heos := fresh "Heos" in
  apply run_sound in H as (Hacc & rest & Hs & Heos);
  unfold scopedRe, defaultRe, scopeRe in Hacc;
  repeat match type of Hacc with
    | Forall2 _ (_ :: _) _ =>
        let piece := fresh "piece" in
        let Hp := fresh "Hpiece" in
        apply Forall2_cons_inv_l in Hacc as (piece & ? & Hp & Hacc & ->);
        simpl in Hp
    end;
  apply Forall2_nil_inv_l in Hacc as ->.

(** ** ConfigResolver *)

Module NpmrcFacts.

Lemma isNot_Forall x (name : jsstring) :
  Forall (fun c => isNot x c = true) name → x ∉ name.
Proof.
  intros Hall Hin. rewrite Forall_forall in Hall.
  apply Hall in Hin. unfold isNot in Hin. by rewrite N.eqb_refl in Hin.
Qed.

(** The first capture group of the scoped pattern is [@] and a non-empty
    name without a colon; the input starts with it and [:registry]. *)
Lemma scopedMatch_sound s scope value :
  scopedMatch s = Some (scope, value) →
  ∃ name tail, scope = ch_at :: name ∧ name ≠ []
               ∧ Forall (fun c => isNot ch_colon c = true) name
               ∧ s = scope ++ js ":registry" ++ tail.
Proof.
  unfold scopedMatch. destruct (run scopedRe s) as [pieces|] eqn:Hrun; [|done].
  run_pieces Hrun. subst. destruct Hpiece0 as [Hne Hall].
  intros [= <- <-]. exists piece0. eexists. split; [done|].
  split; [done|]. split; [done|].
  simpl. rewrite <- !app_assoc. reflexivity.
Qed.

Lemma defaultMatch_sound s value :
  defaultMatch s = Some value → ∃ tail, s = js "registry" ++ tail.
Proof.
  unfold defaultMatch. destruct (run defaultRe s) as [pieces|] eqn:Hrun; [|done].
  run_pieces Hrun. subst. intros _. eexists. simpl. reflexivity.
Qed.

(** No line matches both patterns: one starts with [@], the other with
    [r]. *)
Lemma scopedMatch_defaultMatch s sv value :
  scopedMatch s = Some sv → defaultMatch s = Some value → False.
Proof.
  destruct sv as [scope v].
  intros (name & tail & -> & _ & _ & ->)%scopedMatch_sound.
  by intros (tail' & ?)%defaultMatch_sound.
Qed.

(** The emptiness test of the loop is subsumed by the patterns. *)
Lemma classify_unfold line :
  classify line =
    match scopedMatch (cleanLine line) with
    | Some (scope, value) => ScopeDecl scope (trim value)
    | None =>
        match defaultMatch (cleanLine line) with
        | Some value => DefaultDecl (trim value)
        | None => NoDecl
        end
    end.
Proof. unfold classify. by destruct (cleanLine line). Qed.

Lemma classify_scope line scope registry :
  classify line = ScopeDecl scope registry ↔ scopeLine line scope registry.
Proof.
  rewrite classify_unfold. unfold scopeLine. split.
  - destruct (scopedMatch (cleanLine line)) as [[s v]|].
    + intros [= <- <-]. by exists v.
    + by destruct (defaultMatch (cleanLine line)).
  - by intros (v & -> & ->).
Qed.

Lemma classify_default line registry :
  classify line = DefaultDecl registry ↔ defaultLine line registry.
Proof.
  rewrite classify_unfold. unfold defaultLine. split.
  - destruct (scopedMatch (cleanLine line)) as [[s v]|]; [done|].
    destruct (defaultMatch (cleanLine line)) as [v|]; [|done].
    intros [= <-]. by exists v.
  - intros (v & Hv & ->).
    destruct (scopedMatch (cleanLine line)) as [sv|] eqn:Hs.
    + destruct (scopedMatch_defaultMatch _ _ _ Hs Hv).
    + by rewrite Hv.
Qed.

(** *** One line *)

Lemma applyLine_scope st line scope registry :
  scopeLine line scope registry →
  registryMap (applyLine st line) !! scope = Some registry.
Proof.
  intros Hl%classify_scope. unfold applyLine. rewrite Hl. simpl.
  apply lookup_insert_eq.
Qed.

Lemma applyLine_other_scope st line scope :
  (∀ r, ¬ scopeLine line scope r) →
  registryMap (applyLine st line) !! scope = registryMap st !! scope.
Proof.
  intros Hno. unfold applyLine.
  destruct (classify line) as [s r| |] eqn:Hc; simpl; try done.
  apply lookup_insert_ne. intros ->.
  by apply (Hno r), classify_scope.
Qed.

Lemma applyLine_default st line registry :
  defaultLine line registry →
  defaultRegistry (applyLine st line) = registry.
Proof. intros Hl%classify_default. unfold applyLine. by rewrite Hl. Qed.

Lemma applyLine_other_default st line :
  (∀ r, ¬ defaultLine line r) →
  defaultRegistry (applyLine st line) = defaultRegistry st.
Proof.
  intros Hno. unfold applyLine.
  destruct (classify line) as [s r|r|] eqn:Hc; simpl; try done.
  by destruct (Hno r); apply classify_default.
Qed.

(** *** One layer *)

Lemma applyLines_no_scope ls st scope :
  (∀ l r, l ∈ ls → ¬ scopeLine l scope r) →
  registryMap (foldl applyLine st ls) !! scope = registryMap st !! scope.
Proof.
  revert st; induction ls as [|l ls IH]; intros st Hno; simpl; [done|].
  rewrite IH.
  - apply applyLine_other_scope. intros r. apply Hno, elem_of_cons. by left.
  - intros l' r Hin. apply Hno, elem_of_cons. by right.
Qed.

Lemma applyLines_last_scope before line after st scope registry :
  scopeLine line scope registry →
  (∀ l r, l ∈ after → ¬ scopeLine l scope r) →
  registryMap (foldl applyLine st (before ++ line :: after)) !! scope
  = Some registry.
Proof.
  intros Hline Hafter. rewrite foldl_app. simpl.
  rewrite applyLines_no_scope by done. by apply applyLine_scope.
Qed.

Lemma applyLines_no_default ls st :
  (∀ l r, l ∈ ls → ¬ defaultLine l r) →
  defaultRegistry (foldl applyLine st ls) = defaultRegistry st.
Proof.
  revert st; induction ls as [|l ls IH]; intros st Hno; simpl; [done|].
  rewrite IH.
  - apply applyLine_other_default. intros r. apply Hno, elem_of_cons. by left.
  - intros l' r Hin. apply Hno, elem_of_cons. by right.
Qed.

Lemma applyLines_last_default before line after st registry :
  defaultLine line registry →
  (∀ l r, l ∈ after → ¬ defaultLine l r) →
  defaultRegistry (foldl applyLine st (before ++ line :: after)) = registry.
Proof.
  intros Hline Hafter. rewrite foldl_app. simpl.
  rewrite applyLines_no_default by done. by apply applyLine_default.
Qed.

Section Layers.
Variable fs : gmap jsstring node.

Lemma existsSync_true p n : fs !! p = Some n → existsSync fs p = true.
Proof. intros Hp. unfold existsSync. by rewrite bool_decide_eq_true_2. Qed.

Lemma existsSync_false p : fs !! p = None → existsSync fs p = false.
Proof.
  intros Hp. unfold existsSync. rewrite bool_decide_eq_false_2; [done|].
  rewrite Hp. by intros [? ?].
Qed.

Lemma readFileSync_file p content :
  fs !! p = Some (File content) → readFileSync fs p = inr content.
Proof. intros Hp. unfold readFileSync. by rewrite Hp. Qed.

Lemma readFileSync_unreadable p reason :
  fs !! p = Some (Unreadable reason) → readFileSync fs p = inl reason.
Proof. intros Hp. unfold readFileSync. by rewrite Hp. Qed.

(** The three things [applyFile] does. *)
Lemma applyFile_file st p content :
  fs !! p = Some (File content) →
  applyFile fs st p = inr (foldl applyLine st (lines content)).
Proof.
  intros Hp. unfold applyFile.
  by rewrite (existsSync_true _ _ Hp), (readFileSync_file _ _ Hp).
Qed.

Lemma applyFile_missing st p : fs !! p = None → applyFile fs st p = inr st.
Proof. intros Hp. unfold applyFile. by rewrite (existsSync_false _ Hp). Qed.

Lemma applyFile_unreadable st p reason :
  fs !! p = Some (Unreadable reason) → applyFile fs st p = inl reason.
Proof.
  intros Hp. unfold applyFile.
  by rewrite (existsSync_true _ _ Hp), (readFileSync_unreadable _ _ Hp).
Qed.

Lemma applyFile_returns st p st' :
  applyFile fs st p = inr st' →
  (fs !! p = None ∧ st' = st)
  ∨ ∃ content, fs !! p = Some (File content)
               ∧ st' = foldl applyLine st (lines content).
Proof.
  destruct (fs !! p) as [[content|reason]|] eqn:Hp.
  - rewrite (applyFile_file _ _ _ Hp). intros [= <-]. right. by exists content.
  - by rewrite (applyFile_unreadable _ _ _ Hp).
  - rewrite (applyFile_missing _ _ Hp). intros [= <-]. by left.
Qed.

Lemma applyFiles_app ps qs st :
  applyFiles fs st (ps ++ qs)
  = let! st' := applyFiles fs st ps in applyFiles fs st' qs.
Proof.
  revert st; induction ps as [|p ps IH]; intros st; simpl; [done|].
  destruct (applyFile fs st p) as [reason|st']; simpl; [done|]. apply IH.
Qed.

(** The loop returns exactly when it meets no unreadable path. *)
Lemma applyFiles_readable ps st :
  readable fs ps → ∃ st', applyFiles fs st ps = inr st'.
Proof.
  revert st; induction ps as [|p ps IH]; intros st Hr; simpl; [by exists st|].
  destruct (fs !! p) as [[content|reason]|] eqn:Hp.
  - rewrite (applyFile_file _ _ _ Hp). simpl. apply IH.
    intros q r Hq. apply Hr. by apply list_elem_of_further.
  - destruct (Hr p reason); [apply list_elem_of_here|done].
  - rewrite (applyFile_missing _ _ Hp). simpl. apply IH.
    intros q r Hq. apply Hr. by apply list_elem_of_further.
Qed.

Lemma applyFiles_returns ps st st' :
  applyFiles fs st ps = inr st' → readable fs ps.
Proof.
  revert st; induction ps as [|p ps IH]; intros st; simpl.
  - intros _ q r Hq. by apply elem_of_nil in Hq.
  - destruct (applyFile fs st p) as [reason|st1] eqn:Hp; simpl; [done|].
    intros Hps q r [->|Hq]%elem_of_cons.
    + intros Hq. by rewrite (applyFile_unreadable _ _ _ Hq) in Hp.
    + by eapply IH.
Qed.

(** What holds of the configuration at the start and is kept by every
    line holds of the configuration returned. *)
Lemma applyFiles_invariant (P : config → Prop) :
  (∀ st line, P st → P (applyLine st line)) →
  ∀ ps st st', P st → applyFiles fs st ps = inr st' → P st'.
Proof.
  intros Hstep ps. induction ps as [|p ps IH]; intros st st' Hst; simpl.
  - by intros [= <-].
  - destruct (applyFile fs st p) as [reason|st1] eqn:Hp; simpl; [done|].
    apply IH. apply applyFile_returns in Hp as [[_ ->]|(content & _ & ->)];
      [done|].
    revert Hst. generalize st. generalize (lines content).
    intros ls. induction ls as [|l ls IHl]; intros st2 Hst2; simpl; [done|].
    by apply IHl, Hstep.
Qed.

(** The effect of the text of a layer. *)
Lemma applyText_declares st content scope registry :
  declaresScope content scope registry →
  registryMap (foldl applyLine st (lines content)) !! scope = Some registry.
Proof.
  intros (before & line & after & Hls & Hline & Hafter). rewrite Hls.
  by apply applyLines_last_scope.
Qed.

Lemma applyText_silent st content scope :
  ¬ mentionsScope content scope →
  registryMap (foldl applyLine st (lines content)) !! scope
  = registryMap st !! scope.
Proof.
  intros Hno. apply applyLines_no_scope.
  intros l r Hin Hl. apply Hno. by exists l, r.
Qed.

Lemma applyText_declares_default st content registry :
  declaresDefault content registry →
  defaultRegistry (foldl applyLine st (lines content)) = registry.
Proof.
  intros (before & line & after & Hls & Hline & Hafter). rewrite Hls.
  by apply applyLines_last_default.
Qed.

Lemma applyText_silent_default st content :
  ¬ mentionsDefault content →
  defaultRegistry (foldl applyLine st (lines content)) = defaultRegistry st.
Proof.
  intros Hno. apply applyLines_no_default.
  intros l r Hin Hl. apply Hno. by exists l, r.
Qed.

(** Layers without a default line, and paths that do not exist, leave
    the default registry alone. *)
Lemma applyFiles_silent_default ps st st' :
  (∀ p content, p ∈ ps → fs !! p = Some (File content) →
                ¬ mentionsDefault content) →
  applyFiles fs st ps = inr st' →
  defaultRegistry st' = defaultRegistry st.
Proof.
  revert st; induction ps as [|p ps IH]; intros st Hno; simpl.
  - by intros [= <-].
  - destruct (applyFile fs st p) as [reason|st1] eqn:Hp; simpl; [done|].
    intros Hps. rewrite (IH st1); [|by intros q c Hq; apply Hno,
      list_elem_of_further|done].
    apply applyFile_returns in Hp as [[_ ->]|(content & Hc & ->)]; [done|].
    apply applyText_silent_default. eapply Hno; [apply list_elem_of_here|done].
Qed.

(** [parseNpmrc] runs over the reversed array, which it leaves in the
    store. *)
Lemma parseNpmrc_unfold filePaths σ paths :
  σ !! filePaths = Some paths →
  parseNpmrc fs filePaths σ
  = (applyFiles fs initial (rev paths),
     <[filePaths := rev paths]> σ).
Proof.
  intros Hσ. unfold parseNpmrc. f_equal.
  - unfold lookup_total, map_lookup_total.
    by rewrite lookup_alter_eq, Hσ.
  - apply map_eq. intros r. destruct (decide (r = filePaths)) as [->|Hne].
    + by rewrite lookup_alter_eq, lookup_insert_eq, Hσ.
    + by rewrite lookup_alter_ne, lookup_insert_ne.
Qed.

Lemma readable_rev ps : readable fs (rev ps) ↔ readable fs ps.
Proof.
  assert (∀ p, p ∈ rev ps ↔ p ∈ ps) as Hrev.
  { intros p. by rewrite !list_elem_of_In, <- in_rev. }
  unfold readable. split; intros Hr p reason Hp; apply Hr; by apply Hrev.
Qed.
End Layers.

(** *** The shape of the keys *)

Lemma scopeLine_shape line scope registry :
  scopeLine line scope registry → scopeShape scope.
Proof.
  intros (value & (name & tail & -> & Hne & Hall & _)%scopedMatch_sound & _).
  split; [done|]. split.
  - destruct name; [done|]. simpl. lia.
  - intros [Heq|Hin]%elem_of_cons; [done|].
    by apply isNot_Forall in Hall.
Qed.

Lemma applyLine_shape st line :
  (∀ key, is_Some (registryMap st !! key) → scopeShape key) →
  ∀ key, is_Some (registryMap (applyLine st line) !! key) → scopeShape key.
Proof.
  intros Hst key. unfold applyLine.
  destruct (classify line) as [s r| |] eqn:Hc; simpl; try apply Hst.
  destruct (decide (s = key)) as [<-|Hne].
  - intros _. eapply scopeLine_shape. by apply classify_scope.
  - rewrite lookup_insert_ne by done. apply Hst.
Qed.

Lemma applyLines_shape ls st :
  (∀ key, is_Some (registryMap st !! key) → scopeShape key) →
  ∀ key, is_Some (registryMap (foldl applyLine st ls) !! key) →
         scopeShape key.
Proof.
  revert st; induction ls as [|l ls IH]; intros st Hst; simpl; [done|].
  by apply IH, applyLine_shape.
Qed.

Lemma applyFiles_shape fs ps st st' :
  (∀ key, is_Some (registryMap st !! key) → scopeShape key) →
  applyFiles fs st ps = inr st' →
  ∀ key, is_Some (registryMap st' !! key) → scopeShape key.
Proof.
  intros Hst Hps.
  apply (applyFiles_invariant fs
           (fun c => ∀ key, is_Some (registryMap c !! key) → scopeShape key)
           applyLine_shape ps st st' Hst Hps).
Qed.

End NpmrcFacts.

Module NpmrcClaims.
Import NpmrcFacts.

(** C1. Of the two layers, both files with text, the user-level one
    applied first and the project-level one last, [parseNpmrc] returns a
    merged mapping that gives a scope declared by the project-level layer
    its project-level value, whether or not the user-level layer declares
    it too; a scope declared by the user-level layer only keeps its
    user-level value; a scope neither declares is absent. *)
Theorem parseNpmrc_layer_precedence
    (fs : gmap jsstring node) (filePaths : positive)
    (σ : gmap positive (list jsstring))
    (userPath projectPath userText projectText scope : jsstring) :
  σ !! filePaths = Some [projectPath; userPath] →
  fs !! userPath = Some (File userText) →
  fs !! projectPath = Some (File projectText) →
  ∃ parsed,
    (parseNpmrc fs filePaths σ).1 = inr parsed
    ∧ let merged := registryMap parsed in
      (∀ registry, declaresScope projectText scope registry →
                   merged !! scope = Some registry)
      ∧ (∀ registry, declaresScope userText scope registry →
                     ¬ mentionsScope projectText scope →
                     merged !! scope = Some registry)
      ∧ (¬ mentionsScope userText scope → ¬ mentionsScope projectText scope →
         merged !! scope = None).
Proof.
  intros Hσ Hu Hp. rewrite (parseNpmrc_unfold _ _ _ _ Hσ).
  cbn [rev app applyFiles fst].
  rewrite (applyFile_file _ _ _ _ Hu). cbn [bind].
  rewrite (applyFile_file _ _ _ _ Hp). cbn [bind].
  eexists. split; [reflexivity|]. cbv zeta. split; [|split].
  - intros registry Hd. by apply applyText_declares.
  - intros registry Hd Hno. rewrite applyText_silent by done.
    by apply applyText_declares.
  - intros Hnu Hnp. by rewrite !applyText_silent by done.
Qed.

(** Decides a membership hypothesis over a list that evaluates to its
    elements, leaving one goal per element. *)
Ltac each_element H :=
  vm_compute in H;
  repeat (apply elem_of_cons in H as [->|H]);
  [..|by apply elem_of_nil in H].

Lemma parseNpmrc_layer_precedence_witness :
  ∃ parsed,
    (parseNpmrc Examples.fs 1%positive Examples.store).1 = inr parsed
    ∧ registryMap parsed !! js "@a" = Some (js "https://project.example/a/")
    ∧ registryMap parsed !! js "@b" = Some (js "https://user.example/b/")
    ∧ registryMap parsed !! js "@e" = None.
Proof.
  destruct (parseNpmrc_layer_precedence Examples.fs 1%positive
              Examples.store Examples.userRc Examples.projectRc
              Examples.userText Examples.projectText (js "@a")
              eq_refl eq_refl eq_refl) as (parsed & Hparsed & Ha & _ & _).
  destruct (parseNpmrc_layer_precedence Examples.fs 1%positive
              Examples.store Examples.userRc Examples.projectRc
              Examples.userText Examples.projectText (js "@b")
              eq_refl eq_refl eq_refl) as (parsed' & Hb' & _ & Hb & _).
  rewrite Hparsed in Hb'. injection Hb' as <-.
  destruct (parseNpmrc_layer_precedence Examples.fs 1%positive
              Examples.store Examples.userRc Examples.projectRc
              Examples.userText Examples.projectText (js "@e")
              eq_refl eq_refl eq_refl) as (parsed' & He' & _ & _ & He).
  rewrite Hparsed in He'. injection He' as <-.
  exists parsed. split; [done|]. split; [|split].
  - apply Ha.
    exists [js "# project settings"],
      (js "@a:registry = https://project.example/a/   # overrides the user level"),
      [js "@c/d:registry=https://project.example/c/"].
    split; [reflexivity|]. split.
    + eexists. split; reflexivity.
    + intros l r Hin (value & Hm & _). each_element Hin.
      vm_compute in Hm. discriminate Hm.
  - apply Hb.
    + exists [js "registry = https://mirror.example/";
              js "@a:registry = https://user.example/a/"],
        (js "@b:registry = https://user.example/b/"), [].
      split; [reflexivity|]. split.
      * eexists. split; reflexivity.
      * intros l r Hin. by apply elem_of_nil in Hin.
    + intros (l & r & Hin & value & Hm & _). each_element Hin;
        vm_compute in Hm; discriminate Hm.
  - apply He.
    + intros (l & r & Hin & value & Hm & _). each_element Hin;
        vm_compute in Hm; discriminate Hm.
    + intros (l & r & Hin & value & Hm & _). each_element Hin;
        vm_compute in Hm; discriminate Hm.
Defined.

(** C8. On an array whose existing paths can all be read [parseNpmrc]
    returns, with the public npm registry as the default when no layer
    has a line matching [registry = <value>], and otherwise with the
    trimmed value of the last such line of the last-applied layer that
    has one.  The layers are applied in the reverse of the order of the
    array. *)
Theorem parseNpmrc_default_registry
    (fs : gmap jsstring node) (filePaths : positive)
    (σ : gmap positive (list jsstring)) (paths : list jsstring) :
  σ !! filePaths = Some paths →
  readable fs paths →
  ∃ parsed,
    (parseNpmrc fs filePaths σ).1 = inr parsed
    ∧ let result := defaultRegistry parsed in
      ((∀ p content, p ∈ paths → fs !! p = Some (File content) →
                     ¬ mentionsDefault content) →
       result = js "https://registry.npmjs.org/")
      ∧ (∀ earlier p later content registry,
           rev paths = earlier ++ p :: later →
           fs !! p = Some (File content) →
           declaresDefault content registry →
           (∀ q c, q ∈ later → fs !! q = Some (File c) →
                   ¬ mentionsDefault c) →
           result = registry).
Proof.
  intros Hσ Hr. rewrite (parseNpmrc_unfold _ _ _ _ Hσ). cbn [fst].
  destruct (applyFiles_readable fs (rev paths) initial
              (proj2 (readable_rev fs paths) Hr)) as [parsed Hparsed].
  exists parsed. split; [done|]. cbv zeta. split.
  - intros Hno.
    rewrite (applyFiles_silent_default fs (rev paths) initial parsed);
      [done| |done].
    intros p content Hin. apply Hno.
    by apply list_elem_of_In, in_rev, list_elem_of_In.
  - intros earlier p later content registry Hrev Hp Hd Hlater.
    rewrite Hrev, applyFiles_app in Hparsed.
    destruct (applyFiles fs initial earlier) as [?|st0]; [done|].
    cbn [bind applyFiles] in Hparsed.
    rewrite (applyFile_file _ _ _ _ Hp) in Hparsed. cbn [bind] in Hparsed.
    rewrite (applyFiles_silent_default fs later _ parsed Hlater Hparsed).
    by apply applyText_declares_default.
Qed.

Lemma parseNpmrc_default_registry_witness :
  (∃ parsed,
     (parseNpmrc Examples.fs 1%positive Examples.store).1 = inr parsed
     ∧ defaultRegistry parsed = js "https://mirror.example/")
  ∧ ∃ parsed,
      (parseNpmrc Examples.fs 1%positive
         {[ 1%positive := [Examples.projectRc; js "/home/nobody/.npmrc"] ]}).1
      = inr parsed
      ∧ defaultRegistry parsed = js "https://registry.npmjs.org/".
Proof.
  split.
  - destruct (parseNpmrc_default_registry Examples.fs 1%positive
                Examples.store [Examples.projectRc; Examples.userRc] eq_refl)
      as (parsed & Hparsed & _ & Hlast).
    { intros p reason Hin Hp. each_element Hin; vm_compute in Hp;
        discriminate Hp. }
    exists parsed. split; [done|].
    apply (Hlast [] Examples.userRc [Examples.projectRc] Examples.userText);
      [reflexivity..| |].
    + exists [], (js "registry = https://mirror.example/"),
        [js "@a:registry = https://user.example/a/";
         js "@b:registry = https://user.example/b/"].
      split; [reflexivity|]. split.
      * eexists. split; reflexivity.
      * intros l r Hin (value & Hm & _). each_element Hin;
          vm_compute in Hm; discriminate Hm.
    + intros q c Hin Hq (l & r & Hl & value & Hm & _).
      each_element Hin. vm_compute in Hq. injection Hq as <-.
      each_element Hl; vm_compute in Hm; discriminate Hm.
  - destruct (parseNpmrc_default_registry Examples.fs 1%positive
                {[ 1%positive := [Examples.projectRc; js "/home/nobody/.npmrc"] ]}
                [Examples.projectRc; js "/home/nobody/.npmrc"]
                (lookup_singleton_eq _ _))
      as (parsed & Hparsed & Hnone & _).
    { intros p reason Hin Hp. each_element Hin; vm_compute in Hp;
        discriminate Hp. }
    exists parsed. split; [done|]. apply Hnone.
    intros p content Hin Hp (l & r & Hl & value & Hm & _).
    each_element Hin.
    + vm_compute in Hp. injection Hp as <-.
      each_element Hl; vm_compute in Hm; discriminate Hm.
    + vm_compute in Hp. discriminate Hp.
Defined.

(** C9, as the code has it. Every key of the mapping returned by
    [parseNpmrc] starts with [@], has at least one more character and
    contains no colon. *)
Theorem parseNpmrc_keys_shape
    (fs : gmap jsstring node) (filePaths : positive)
    (σ : gmap positive (list jsstring)) (parsed : config) (key : jsstring) :
  (parseNpmrc fs filePaths σ).1 = inr parsed →
  is_Some (registryMap parsed !! key) →
  head key = Some ch_at ∧ (2 ≤ length key)%nat ∧ ch_colon ∉ key.
Proof.
  unfold parseNpmrc. cbn [fst]. intros Hparsed.
  eapply applyFiles_shape; [|exact Hparsed].
  intros k [v Hv]. unfold initial in Hv. simpl in Hv.
  by rewrite lookup_empty in Hv.
Qed.

Lemma parseNpmrc_keys_shape_witness :
  head (js "@c/d") = Some ch_at ∧ (2 ≤ length (js "@c/d"))%nat
  ∧ ch_colon ∉ js "@c/d".
Proof.
  apply (parseNpmrc_keys_shape Examples.fs 1%positive Examples.store
           {| registryMap :=
                {[ js "@a" := js "https://project.example/a/";
                   js "@b" := js "https://user.example/b/";
                   js "@c/d" := js "https://project.example/c/" ]};
              defaultRegistry := js "https://mirror.example/" |}).
  - vm_compute. reflexivity.
  - exists (js "https://project.example/c/"). reflexivity.
Defined.

(** C9 as stated fails: a key may contain a slash. *)
Lemma parseNpmrc_key_with_slash :
  ¬ (∀ (fs : gmap jsstring node) (filePaths : positive)
       (σ : gmap positive (list jsstring)) (parsed : config)
       (key : jsstring),
       (parseNpmrc fs filePaths σ).1 = inr parsed →
       is_Some (registryMap parsed !! key) →
       head key = Some ch_at ∧ ch_slash ∉ key).
Proof.
  intros H.
  destruct (H Examples.fs 1%positive Examples.store
              {| registryMap :=
                   {[ js "@a" := js "https://project.example/a/";
                      js "@b" := js "https://user.example/b/";
                      js "@c/d" := js "https://project.example/c/" ]};
                 defaultRegistry := js "https://mirror.example/" |}
              (js "@c/d")) as [_ Hno].
  - vm_compute. reflexivity.
  - exists (js "https://project.example/c/"). reflexivity.
  - apply Hno. vm_compute. do 2 apply list_elem_of_further.
    apply list_elem_of_here.
Qed.

(** C7. The code does change the array it is given.  On the array
    [project; user] of the sample project [parseNpmrc] returns with the
    caller's array reversed, and a second call on that same array applies
    the layers the other way round: the user-level value of [@a] then
    overrides the project-level one. *)
Theorem parseNpmrc_input_changed :
  let (first, σ1) := parseNpmrc Examples.fs 1%positive Examples.store in
  let (second, σ2) := parseNpmrc Examples.fs 1%positive σ1 in
  Examples.store !! 1%positive = Some [Examples.projectRc; Examples.userRc]
  ∧ σ1 !! 1%positive = Some [Examples.userRc; Examples.projectRc]
  ∧ (∃ parsed, first = inr parsed
               ∧ registryMap parsed !! js "@a"
                 = Some (js "https://project.example/a/"))
  ∧ (∃ parsed, second = inr parsed
               ∧ registryMap parsed !! js "@a"
                 = Some (js "https://user.example/a/")).
Proof.
  vm_compute. split; [done|]. split; [done|].
  split; eexists; split; reflexivity.
Qed.

(** C6, as the code has it. For a lockfile path whose two candidate
    config files both exist, [findNpmrcFiles] returns the project-level
    path first and the user-level path second ([parseNpmrc] reverses the
    array, so the project-level file is still applied last); whatever
    the file system, a candidate that does not exist is left out. *)
Theorem findNpmrcFiles_project_first
    (homedir : jsstring) (path_join : jsstring → jsstring → jsstring)
    (path_dirname : jsstring → jsstring)
    (fs : gmap jsstring node) (lockfilePath : jsstring) :
  lockfilePath ≠ [] →
  is_Some (fs !! userNpmrc homedir path_join) →
  is_Some (fs !! projectNpmrc path_join path_dirname lockfilePath) →
  findNpmrcFiles homedir path_join path_dirname fs (Some lockfilePath)
  = [projectNpmrc path_join path_dirname lockfilePath;
     userNpmrc homedir path_join]
  ∧ ∀ fs' : gmap jsstring node,
      findNpmrcFiles homedir path_join path_dirname fs' (Some lockfilePath)
      = List.filter (existsSync fs')
          [projectNpmrc path_join path_dirname lockfilePath;
           userNpmrc homedir path_join].
Proof.
  intros Hne Hu Hp.
  assert (∀ fs' : gmap jsstring node,
      findNpmrcFiles homedir path_join path_dirname fs' (Some lockfilePath)
      = List.filter (existsSync fs')
          [projectNpmrc path_join path_dirname lockfilePath;
           userNpmrc homedir path_join]) as Hall.
  { intros fs'. unfold findNpmrcFiles. by destruct lockfilePath. }
  split; [|done]. rewrite Hall. unfold existsSync. simpl.
  by rewrite !bool_decide_eq_true_2.
Qed.

Lemma findNpmrcFiles_project_first_witness :
  findNpmrcFiles Examples.home joinPath dirnamePath Examples.fs
    (Some Examples.lockfile)
  = [Examples.projectRc; Examples.userRc].
Proof.
  refine (proj1 (findNpmrcFiles_project_first Examples.home joinPath
            dirnamePath Examples.fs Examples.lockfile _ _ _)).
  - discriminate.
  - exists (File Examples.userText). reflexivity.
  - exists (File Examples.projectText). reflexivity.
Defined.

(** C6 as stated fails: the user-level path does not come first. *)
Lemma findNpmrcFiles_user_not_first :
  ¬ (∀ (homedir : jsstring) (path_join : jsstring → jsstring → jsstring)
       (path_dirname : jsstring → jsstring)
       (fs : gmap jsstring node) (lockfilePath : jsstring),
       lockfilePath ≠ [] →
       is_Some (fs !! userNpmrc homedir path_join) →
       is_Some (fs !! projectNpmrc path_join path_dirname lockfilePath) →
       findNpmrcFiles homedir path_join path_dirname fs (Some lockfilePath)
       = [userNpmrc homedir path_join;
          projectNpmrc path_join path_dirname lockfilePath]).
Proof.
  intros H.
  specialize (H Examples.home joinPath dirnamePath Examples.fs
                Examples.lockfile).
  assert (Examples.lockfile ≠ []) as Hne by discriminate.
  assert (is_Some (Examples.fs !! userNpmrc Examples.home joinPath)) as Hu
    by (exists (File Examples.userText); reflexivity).
  assert (is_Some (Examples.fs
                     !! projectNpmrc joinPath dirnamePath Examples.lockfile))
    as Hp by (exists (File Examples.projectText); reflexivity).
  specialize (H Hne Hu Hp). vm_compute in H. discriminate H.
Qed.

End NpmrcClaims.

(** ** LockfileScanner *)

Module LockfileFacts.
Import NpmrcFacts.

(** *** The scope pattern *)

Lemma scopeMatch_sound pkg scope :
  scopeMatch pkg = Some scope →
  ∃ name rest, scope = ch_at :: name ∧ name ≠ []
               ∧ Forall (fun c => isNot ch_slash c = true) name
               ∧ pkg = scope ++ ch_slash :: rest.
Proof.
  unfold scopeMatch. destruct (run scopeRe pkg) as [pieces|] eqn:Hrun; [|done].
  run_pieces Hrun. subst. destruct Hpiece0 as [Hne Hall].
  intros [= <-]. exists piece0, rest. split; [done|].
  split; [done|]. split; [done|].
  simpl. by rewrite <- !app_assoc.
Qed.

(** The pattern is complete: [@], a non-empty name without a slash and a
    slash are always recognised, and the capture is [@] with the name. *)
Lemma scopeMatch_complete name rest :
  name ≠ [] → Forall (fun c => isNot ch_slash c = true) name →
  scopeMatch (ch_at :: name ++ ch_slash :: rest) = Some (ch_at :: name).
Proof.
  intros Hne Hall. destruct Hall as [|c name Hc Hall]; [done|].
  unfold scopeMatch, scopeRe. simpl. rewrite Hc.
  erewrite greedy_maximal; [|done|done|reflexivity]. reflexivity.
Qed.

Lemma scopeMatch_iff pkg scope :
  scopeMatch pkg = Some scope ↔
  ∃ name rest, name ≠ [] ∧ (ch_slash ∉ name)
               ∧ scope = ch_at :: name ∧ pkg = scope ++ ch_slash :: rest.
Proof.
  split.
  - intros (name & rest & -> & Hne & Hall & ->)%scopeMatch_sound.
    exists name, rest. split; [done|]. split; [|done].
    by apply isNot_Forall.
  - intros (name & rest & Hne & Hno & -> & ->). simpl.
    apply scopeMatch_complete; [done|].
    apply Forall_forall. intros c Hc. unfold isNot.
    apply negb_true_iff, N.eqb_neq. by intros ->.
Qed.

Lemma scopeMatch_head pkg scope :
  scopeMatch pkg = Some scope → head pkg = Some ch_at.
Proof. by intros (name & rest & -> & _ & _ & ->)%scopeMatch_sound. Qed.

(** The shape of a captured scope. *)
Lemma scopeMatch_shape pkg scope :
  scopeMatch pkg = Some scope →
  head scope = Some ch_at ∧ (2 ≤ length scope)%nat ∧ ch_slash ∉ scope.
Proof.
  intros (name & rest & -> & Hne & Hall & _)%scopeMatch_sound.
  split; [done|]. split.
  - destruct name; [done|]. simpl. lia.
  - intros [Heq|Hin]%elem_of_cons; [done|].
    by apply isNot_Forall in Hall.
Qed.

(** A scope never names an inherited property, so [registryMap[scope]]
    does not reach the prototype. *)
Lemma scopeMatch_not_inherited pkg scope :
  scopeMatch pkg = Some scope → scope ∉ objectPrototypeKeys.
Proof.
  intros (Hhd & _)%scopeMatch_shape Hin.
  vm_compute in Hin.
  repeat (apply elem_of_cons in Hin as [->|Hin]; [discriminate Hhd|]).
  by apply elem_of_nil in Hin.
Qed.

(** *** The keys [Object.keys] enumerates *)

Lemma startsWithDigit_no_scope s : startsWithDigit s → scopeMatch s = None.
Proof.
  intros Hd. destruct (scopeMatch s) as [scope|] eqn:Hm; [|done].
  apply scopeMatch_head in Hm. destruct s as [|d s]; [done|].
  simpl in *. injection Hm as ->. by vm_compute in Hd.
Qed.

Lemma uintCodes_head d : d ≠ Decimal.Nil → startsWithDigit (uintCodes d).
Proof. by destruct d. Qed.

Lemma uintCodes_inj d d' : uintCodes d = uintCodes d' → d = d'.
Proof.
  revert d'; induction d as [|d IH|d IH|d IH|d IH|d IH|d IH|d IH|d IH|d IH|d IH];
    intros [|d'|d'|d'|d'|d'|d'|d'|d'|d'|d']; simpl; try discriminate;
    try done; intros [= Heq]; f_equal; by apply IH.
Qed.

Lemma indexToString_head i : startsWithDigit (indexToString i).
Proof.
  apply uintCodes_head. unfold N.to_uint.
  destruct (N.of_nat i) as [|p]; [done|].
  apply DecimalPos.Unsigned.to_uint_nonnil.
Qed.

(** Distinct indices have distinct keys. *)
Lemma indexToString_inj i j : indexToString i = indexToString j → i = j.
Proof.
  intros Heq%uintCodes_inj. apply Nat2N.inj.
  by rewrite <- (DecimalN.Unsigned.of_to (N.of_nat i)), Heq,
    DecimalN.Unsigned.of_to.
Qed.

Lemma indexToString_no_scope i : scopeMatch (indexToString i) = None.
Proof. apply startsWithDigit_no_scope, indexToString_head. Qed.

Lemma indexKeys_no_scope n :
  Forall (fun k => scopeMatch k = None) (indexKeys n).
Proof.
  unfold indexKeys. apply Forall_forall. intros k Hk.
  apply list_elem_of_In, in_map_iff in Hk as (i & <- & _).
  apply indexToString_no_scope.
Qed.

Lemma isArrayIndex_no_scope k : isArrayIndex k = true → scopeMatch k = None.
Proof.
  intros Hk. apply startsWithDigit_no_scope.
  destruct k as [|c rest]; [done|]. simpl in *.
  by apply andb_prop in Hk as [[[? _]%andb_prop _]%andb_prop _].
Qed.

Lemma elem_of_insertIndex x k l : x ∈ insertIndex k l ↔ x = k ∨ x ∈ l.
Proof.
  induction l as [|y l IH]; simpl.
  - by rewrite !elem_of_cons.
  - destruct (digitsValue 0 k <=? digitsValue 0 y).
    + by rewrite !elem_of_cons.
    + rewrite !elem_of_cons, IH. tauto.
Qed.

Lemma elem_of_sortIndices x l : x ∈ sortIndices l ↔ x ∈ l.
Proof.
  induction l as [|y l IH]; simpl; [done|].
  by rewrite elem_of_insertIndex, elem_of_cons, IH.
Qed.

(** [Object.keys] reorders the keys, it neither drops nor invents one. *)
Lemma elem_of_ownKeys x created : x ∈ ownKeys created ↔ x ∈ created.
Proof.
  unfold ownKeys.
  rewrite elem_of_app, elem_of_sortIndices, !list_elem_of_In, !filter_In.
  destruct (isArrayIndex x); simpl; intuition congruence.
Qed.

Lemma filter_insertIndex (f : jsstring → bool) k l :
  f k = false → List.filter f (insertIndex k l) = List.filter f l.
Proof.
  intros Hk. induction l as [|y l IH]; simpl.
  - by rewrite Hk.
  - destruct (digitsValue 0 k <=? digitsValue 0 y); simpl.
    + by rewrite Hk.
    + by rewrite IH.
Qed.

Lemma filter_sortIndices (f : jsstring → bool) l :
  (∀ k, k ∈ l → f k = false) → List.filter f (sortIndices l) = [].
Proof.
  induction l as [|y l IH]; intros Hl; simpl; [done|].
  rewrite filter_insertIndex.
  - apply IH. intros k Hk. apply Hl, elem_of_cons. by right.
  - apply Hl, elem_of_cons. by left.
Qed.

Lemma filter_filter_implied (f g : jsstring → bool) l :
  (∀ k, f k = true → g k = true) →
  List.filter f (List.filter g l) = List.filter f l.
Proof.
  intros Hfg. induction l as [|y l IH]; simpl; [done|].
  destruct (g y) eqn:Hg; simpl.
  - by rewrite IH.
  - destruct (f y) eqn:Hf; [|done]. apply Hfg in Hf. congruence.
Qed.

(** Keys with a scope prefix are not array indices: [Object.keys] keeps
    them in creation order. *)
Lemma filter_ownKeys (f : jsstring → bool) created :
  (∀ k, f k = true → is_Some (scopeMatch k)) →
  List.filter f (ownKeys created) = List.filter f created.
Proof.
  intros Hf.
  assert (∀ k, isArrayIndex k = true → f k = false) as Hidx.
  { intros k Hk%isArrayIndex_no_scope. destruct (f k) eqn:Hfk; [|done].
    apply Hf in Hfk as [scope Hs]. congruence. }
  unfold ownKeys. rewrite List.filter_app, filter_sortIndices.
  - simpl. apply filter_filter_implied. intros k Hk.
    destruct (isArrayIndex k) eqn:Hi; [|done].
    apply Hidx in Hi. congruence.
  - intros k [_ Hk]%list_elem_of_In%filter_In. by apply Hidx.
Qed.

Lemma filter_no_scope (f : jsstring → bool) keys :
  (∀ k, f k = true → is_Some (scopeMatch k)) →
  Forall (fun k => scopeMatch k = None) keys →
  List.filter f keys = [].
Proof.
  intros Hf Hkeys. induction Hkeys as [|k keys Hk _ IH]; simpl; [done|].
  destruct (f k) eqn:Hfk; [|done].
  apply Hf in Hfk as [scope Hs]. congruence.
Qed.

Section Documents.
Context {Num : Type} (numFalsy : Num → bool).

(** [lockData?.packages || {}] is never undefined or null, so
    [Object.keys] does not throw; on the keys with a scope prefix the
    enumeration agrees with the order of the document. *)
Lemma packageKeys_total (lockData : jsval Num) :
  ∃ keys,
    packageKeys numFalsy lockData = inr keys
    ∧ (∀ k, k ∈ keys ∧ is_Some (scopeMatch k) ↔
            k ∈ documentKeys (orEmptyObject numFalsy (getPackages lockData))
            ∧ is_Some (scopeMatch k))
    ∧ ∀ f : jsstring → bool,
        (∀ k, f k = true → is_Some (scopeMatch k)) →
        List.filter f keys
        = List.filter f
            (documentKeys (orEmptyObject numFalsy (getPackages lockData))).
Proof.
  unfold packageKeys, orEmptyObject.
  destruct (getPackages lockData) as [| |b|n|s|items|props|indices]; simpl.
  1,2: exists []; split; [done|]; split; [|done];
       intros k; rewrite elem_of_nil; tauto.
  - destruct b; simpl; exists []; (split; [done|]); (split; [|done]);
      intros k; rewrite elem_of_nil; tauto.
  - destruct (numFalsy n); simpl; exists []; (split; [done|]);
      (split; [|done]); intros k; rewrite elem_of_nil; tauto.
  - destruct s as [|c s]; simpl.
    + exists []. split; [done|]. split; [|done].
      intros k. rewrite elem_of_nil. tauto.
    + eexists. split; [done|]. split.
      * intros k. rewrite elem_of_nil. split; [|tauto].
        intros [Hk [scope Hs]].
        pose proof (indexKeys_no_scope (length (c :: s))) as Hall.
        rewrite Forall_forall in Hall. apply Hall in Hk. congruence.
      * intros f Hf. by apply filter_no_scope, indexKeys_no_scope.
  - eexists. split; [done|]. split.
    + intros k. rewrite elem_of_nil. split; [|tauto].
      intros [Hk [scope Hs]].
      pose proof (indexKeys_no_scope (length items)) as Hall.
      rewrite Forall_forall in Hall. apply Hall in Hk. congruence.
    + intros f Hf. by apply filter_no_scope, indexKeys_no_scope.
  - eexists. split; [done|]. split.
    + intros k. by rewrite elem_of_ownKeys.
    + intros f Hf. by apply filter_ownKeys.
  - eexists. split; [done|]. split.
    + intros k. rewrite elem_of_nil. split; [|tauto].
      intros [Hk [scope Hs]].
      pose proof (indexKeys_no_scope indices) as Hall.
      rewrite Forall_forall in Hall. apply Hall in Hk. congruence.
    + intros f Hf. by apply filter_no_scope, indexKeys_no_scope.
Qed.
End Documents.

(** *** The loop of [extractScopes] *)

Lemma elem_of_foldl_addScope (keys : list jsstring)
      (scopes : gset jsstring) (s : jsstring) :
  s ∈ foldl addScope scopes keys ↔
  s ∈ scopes ∨ ∃ pkg, pkg ∈ keys ∧ scopeMatch pkg = Some s.
Proof.
  revert scopes; induction keys as [|k keys IH]; intros scopes; simpl.
  - split; [by left|]. intros [?|(pkg & Hin & _)]; [done|].
    by apply elem_of_nil in Hin.
  - rewrite IH. unfold addScope. setoid_rewrite elem_of_cons.
    destruct (scopeMatch k) as [sc|] eqn:Hk.
    + rewrite elem_of_union, elem_of_singleton. naive_solver.
    + naive_solver.
Qed.

Lemma foldl_addScope_no_scope (keys : list jsstring)
      (scopes : gset jsstring) :
  Forall (fun k => scopeMatch k = None) keys →
  foldl addScope scopes keys = scopes.
Proof.
  intros Hkeys. revert scopes.
  induction Hkeys as [|k keys Hk _ IH]; intros scopes; simpl; [done|].
  rewrite IH. unfold addScope. by rewrite Hk.
Qed.

(** *** The loop of [extractPackagesByRegistry] *)

Lemma foldl_addPackage_no_scope
      (registryMap : gmap jsstring jsstring) (defaultRegistry : jsstring)
      (keys : list jsstring) (m : gmap jsstring (list jsstring)) :
  Forall (fun k => scopeMatch k = None) keys →
  foldl (fun acc pkg => bind acc (fun packagesByRegistry =>
           addPackage registryMap defaultRegistry packagesByRegistry pkg))
        (inr m) keys
  = inr m.
Proof.
  intros Hkeys. induction Hkeys as [|k keys Hk _ IH]; simpl; [done|].
  unfold addPackage at 2. by rewrite Hk.
Qed.

Lemma filter_members (f : jsstring → bool) (l : list jsstring) :
  List.filter (fun x => bool_decide (x ∈ List.filter f l)) l
  = List.filter f l.
Proof.
  apply filter_ext_in. intros x Hx.
  destruct (f x) eqn:Hf.
  - apply bool_decide_eq_true_2, list_elem_of_In, filter_In. by split.
  - apply bool_decide_eq_false_2.
    intros [_ ?]%list_elem_of_In%filter_In. congruence.
Qed.

Section Classification.
Variable registryMap : gmap jsstring jsstring.
Variable defaultRegistry : jsstring.

Lemma mapsTo_eq pkg scope registry R :
  scopeMatch pkg = Some scope → registryMap !! scope = Some registry →
  mapsTo registryMap R pkg = bool_decide (registry = R).
Proof.
  intros Hs Hr. unfold mapsTo. rewrite Hs, Hr.
  apply bool_decide_ext. split; congruence.
Qed.

Lemma mapsTo_true pkg R :
  mapsTo registryMap R pkg = true ↔
  ∃ scope, scopeMatch pkg = Some scope ∧ registryMap !! scope = Some R.
Proof.
  unfold mapsTo. destruct (scopeMatch pkg) as [scope|].
  - rewrite bool_decide_eq_true. naive_solver.
  - naive_solver.
Qed.

Lemma expected_snoc keys pkg R :
  expected registryMap defaultRegistry (keys ++ [pkg]) R
  = expected registryMap defaultRegistry keys R
    ++ (if bool_decide (R ≠ []) && bool_decide (R ≠ defaultRegistry)
           && mapsTo registryMap R pkg
        then [pkg] else []).
Proof.
  unfold expected.
  destruct (bool_decide (R ≠ []) && bool_decide (R ≠ defaultRegistry));
    simpl; [|done].
  rewrite List.filter_app. simpl. by destruct (mapsTo registryMap R pkg).
Qed.

Lemma classified_skip keys m pkg :
  (∀ R, bool_decide (R ≠ []) && bool_decide (R ≠ defaultRegistry)
        && mapsTo registryMap R pkg = false) →
  classified registryMap defaultRegistry keys m →
  classified registryMap defaultRegistry (keys ++ [pkg]) m.
Proof.
  intros Hskip Hm R. by rewrite expected_snoc, Hskip, app_nil_r.
Qed.

(** No registry of the mapping names an inherited property. *)
Hypothesis registries_plain :
  ∀ scope R, registryMap !! scope = Some R → R ∉ objectPrototypeKeys.

Lemma addPackage_classified keys m pkg :
  classified registryMap defaultRegistry keys m →
  ∃ m', addPackage registryMap defaultRegistry m pkg = inr m'
        ∧ classified registryMap defaultRegistry (keys ++ [pkg]) m'.
Proof.
  intros Hm. unfold addPackage.
  destruct (scopeMatch pkg) as [scope|] eqn:Hs.
  2: { exists m. split; [done|]. apply classified_skip; [|done].
       intros R. unfold mapsTo. rewrite Hs. apply andb_false_r. }
  destruct (registryMap !! scope) as [registry|] eqn:Hr.
  2: { exists m. split; [done|]. apply classified_skip; [|done].
       intros R. unfold mapsTo. rewrite Hs, Hr.
       rewrite (bool_decide_eq_false_2 (None = Some R)) by done.
       apply andb_false_r. }
  destruct (bool_decide (registry ≠ [])
            && bool_decide (registry ≠ defaultRegistry)) eqn:Hgood.
  2: { exists m. split; [done|]. apply classified_skip; [|done].
       intros R. rewrite (mapsTo_eq _ _ _ _ Hs Hr).
       destruct (decide (registry = R)) as [<-|Hne].
       - by rewrite Hgood.
       - rewrite (bool_decide_eq_false_2 _ Hne). apply andb_false_r. }
  assert (∀ R, R ≠ registry →
               expected registryMap defaultRegistry (keys ++ [pkg]) R
               = expected registryMap defaultRegistry keys R) as Hother.
  { intros R Hne. rewrite expected_snoc, (mapsTo_eq _ _ _ _ Hs Hr).
    rewrite (bool_decide_eq_false_2 (registry = R)) by done.
    by rewrite andb_false_r, app_nil_r. }
  assert (expected registryMap defaultRegistry (keys ++ [pkg]) registry
          = expected registryMap defaultRegistry keys registry ++ [pkg])
    as Hsame.
  { rewrite expected_snoc, Hgood, (mapsTo_eq _ _ _ _ Hs Hr).
    by rewrite bool_decide_eq_true_2. }
  unfold getProp. pose proof (Hm registry) as Hreg.
  destruct (expected registryMap defaultRegistry keys registry)
    as [|p ps] eqn:He; rewrite Hreg.
  - rewrite bool_decide_eq_false_2 by by eapply registries_plain.
    eexists. split; [done|]. intros R.
    destruct (decide (R = registry)) as [->|Hne].
    + by rewrite lookup_insert_eq, Hsame.
    + rewrite lookup_insert_ne by done. rewrite Hother by done. apply Hm.
  - eexists. split; [done|]. intros R.
    destruct (decide (R = registry)) as [->|Hne].
    + by rewrite lookup_insert_eq, Hsame.
    + rewrite lookup_insert_ne by done. rewrite Hother by done. apply Hm.
Qed.

Lemma foldl_addPackage_classified keys :
  ∃ m,
    foldl (fun acc pkg => bind acc (fun packagesByRegistry =>
             addPackage registryMap defaultRegistry packagesByRegistry pkg))
          (inr ∅) keys
    = inr m
    ∧ classified registryMap defaultRegistry keys m.
Proof.
  induction keys as [|pkg keys (m & Hfold & Hm)] using rev_ind.
  - exists ∅. split; [done|]. intros R. rewrite lookup_empty.
    unfold expected. by destruct (_ && _).
  - destruct (addPackage_classified keys m pkg Hm) as (m' & Hadd & Hm').
    exists m'. split; [|done]. by rewrite foldl_app, Hfold.
Qed.
End Classification.

End LockfileFacts.

Module LockfileClaims.
Import NpmrcFacts LockfileFacts.

Section Scanner.
Context {Num : Type} (numFalsy : Num → bool).
Variable yaml_load : jsstring → jsstring + jsval Num.
Variable fs : gmap jsstring node.

(** The scanners by what is at the path. *)
Lemma extractScopes_file (lockPath content : jsstring) :
  fs !! lockPath = Some (File content) →
  extractScopes numFalsy yaml_load fs lockPath
  = catchParse (let! lockData := yaml_load content in
                let! keys := packageKeys numFalsy lockData in
                inr (foldl addScope ∅ keys)).
Proof.
  intros Hfs. unfold extractScopes.
  by rewrite (existsSync_true _ _ _ Hfs), (readFileSync_file _ _ _ Hfs).
Qed.

Lemma extractScopes_unreadable (lockPath reason : jsstring) :
  fs !! lockPath = Some (Unreadable reason) →
  extractScopes numFalsy yaml_load fs lockPath
  = inl (LockfileParseError reason).
Proof.
  intros Hfs. unfold extractScopes.
  by rewrite (existsSync_true _ _ _ Hfs), (readFileSync_unreadable _ _ _ Hfs).
Qed.

Lemma extractScopes_missing (lockPath : jsstring) :
  fs !! lockPath = None →
  extractScopes numFalsy yaml_load fs lockPath
  = inl (LockfileNotFound lockPath).
Proof.
  intros Hfs. unfold extractScopes. by rewrite (existsSync_false _ _ Hfs).
Qed.

Lemma extractPackagesByRegistry_file (lockPath content : jsstring)
      (registryMap : gmap jsstring jsstring) (defaultRegistry : jsstring) :
  fs !! lockPath = Some (File content) →
  extractPackagesByRegistry numFalsy yaml_load fs lockPath registryMap
    defaultRegistry
  = catchParse (let! lockData := yaml_load content in
                let! keys := packageKeys numFalsy lockData in
                foldl (fun acc pkg =>
                         let! packagesByRegistry := acc in
                         addPackage registryMap defaultRegistry
                                    packagesByRegistry pkg)
                      (inr ∅) keys).
Proof.
  intros Hfs. unfold extractPackagesByRegistry.
  by rewrite (existsSync_true _ _ _ Hfs), (readFileSync_file _ _ _ Hfs).
Qed.

Lemma extractPackagesByRegistry_unreadable (lockPath reason : jsstring)
      (registryMap : gmap jsstring jsstring) (defaultRegistry : jsstring) :
  fs !! lockPath = Some (Unreadable reason) →
  extractPackagesByRegistry numFalsy yaml_load fs lockPath registryMap
    defaultRegistry
  = inl (LockfileParseError reason).
Proof.
  intros Hfs. unfold extractPackagesByRegistry.
  by rewrite (existsSync_true _ _ _ Hfs), (readFileSync_unreadable _ _ _ Hfs).
Qed.

Lemma extractPackagesByRegistry_missing (lockPath : jsstring)
      (registryMap : gmap jsstring jsstring) (defaultRegistry : jsstring) :
  fs !! lockPath = None →
  extractPackagesByRegistry numFalsy yaml_load fs lockPath registryMap
    defaultRegistry
  = inl (LockfileNotFound lockPath).
Proof.
  intros Hfs. unfold extractPackagesByRegistry.
  by rewrite (existsSync_false _ _ Hfs).
Qed.

(** What [extractScopes] returns for a lockfile that loads: the
    captures of the keys of its [packages]. *)
Lemma extractScopes_loaded lockPath content lockData :
  fs !! lockPath = Some (File content) → yaml_load content = inr lockData →
  ∃ scopes,
    extractScopes numFalsy yaml_load fs lockPath = inr scopes
    ∧ ∀ scope, scope ∈ scopes ↔
        ∃ pkg, pkg ∈ documentKeys
                       (orEmptyObject numFalsy (getPackages lockData))
               ∧ scopeMatch pkg = Some scope.
Proof.
  intros Hfs Hload. rewrite (extractScopes_file _ _ Hfs), Hload. simpl.
  destruct (packageKeys_total numFalsy lockData) as (keys & -> & Hkeys & _).
  simpl. eexists. split; [done|]. intros scope.
  rewrite elem_of_foldl_addScope. split.
  - intros [Hin|(pkg & Hin & Hm)]; [by apply elem_of_empty in Hin|].
    exists pkg. split; [|done]. by apply Hkeys.
  - intros (pkg & Hin & Hm). right. exists pkg. split; [|done].
    by apply Hkeys.
Qed.

(** The error contract of [extractScopes]. *)
Lemma extractScopes_not_found lockPath e :
  extractScopes numFalsy yaml_load fs lockPath = inl (LockfileNotFound e)
  ↔ fs !! lockPath = None ∧ e = lockPath.
Proof.
  destruct (fs !! lockPath) as [[content|reason]|] eqn:Hfs.
  - rewrite (extractScopes_file _ _ Hfs). split; [|by intros [? _]].
    destruct (yaml_load content) as [msg|lockData]; simpl; [done|].
    by destruct (packageKeys_total numFalsy lockData) as (keys & -> & _).
  - rewrite (extractScopes_unreadable _ _ Hfs). split; [done|by intros [? _]].
  - rewrite (extractScopes_missing _ Hfs).
    split; [by intros [= ->]|by intros [_ ->]].
Qed.

(** It reports a parse error when the path exists and reading it or
    loading its text throws. *)
Lemma extractScopes_parse_error lockPath reason :
  extractScopes numFalsy yaml_load fs lockPath
  = inl (LockfileParseError reason)
  ↔ fs !! lockPath = Some (Unreadable reason)
    ∨ ∃ content, fs !! lockPath = Some (File content)
                 ∧ yaml_load content = inl reason.
Proof.
  destruct (fs !! lockPath) as [[content|why]|] eqn:Hfs.
  - rewrite (extractScopes_file _ _ Hfs).
    destruct (yaml_load content) as [msg|lockData] eqn:Hload; simpl.
    + split; [intros [= ->]; right; by exists content|].
      intros [[=]|(c & [= <-] & Hc)].
      rewrite Hload in Hc. by injection Hc as ->.
    + destruct (packageKeys_total numFalsy lockData) as (keys & -> & _).
      simpl. split; [done|]. intros [[=]|(c & [= <-] & Hc)]. congruence.
  - rewrite (extractScopes_unreadable _ _ Hfs). split.
    + intros [= ->]. by left.
    + by intros [[= ->]|(c & [=] & _)].
  - rewrite (extractScopes_missing _ Hfs). split; [done|].
    by intros [[=]|(c & [=] & _)].
Qed.

(** [extractPackagesByRegistry] shares the contract for a missing file,
    and reports a loader failure as a parse error. *)
Lemma extractPackagesByRegistry_not_found
    (lockPath : jsstring) (registryMap : gmap jsstring jsstring)
    (defaultRegistry e : jsstring) :
  extractPackagesByRegistry numFalsy yaml_load fs lockPath registryMap
    defaultRegistry = inl (LockfileNotFound e)
  ↔ fs !! lockPath = None ∧ e = lockPath.
Proof.
  destruct (fs !! lockPath) as [[content|reason]|] eqn:Hfs.
  - rewrite (extractPackagesByRegistry_file _ _ _ _ Hfs).
    split; [|by intros [? _]]. unfold catchParse. by case_match.
  - rewrite (extractPackagesByRegistry_unreadable _ _ _ _ Hfs).
    split; [done|by intros [? _]].
  - rewrite (extractPackagesByRegistry_missing _ _ _ Hfs).
    split; [by intros [= ->]|by intros [_ ->]].
Qed.

Lemma extractPackagesByRegistry_load_failure
    (lockPath content reason : jsstring)
    (registryMap : gmap jsstring jsstring) (defaultRegistry : jsstring) :
  fs !! lockPath = Some (File content) → yaml_load content = inl reason →
  extractPackagesByRegistry numFalsy yaml_load fs lockPath registryMap
    defaultRegistry = inl (LockfileParseError reason).
Proof.
  intros Hfs Hload.
  by rewrite (extractPackagesByRegistry_file _ _ _ _ Hfs), Hload.
Qed.

(** C3. For a lockfile whose [packages] has exactly the keys
    [@foo/bar], [baz] and [@foo/qux], in any order and with any
    values, [extractScopes] returns the set holding [@foo] alone. *)
Theorem extractScopes_foo (lockPath content : jsstring)
    (lockData : jsval Num) (props : list (jsstring * jsval Num)) :
  fs !! lockPath = Some (File content) →
  yaml_load content = inr lockData →
  getPackages lockData = VObj props →
  (∀ k, k ∈ List.map fst props
        ↔ k ∈ [js "@foo/bar"; js "baz"; js "@foo/qux"]) →
  extractScopes numFalsy yaml_load fs lockPath = inr {[ js "@foo" ]}.
Proof.
  intros Hfs Hload Hpk Hkeys.
  destruct (extractScopes_loaded _ _ _ Hfs Hload) as (scopes & -> & Hs).
  f_equal. apply set_eq. intros scope.
  rewrite Hs, Hpk, elem_of_singleton. simpl. split.
  - intros (pkg & Hin%Hkeys & Hm).
    repeat (apply elem_of_cons in Hin as [->|Hin]);
      [vm_compute in Hm;
       first [discriminate Hm | by injection Hm as <-]..|].
    by apply elem_of_nil in Hin.
  - intros ->. exists (js "@foo/bar"). split; [|reflexivity].
    apply Hkeys, list_elem_of_here.
Qed.

(** C10. Every element of the set returned by [extractScopes] starts
    with [@], has length at least 2 and contains no slash; so a key
    of a registry mapping that contains a slash is not among them. *)
Theorem extractScopes_shape (lockPath : jsstring)
    (scopes : gset jsstring) (scope : jsstring) :
  extractScopes numFalsy yaml_load fs lockPath = inr scopes →
  scope ∈ scopes →
  (head scope = Some ch_at ∧ (2 ≤ length scope)%nat ∧ ch_slash ∉ scope)
  ∧ ∀ (registryMap : gmap jsstring jsstring) key,
      is_Some (registryMap !! key) → ch_slash ∈ key → key ≠ scope.
Proof.
  intros Hex Hin.
  assert (head scope = Some ch_at ∧ (2 ≤ length scope)%nat
          ∧ ch_slash ∉ scope) as Hshape.
  { destruct (fs !! lockPath) as [[content|reason]|] eqn:Hfs;
      [|by rewrite (extractScopes_unreadable _ _ Hfs) in Hex
       |by rewrite (extractScopes_missing _ Hfs) in Hex].
    destruct (yaml_load content) as [msg|lockData] eqn:Hload;
      [by rewrite (extractScopes_file _ _ Hfs), Hload in Hex|].
    destruct (extractScopes_loaded _ _ _ Hfs Hload) as (scopes' & Hex' & Hs).
    rewrite Hex' in Hex. injection Hex as ->.
    apply Hs in Hin as (pkg & _ & Hm). by eapply scopeMatch_shape. }
  split; [done|]. intros registryMap key _ Hslash ->.
  by destruct Hshape as (_ & _ & Hno).
Qed.

(** Packages that are present but not a mapping yield no key with a
    scope prefix. *)
Lemma packageKeys_non_mapping props packages :
  ownProp (js "packages") props = Some packages →
  (∀ ps, packages ≠ VObj ps) →
  ∃ keys, packageKeys numFalsy (VObj props) = inr keys
          ∧ Forall (fun k => scopeMatch k = None) keys.
Proof.
  intros Hprop Hnot. unfold packageKeys, orEmptyObject. simpl.
  rewrite Hprop. simpl.
  destruct packages as [| |b|n|s|items|ps|indices]; simpl.
  1,2: by exists [].
  - destruct b; by exists [].
  - destruct (numFalsy n); by exists [].
  - destruct s as [|c s]; [by exists []|].
    eexists. split; [done|]. apply indexKeys_no_scope.
  - eexists. split; [done|]. apply indexKeys_no_scope.
  - by destruct (Hnot ps).
  - eexists. split; [done|]. apply indexKeys_no_scope.
Qed.

(** C5. For a lockfile document whose top-level [packages] is present
    but not a mapping, [extractScopes] returns the empty set and
    [extractPackagesByRegistry] the empty classification; neither
    fails. *)
Theorem non_mapping_packages_yield_nothing
    (lockPath content : jsstring) (props : list (jsstring * jsval Num))
    (packages : jsval Num)
    (registryMap : gmap jsstring jsstring) (defaultRegistry : jsstring) :
  fs !! lockPath = Some (File content) →
  yaml_load content = inr (VObj props) →
  ownProp (js "packages") props = Some packages →
  (∀ ps, packages ≠ VObj ps) →
  extractScopes numFalsy yaml_load fs lockPath = inr ∅
  ∧ extractPackagesByRegistry numFalsy yaml_load fs lockPath
      registryMap defaultRegistry = inr ∅.
Proof.
  intros Hfs Hload Hprop Hnot.
  destruct (packageKeys_non_mapping _ _ Hprop Hnot) as (keys & Hk & Hno).
  rewrite (extractScopes_file _ _ Hfs),
    (extractPackagesByRegistry_file _ _ _ _ Hfs), Hload.
  simpl. rewrite Hk. simpl. split.
  - by rewrite foldl_addScope_no_scope.
  - by rewrite foldl_addPackage_no_scope.
Qed.

(** C2, as the code has it. Let no registry of the mapping name a
    property inherited from [Object.prototype]. Then
    [extractPackagesByRegistry] succeeds, and a package key is in the
    list of registry [R] if and only if it is a key of the document,
    has a scope prefix the mapping sends to [R], and [R] is neither
    the empty string nor the default registry; each list holds its
    keys in the order of the source document, and no list is
    empty. *)
Theorem extractPackagesByRegistry_classifies
    (lockPath content : jsstring) (lockData : jsval Num)
    (registryMap : gmap jsstring jsstring) (defaultRegistry : jsstring) :
  fs !! lockPath = Some (File content) →
  yaml_load content = inr lockData →
  (∀ scope R, registryMap !! scope = Some R → R ∉ objectPrototypeKeys) →
  ∃ result,
    extractPackagesByRegistry numFalsy yaml_load fs lockPath
      registryMap defaultRegistry = inr result
    ∧ ∀ R,
        let source :=
          documentKeys (orEmptyObject numFalsy (getPackages lockData)) in
        let listed := default [] (result !! R) in
        (∀ pkg, pkg ∈ listed ↔
                pkg ∈ source
                ∧ ∃ scope, scopeMatch pkg = Some scope
                           ∧ registryMap !! scope = Some R
                           ∧ R ≠ [] ∧ R ≠ defaultRegistry)
        ∧ listed = List.filter (fun pkg => bool_decide (pkg ∈ listed)) source
        ∧ result !! R ≠ Some [].
Proof.
  intros Hfs Hload Hplain.
  rewrite (extractPackagesByRegistry_file _ _ _ _ Hfs), Hload. simpl.
  destruct (packageKeys_total numFalsy lockData) as (keys & -> & _ & Hkeys).
  simpl.
  destruct (foldl_addPackage_classified registryMap defaultRegistry
              Hplain keys) as (m & -> & Hm).
  exists m. split; [done|]. intros R.
  set (source :=
         documentKeys (orEmptyObject numFalsy (getPackages lockData))).
  set (listed := default [] (m !! R)).
  assert (listed = expected registryMap defaultRegistry keys R) as Hl.
  { unfold listed. rewrite (Hm R).
    by destruct (expected registryMap defaultRegistry keys R). }
  assert (expected registryMap defaultRegistry keys R
          = if bool_decide (R ≠ []) && bool_decide (R ≠ defaultRegistry)
            then List.filter (mapsTo registryMap R) source else []) as He.
  { unfold expected. destruct (_ && _); [|done].
    apply Hkeys. by intros k (scope & Hs & _)%mapsTo_true. }
  clearbody listed. subst listed. rewrite He. clear He.
  split; [|split].
  - intros pkg.
    destruct (bool_decide (R ≠ []) && bool_decide (R ≠ defaultRegistry))
      eqn:Hgood.
    + apply andb_prop in Hgood as [H1%bool_decide_eq_true
                                    H2%bool_decide_eq_true].
      rewrite list_elem_of_In, filter_In, <- list_elem_of_In, mapsTo_true.
      naive_solver.
    + rewrite elem_of_nil. split; [done|].
      intros (_ & scope & _ & _ & H1 & H2).
      by rewrite !bool_decide_eq_true_2 in Hgood.
  - destruct (bool_decide (R ≠ []) && bool_decide (R ≠ defaultRegistry)).
    + symmetry. apply filter_members.
    + clearbody source. induction source as [|k source IH]; [done|].
      simpl. exact IH.
  - rewrite (Hm R).
    by destruct (expected registryMap defaultRegistry keys R).
Qed.
End Scanner.

Lemma extractScopes_foo_witness :
  extractScopes Examples.isZero Examples.load Examples.fs Examples.lockfile
  = inr {[ js "@foo" ]}.
Proof.
  apply (extractScopes_foo Examples.isZero Examples.load Examples.fs
           Examples.lockfile Examples.lockText Examples.lockData
           [(js "@foo/bar", VObj []); (js "baz", VObj []);
            (js "@foo/qux", VObj [])]).
  - reflexivity.
  - reflexivity.
  - reflexivity.
  - intros k. reflexivity.
Defined.

Lemma extractScopes_shape_witness :
  (head (js "@foo") = Some ch_at ∧ (2 ≤ length (js "@foo"))%nat
   ∧ ch_slash ∉ js "@foo")
  ∧ ∀ (registryMap : gmap jsstring jsstring) key,
      is_Some (registryMap !! key) → ch_slash ∈ key → key ≠ js "@foo".
Proof.
  apply (extractScopes_shape Examples.isZero Examples.load Examples.fs
           Examples.lockfile {[ js "@foo" ]}).
  - vm_compute. reflexivity.
  - apply elem_of_singleton. reflexivity.
Defined.

Lemma non_mapping_packages_yield_nothing_witness :
  extractScopes Examples.isZero Examples.load Examples.fs
    (js "/work/list/pnpm-lock.yaml") = inr ∅
  ∧ extractPackagesByRegistry Examples.isZero Examples.load Examples.fs
      (js "/work/list/pnpm-lock.yaml")
      {[ js "@foo" := js "https://custom.example/" ]} npmjs = inr ∅.
Proof.
  apply (non_mapping_packages_yield_nothing Examples.isZero Examples.load
           Examples.fs (js "/work/list/pnpm-lock.yaml") Examples.listText
           [(js "packages", VArr [VStr (js "@foo/bar"); VStr (js "baz")])]
           (VArr [VStr (js "@foo/bar"); VStr (js "baz")])).
  - reflexivity.
  - reflexivity.
  - reflexivity.
  - intros ps. discriminate.
Defined.

Lemma extractPackagesByRegistry_classifies_witness :
  ∃ result,
    extractPackagesByRegistry Examples.isZero Examples.load Examples.fs
      Examples.lockfile {[ js "@foo" := js "https://custom.example/" ]}
      npmjs = inr result
    ∧ result !! js "https://custom.example/"
      = Some [js "@foo/bar"; js "@foo/qux"].
Proof.
  destruct (extractPackagesByRegistry_classifies Examples.isZero
              Examples.load Examples.fs Examples.lockfile Examples.lockText
              Examples.lockData
              {[ js "@foo" := js "https://custom.example/" ]} npmjs)
    as (result & Hresult & _).
  - reflexivity.
  - reflexivity.
  - intros scope R [_ <-]%lookup_singleton_Some Hin.
    vm_compute in Hin.
    repeat (apply elem_of_cons in Hin as [Hin|Hin]; [discriminate Hin|]).
    by apply elem_of_nil in Hin.
  - exists result. split; [exact Hresult|].
    vm_compute in Hresult. injection Hresult as <-. reflexivity.
Defined.

(** C2 as stated fails: a scope mapped to the empty string differs from
    the default registry, and yet its packages are not listed. *)
Lemma extractPackagesByRegistry_drops_empty_registry :
  ¬ (∀ (fs : gmap jsstring node) (lockPath content : jsstring)
       (lockData : jsval N) (registryMap : gmap jsstring jsstring)
       (defaultRegistry : jsstring)
       (result : gmap jsstring (list jsstring)) (pkg R : jsstring),
       fs !! lockPath = Some (File content) →
       Examples.load content = inr lockData →
       extractPackagesByRegistry Examples.isZero Examples.load fs lockPath
         registryMap defaultRegistry = inr result →
       (pkg ∈ default [] (result !! R) ↔
        pkg ∈ documentKeys
                (orEmptyObject Examples.isZero (getPackages lockData))
        ∧ ∃ scope, scopeMatch pkg = Some scope
                   ∧ registryMap !! scope = Some R
                   ∧ R ≠ defaultRegistry)).
Proof.
  intros H.
  specialize (H Examples.fs Examples.lockfile Examples.lockText
                Examples.lockData {[ js "@foo" := [] ]} npmjs ∅
                (js "@foo/bar") []).
  destruct H as [_ H]; [reflexivity..|].
  assert (js "@foo/bar" ∈ default [] ((∅ : gmap jsstring (list jsstring)) !! []))
    as Hin.
  { apply H. split; [apply list_elem_of_here|].
    exists (js "@foo"). split; [reflexivity|]. split; [reflexivity|].
    discriminate. }
  rewrite lookup_empty in Hin. by apply elem_of_nil in Hin.
Qed.

(** C4 at the failing input. The project's [.npmrc] maps [@foo] to the
    registry named [constructor]; the lockfile exists and loads, and
    [extractScopes] succeeds on it; [extractPackagesByRegistry] fails with
    the error it keeps for a lockfile that cannot be parsed. *)
Theorem extractPackagesByRegistry_parse_error_without_parse_failure :
  let lockPath := js "/work/odd/pnpm-lock.yaml" in
  let parsed :=
    {| registryMap := {[ js "@foo" := js "constructor" ]};
       defaultRegistry := js "https://registry.npmjs.org/" |} in
  (parseNpmrc Examples.fs 1%positive
     {[ 1%positive := [js "/work/odd/.npmrc"] ]}).1 = inr parsed
  ∧ Examples.fs !! lockPath = Some (File Examples.lockText)
  ∧ Examples.load Examples.lockText = inr Examples.lockData
  ∧ extractScopes Examples.isZero Examples.load Examples.fs lockPath
    = inr {[ js "@foo" ]}
  ∧ extractPackagesByRegistry Examples.isZero Examples.load Examples.fs
      lockPath (registryMap parsed) (defaultRegistry parsed)
    = inl (LockfileParseError
             (js "packagesByRegistry[registry].push is not a function")).
Proof.
  repeat split; vm_compute; reflexivity.
Qed.

End LockfileClaims.

(** ** The sample project, run *)

Module Scenarios.

(** A line that is a comment from its first character declares nothing. *)
Example commented_line_declares_nothing :
  classify (js "# @foo:registry = https://x/") = NoDecl.
Proof. reflexivity. Qed.

(** A declaration whose value is only a comment records the empty
    string. *)
Example blank_value_is_recorded :
  classify (js "@foo:registry = # to be filled in") = ScopeDecl (js "@foo") [].
Proof. reflexivity. Qed.

Example missing_lockfile :
  extractScopes Examples.isZero Examples.load Examples.fs
    (js "/work/none/pnpm-lock.yaml")
  = inl (LockfileNotFound (js "/work/none/pnpm-lock.yaml")).
Proof. reflexivity. Qed.

Example unparsable_lockfile :
  extractScopes Examples.isZero Examples.load Examples.fs
    (js "/work/bad/pnpm-lock.yaml")
  = inl (LockfileParseError (js "YAMLException")).
Proof. reflexivity. Qed.

(** [Object.keys] lists array indices first; the scoped keys keep their
    order. *)
Example keys_in_enumeration_order :
  ownKeys [js "@foo/bar"; js "10"; js "baz"; js "2"; js "@foo/qux"]
  = [js "2"; js "10"; js "@foo/bar"; js "baz"; js "@foo/qux"].
Proof. reflexivity. Qed.

Example keys_of_a_list : indexKeys 11
  = List.map js ["0"; "1"; "2"; "3"; "4"; "5"; "6"; "7"; "8"; "9"; "10"]%string.
Proof. reflexivity. Qed.

(** A directory exists, and reading it throws: the scanner reports it as
    a lockfile that cannot be parsed. *)
Example directory_as_lockfile :
  extractScopes Examples.isZero Examples.load Examples.fs
    (js "/work/app/node_modules")
  = inl (LockfileParseError
           (js "EISDIR: illegal operation on a directory, read")).
Proof. reflexivity. Qed.

(** A directory given as the lockfile: it exists, so [main] enters its
    [try] block, and the error of the scanner is what it reports. *)
Example directory_as_argument :
  main Examples.isZero Examples.load Examples.home joinPath dirnamePath
    Examples.isAbsolutePath Examples.resolvePath (js "/work") Examples.fs
    (Some (js "/work/app/node_modules"))
  = Failed (js "Failed to parse lockfile: EISDIR: illegal operation on a directory, read").
Proof. vm_compute. reflexivity. Qed.

(** A directory named [.npmrc] next to the lockfile: [parseNpmrc] throws
    the error of [readFileSync], and [main] reports its message as it is. *)
Example directory_as_npmrc :
  (parseNpmrc Examples.fs 1%positive
     {[ 1%positive := [js "/work/locked/.npmrc"; Examples.userRc] ]}).1
  = inl (js "EISDIR: illegal operation on a directory, read")
  ∧ main Examples.isZero Examples.load Examples.home joinPath dirnamePath
      Examples.isAbsolutePath Examples.resolvePath (js "/work") Examples.fs
      (Some (js "locked/pnpm-lock.yaml"))
    = Failed (js "EISDIR: illegal operation on a directory, read").
Proof. split; vm_compute; reflexivity. Qed.

(** The whole run on the scenario of two scopes: the user level sets the
    default registry to [R0], the project level maps [@a] to [R1] and [@b]
    to [R0]; one package is on a custom registry.  The array of config
    files reaches [displaySummary] reversed. *)
Example scenario_run :
  analyse Examples.isZero Examples.load (js "/home/ci") joinPath dirnamePath
    Examples.fs (js "/work/scenario/pnpm-lock.yaml")
  = inr {| shownScopes := {[ js "@a"; js "@b" ]};
           shownRegistryMap := {[ js "@a" := js "R1"; js "@b" := js "R0" ]};
           shownPackagesByRegistry := {[ js "R1" := [js "@a/x"] ]};
           shownDefaultRegistry := js "R0";
           shownNpmrcFiles :=
             [js "/home/ci/.npmrc"; js "/work/scenario/.npmrc"] |}.
Proof. vm_compute. reflexivity. Qed.

(** On the project whose [.npmrc] leaves the value of [@foo] blank, the
    packages of [@foo] are not listed. *)
Example blank_registry_run :
  analyse Examples.isZero Examples.load Examples.home joinPath dirnamePath
    Examples.fs (js "/work/blank/pnpm-lock.yaml")
  = inr {| shownScopes := {[ js "@foo" ]};
           shownRegistryMap :=
             {[ js "@foo" := [];
                js "@a" := js "https://user.example/a/";
                js "@b" := js "https://user.example/b/" ]};
           shownPackagesByRegistry := ∅;
           shownDefaultRegistry := js "https://mirror.example/";
           shownNpmrcFiles :=
             [js "/home/dev/.npmrc"; js "/work/blank/.npmrc"] |}.
Proof. vm_compute. reflexivity. Qed.

End Scenarios.

(** * Further properties of the code *)

(** ** [trim] and [split] *)

Module StringFacts.

Lemma dropWhile_app_stop (p : char → bool) (a b : jsstring) (x : char) :
  p x = false → dropWhile p (a ++ x :: b) = dropWhile p a ++ x :: b.
Proof.
  intros Hx. induction a as [|c a IH]; simpl.
  - by rewrite Hx.
  - by destruct (p c).
Qed.

Lemma dropWhile_idem (p : char → bool) (s : jsstring) :
  dropWhile p (dropWhile p s) = dropWhile p s.
Proof.
  induction s as [|c s IH]; simpl; [done|].
  destruct (p c) eqn:Hc; [done|]. simpl. by rewrite Hc.
Qed.

Lemma dropWhile_head (p : char → bool) (s : jsstring) (c : char) :
  head (dropWhile p s) = Some c → p c = false.
Proof.
  induction s as [|x s IH]; simpl; [done|].
  destruct (p x) eqn:Hx; [done|]. simpl. by intros [= <-].
Qed.

Lemma dropWhile_fixed (p : char → bool) (s : jsstring) :
  match s with [] => True | c :: _ => p c = false end → dropWhile p s = s.
Proof. destruct s as [|c s]; simpl; [done|]. by intros ->. Qed.

Lemma elem_of_dropWhile (p : char → bool) (s : jsstring) (x : char) :
  x ∈ dropWhile p s → x ∈ s.
Proof.
  induction s as [|c s IH]; simpl; [done|].
  destruct (p c); [|done]. intros Hx. apply elem_of_cons. right. by apply IH.
Qed.

Lemma elem_of_rev_iff (s : jsstring) (x : char) : x ∈ rev s ↔ x ∈ s.
Proof. by rewrite !list_elem_of_In, <- in_rev. Qed.

(** Trimming only removes characters. *)
Lemma elem_of_trim (s : jsstring) (x : char) : x ∈ trim s → x ∈ s.
Proof.
  unfold trim, trimEnd, trimStart.
  intros Hx. apply (proj1 (elem_of_rev_iff _ _)) in Hx.
  apply elem_of_dropWhile in Hx. apply (proj1 (elem_of_rev_iff _ _)) in Hx.
  by apply elem_of_dropWhile in Hx.
Qed.

(** A character that is no whitespace shields what is before it from
    [trimEnd], and what is after it from [trimStart]. *)
Lemma trimStart_app_stop (a b : jsstring) (x : char) :
  isSpace x = false → trimStart (a ++ x :: b) = trimStart a ++ x :: b.
Proof. apply dropWhile_app_stop. Qed.

Lemma trimEnd_app_stop (a b : jsstring) (x : char) :
  isSpace x = false → trimEnd (a ++ x :: b) = a ++ x :: trimEnd b.
Proof.
  intros Hx. unfold trimEnd.
  rewrite rev_app_distr. simpl. rewrite <- app_assoc. simpl.
  rewrite dropWhile_app_stop by done.
  rewrite rev_app_distr. simpl. rewrite rev_involutive.
  by rewrite <- app_assoc.
Qed.

Lemma trim_app_stop (a b : jsstring) (x : char) :
  isSpace x = false → trim (a ++ x :: b) = trimStart a ++ x :: trimEnd b.
Proof.
  intros Hx. unfold trim.
  by rewrite trimStart_app_stop, trimEnd_app_stop.
Qed.

(** The result of [trim] is empty or has no whitespace at either end. *)
Lemma trim_cases (s : jsstring) :
  trim s = []
  ∨ ∃ x t, trim s = x :: t ∧ isSpace x = false
           ∧ ∀ y, last (x :: t) = Some y → isSpace y = false.
Proof.
  unfold trim. destruct (trimStart s) as [|x t] eqn:Ht; [by left|].
  right. assert (isSpace x = false) as Hx.
  { apply (dropWhile_head isSpace s). unfold trimStart in Ht. by rewrite Ht. }
  pose proof (trimEnd_app_stop [] t x Hx) as He. simpl in He. rewrite He.
  exists x, (trimEnd t). split; [done|]. split; [done|].
  intros y Hy. unfold trimEnd in Hy.
  destruct (dropWhile isSpace (rev t)) as [|z u] eqn:Hu.
  - simpl in Hy. by injection Hy as <-.
  - assert (isSpace z = false) as Hz.
    { apply (dropWhile_head isSpace (rev t)). by rewrite Hu. }
    simpl in Hy. rewrite last_cons, last_snoc in Hy. by injection Hy as <-.
Qed.

Lemma trimEnd_fixed (s : jsstring) :
  (∀ y, last s = Some y → isSpace y = false) → trimEnd s = s.
Proof.
  intros Hlast. unfold trimEnd. rewrite dropWhile_fixed.
  - apply rev_involutive.
  - destruct (rev s) as [|y u] eqn:Hr; [done|].
    apply Hlast. rewrite <- (rev_involutive s), Hr. simpl. apply last_snoc.
Qed.

(** A string without whitespace at its ends is left alone. *)
Lemma trim_fixed (s : jsstring) :
  (∀ x, head s = Some x → isSpace x = false) →
  (∀ y, last s = Some y → isSpace y = false) →
  trim s = s.
Proof.
  intros Hhead Hlast. unfold trim, trimStart. rewrite dropWhile_fixed.
  - by apply trimEnd_fixed.
  - destruct s as [|c s]; [done|]. by apply Hhead.
Qed.

Lemma trim_idem (s : jsstring) : trim (trim s) = trim s.
Proof.
  destruct (trim_cases s) as [->|(x & t & -> & Hx & Hlast)]; [done|].
  apply trim_fixed; [|done]. by intros ? [= <-].
Qed.

Lemma split_nonempty (sep : char) (s : jsstring) : split sep s ≠ [].
Proof.
  destruct s as [|c s]; simpl; [done|].
  destruct (c =? sep); [done|]. by destruct (split sep s).
Qed.

Lemma splitFirst_cons (sep c : char) (s : jsstring) :
  splitFirst sep (c :: s)
  = if c =? sep then [] else c :: splitFirst sep s.
Proof.
  unfold splitFirst. simpl. destruct (c =? sep); [done|].
  pose proof (split_nonempty sep s). by destruct (split sep s).
Qed.

(** The piece before the first separator has no separator in it, and does
    not depend on what follows that separator. *)
Lemma splitFirst_no_sep (sep : char) (s : jsstring) :
  sep ∉ splitFirst sep s.
Proof.
  induction s as [|c s IH].
  - intros Hin. by apply elem_of_nil in Hin.
  - rewrite splitFirst_cons. destruct (c =? sep) eqn:Hc.
    + intros Hin. by apply elem_of_nil in Hin.
    + apply N.eqb_neq in Hc. intros [->|Hin]%elem_of_cons; [done|].
      by apply IH.
Qed.

Lemma splitFirst_app_sep (sep : char) (s t : jsstring) :
  splitFirst sep (s ++ sep :: t) = splitFirst sep s.
Proof.
  induction s as [|c s IH]; simpl.
  - rewrite splitFirst_cons. by rewrite N.eqb_refl.
  - rewrite !splitFirst_cons. destruct (c =? sep); [done|]. by rewrite IH.
Qed.

Lemma splitFirst_fixed (sep : char) (s : jsstring) :
  sep ∉ s → splitFirst sep s = s.
Proof.
  induction s as [|c s IH]; [done|].
  intros [Hc Hs]%not_elem_of_cons. rewrite splitFirst_cons.
  apply not_eq_sym, N.eqb_neq in Hc. rewrite Hc. by rewrite IH.
Qed.

Lemma elem_of_splitFirst (sep : char) (s : jsstring) (x : char) :
  x ∈ splitFirst sep s → x ∈ s.
Proof.
  induction s as [|c s IH]; [done|].
  rewrite splitFirst_cons. destruct (c =? sep).
  - intros Hin. by apply elem_of_nil in Hin.
  - rewrite !elem_of_cons. intros [->|Hin]; [by left|right; by apply IH].
Qed.

End StringFacts.

(** ** More on the ConfigResolver *)

Module NpmrcProperties.
Import StringFacts NpmrcFacts.

(** The cleaned line is cut at the first [#]: nothing after it is read. *)
Lemma cleanLine_comment (a b : jsstring) :
  cleanLine (a ++ ch_hash :: b) = splitFirst ch_hash (trimStart a).
Proof.
  unfold cleanLine. rewrite trim_app_stop by done.
  apply splitFirst_app_sep.
Qed.

(** X1. Whatever follows the first [#] of a line is ignored: two lines that
    agree up to their first [#] declare the same thing and have the same
    effect on the configuration under construction. *)
Theorem comment_text_is_ignored (st : config) (a b b' : jsstring) :
  classify (a ++ ch_hash :: b) = classify (a ++ ch_hash :: b')
  ∧ applyLine st (a ++ ch_hash :: b) = applyLine st (a ++ ch_hash :: b').
Proof.
  assert (classify (a ++ ch_hash :: b) = classify (a ++ ch_hash :: b')) as Hc.
  { unfold classify. by rewrite !cleanLine_comment. }
  split; [done|]. unfold applyLine. by rewrite Hc.
Qed.

(** X2. A line that is blank, or whose first character after the leading
    whitespace is [#], leaves the configuration as it is. *)
Theorem blank_and_comment_lines_change_nothing (st : config) (line : jsstring) :
  trim line = [] ∨ head (trim line) = Some ch_hash →
  applyLine st line = st.
Proof.
  intros Hline. unfold applyLine, classify, cleanLine.
  destruct Hline as [->|Hhash]; [done|].
  destruct (trim line) as [|c t]; [done|]. injection Hhash as ->.
  by rewrite splitFirst_cons.
Qed.

Lemma blank_and_comment_lines_change_nothing_witness :
  applyLine initial (js "   # @foo:registry = https://x/  ") = initial
  ∧ applyLine initial (js "  	 ") = initial.
Proof.
  split.
  - apply blank_and_comment_lines_change_nothing. right. reflexivity.
  - apply blank_and_comment_lines_change_nothing. left. reflexivity.
Defined.

Lemma applyFiles_existing fs ps st :
  applyFiles fs st (List.filter (existsSync fs) ps) = applyFiles fs st ps.
Proof.
  revert st; induction ps as [|p ps IH]; intros st; simpl; [done|].
  destruct (fs !! p) as [n|] eqn:Hp.
  - rewrite (existsSync_true _ _ _ Hp). simpl.
    destruct (applyFile fs st p) as [reason|st']; simpl; [done|]. apply IH.
  - rewrite (existsSync_false _ _ Hp), (applyFile_missing _ _ _ Hp). simpl.
    apply IH.
Qed.

Lemma filter_rev_comm (f : jsstring → bool) (l : list jsstring) :
  List.filter f (rev l) = rev (List.filter f l).
Proof.
  induction l as [|x l IH]; simpl; [done|].
  rewrite List.filter_app, IH. simpl.
  destruct (f x); simpl; [done|by rewrite app_nil_r].
Qed.

(** X3. Paths that do not exist contribute nothing: dropping them from the
    array leaves what [parseNpmrc] returns or throws unchanged, and when no
    path of the array exists it returns the empty mapping with the public
    npm registry as default. *)
Theorem parseNpmrc_ignores_missing_paths
    (fs : gmap jsstring node) (filePaths filePaths' : positive)
    (σ σ' : gmap positive (list jsstring)) (paths : list jsstring) :
  σ !! filePaths = Some paths →
  σ' !! filePaths' = Some (List.filter (existsSync fs) paths) →
  (parseNpmrc fs filePaths σ).1 = (parseNpmrc fs filePaths' σ').1
  ∧ ((∀ p, p ∈ paths → fs !! p = None) →
     (parseNpmrc fs filePaths σ).1
     = inr {| registryMap := ∅;
              defaultRegistry := js "https://registry.npmjs.org/" |}).
Proof.
  intros Hσ Hσ'.
  rewrite (parseNpmrc_unfold _ _ _ _ Hσ), (parseNpmrc_unfold _ _ _ _ Hσ').
  cbn [fst]. rewrite <- filter_rev_comm, applyFiles_existing. split; [done|].
  intros Hnone. rewrite <- applyFiles_existing.
  assert (List.filter (existsSync fs) (rev paths) = []) as ->; [|done].
  rewrite filter_rev_comm.
  assert (List.filter (existsSync fs) paths = []) as ->; [|done].
  clear Hσ Hσ'. induction paths as [|p ps IH]; simpl; [done|].
  rewrite (existsSync_false _ _ (Hnone p (list_elem_of_here _ _))).
  apply IH. intros q Hq. by apply Hnone, list_elem_of_further.
Qed.

Lemma parseNpmrc_ignores_missing_paths_witness :
  (parseNpmrc Examples.fs 1%positive
     {[ 1%positive := [Examples.projectRc; js "/home/nobody/.npmrc"] ]}).1
  = (parseNpmrc Examples.fs 2%positive
       {[ 2%positive := [Examples.projectRc] ]}).1.
Proof.
  refine (proj1 (parseNpmrc_ignores_missing_paths Examples.fs 1%positive
            2%positive _ _ [Examples.projectRc; js "/home/nobody/.npmrc"]
            _ _)); reflexivity.
Defined.

(** X4. Calling [parseNpmrc] a second time on the same array reverses it
    back: the store is as it was before the first call. *)
Theorem parseNpmrc_twice_restores_array
    (fs : gmap jsstring node) (filePaths : positive)
    (σ : gmap positive (list jsstring)) :
  (parseNpmrc fs filePaths (parseNpmrc fs filePaths σ).2).2 = σ.
Proof.
  unfold parseNpmrc. simpl. apply map_eq. intros r.
  destruct (decide (r = filePaths)) as [->|Hne].
  - rewrite !lookup_alter_eq. destruct (σ !! filePaths) as [paths|]; [|done].
    simpl. by rewrite rev_involutive.
  - by rewrite !lookup_alter_ne.
Qed.

(** An invariant of the configuration under construction that every line
    keeps holds of the result. *)
Lemma parseNpmrc_invariant (P : config → Prop) :
  P initial →
  (∀ st line, P st → P (applyLine st line)) →
  ∀ fs filePaths σ parsed,
    (parseNpmrc fs filePaths σ).1 = inr parsed → P parsed.
Proof.
  intros Hinit Hstep fs filePaths σ parsed. unfold parseNpmrc. cbn [fst].
  by apply applyFiles_invariant.
Qed.

(** X5. Every registry of a configuration [parseNpmrc] returns, scoped or
    default, is trimmed: trimming it again changes nothing, so it neither
    starts nor ends with whitespace. *)
Theorem parseNpmrc_values_trimmed
    (fs : gmap jsstring node) (filePaths : positive)
    (σ : gmap positive (list jsstring)) (parsed : config) :
  (parseNpmrc fs filePaths σ).1 = inr parsed →
  (∀ scope registry, registryMap parsed !! scope = Some registry →
                     trim registry = registry)
  ∧ trim (defaultRegistry parsed) = defaultRegistry parsed.
Proof.
  revert fs filePaths σ parsed.
  apply (parseNpmrc_invariant
           (fun st => (∀ scope registry, registryMap st !! scope = Some registry →
                                         trim registry = registry)
                      ∧ trim (defaultRegistry st) = defaultRegistry st)).
  - split; [|reflexivity]. intros scope registry Hl.
    unfold initial in Hl. simpl in Hl. by rewrite lookup_empty in Hl.
  - intros st line [Hmap Hdef]. unfold applyLine.
    destruct (classify line) as [s r|r|] eqn:Hc; simpl; [| |done].
    + apply classify_scope in Hc as (value & _ & ->). split; [|done].
      intros scope registry. destruct (decide (s = scope)) as [->|Hne].
      * rewrite lookup_insert_eq. intros [= <-]. apply trim_idem.
      * rewrite lookup_insert_ne by done. apply Hmap.
    + apply classify_default in Hc as (value & _ & ->). split; [done|].
      apply trim_idem.
Qed.

(** The pieces of a line the two patterns capture. *)
Lemma scopedMatch_pieces s scope value :
  scopedMatch s = Some (scope, value) →
  ∃ ws1 ws2, s = scope ++ js ":registry" ++ ws1 ++ js "=" ++ ws2 ++ value
             ∧ Forall (fun c => isDot c = true) value.
Proof.
  unfold scopedMatch. destruct (run scopedRe s) as [pieces|] eqn:Hrun; [|done].
  run_pieces Hrun. subst. destruct Hpiece5 as [_ Hdot].
  intros [= <- <-]. exists piece2, piece4. split; [|done].
  rewrite Heos by (unfold scopedRe; set_solver).
  cbn [concat]. rewrite !app_nil_r. reflexivity.
Qed.

Lemma defaultMatch_pieces s value :
  defaultMatch s = Some value →
  ∃ ws1 ws2, s = js "registry" ++ ws1 ++ js "=" ++ ws2 ++ value
             ∧ Forall (fun c => isDot c = true) value.
Proof.
  unfold defaultMatch. destruct (run defaultRe s) as [pieces|] eqn:Hrun; [|done].
  run_pieces Hrun. subst. destruct Hpiece3 as [_ Hdot].
  intros [= <-]. exists piece0, piece2. split; [|done].
  rewrite Heos by (unfold defaultRe; set_solver).
  cbn [concat]. rewrite !app_nil_r. reflexivity.
Qed.

Lemma cleanLine_no_hash line : ch_hash ∉ cleanLine line.
Proof. apply splitFirst_no_sep. Qed.

(** X6. No key and no registry of a configuration [parseNpmrc] returns
    contains a [#], and no registry contains a line terminator. *)
Theorem parseNpmrc_no_comment_character
    (fs : gmap jsstring node) (filePaths : positive)
    (σ : gmap positive (list jsstring)) (parsed : config) :
  (parseNpmrc fs filePaths σ).1 = inr parsed →
  (∀ scope registry, registryMap parsed !! scope = Some registry →
     (ch_hash ∉ scope) ∧ (ch_hash ∉ registry)
     ∧ ∀ c, c ∈ registry → isLineTerminator c = false)
  ∧ (ch_hash ∉ defaultRegistry parsed)
  ∧ ∀ c, c ∈ defaultRegistry parsed → isLineTerminator c = false.
Proof.
  revert fs filePaths σ parsed.
  apply (parseNpmrc_invariant
           (fun st =>
              (∀ scope registry, registryMap st !! scope = Some registry →
                 (ch_hash ∉ scope) ∧ (ch_hash ∉ registry)
                 ∧ ∀ c, c ∈ registry → isLineTerminator c = false)
              ∧ (ch_hash ∉ defaultRegistry st)
              ∧ ∀ c, c ∈ defaultRegistry st → isLineTerminator c = false)).
  - split; [|split].
    + intros scope registry Hl.
      unfold initial in Hl. simpl in Hl. by rewrite lookup_empty in Hl.
    + by vm_compute; intros Hin; repeat (apply elem_of_cons in Hin as [Hin|Hin];
        [discriminate Hin|]); apply elem_of_nil in Hin.
    + intros c Hin. vm_compute in Hin.
      repeat (apply elem_of_cons in Hin as [->|Hin]; [reflexivity|]).
      by apply elem_of_nil in Hin.
  - intros st line (Hmap & Hdef & Hdef'). unfold applyLine.
    destruct (classify line) as [s r|r|] eqn:Hc; simpl; [| |done].
    + apply classify_scope in Hc as (value & Hm & ->).
      pose proof (cleanLine_no_hash line) as Hno.
      apply scopedMatch_pieces in Hm as (ws1 & ws2 & Hline & Hdot).
      rewrite Hline in Hno. split; [|done].
      intros scope registry. destruct (decide (s = scope)) as [->|Hne].
      * rewrite lookup_insert_eq. intros [= <-]. split; [|split].
        -- intros Hin. apply Hno. apply elem_of_app. by left.
        -- intros Hin%elem_of_trim. apply Hno.
           rewrite !elem_of_app. by repeat right.
        -- intros c Hin%elem_of_trim. rewrite Forall_forall in Hdot.
           apply Hdot in Hin. unfold isDot in Hin.
           by apply negb_true_iff in Hin.
      * rewrite lookup_insert_ne by done. apply Hmap.
    + apply classify_default in Hc as (value & Hm & ->).
      pose proof (cleanLine_no_hash line) as Hno.
      apply defaultMatch_pieces in Hm as (ws1 & ws2 & Hline & Hdot).
      rewrite Hline in Hno. split; [done|]. split.
      * intros Hin%elem_of_trim. apply Hno.
        rewrite !elem_of_app. by repeat right.
      * intros c Hin%elem_of_trim. rewrite Forall_forall in Hdot.
        apply Hdot in Hin. unfold isDot in Hin.
        by apply negb_true_iff in Hin.
Qed.

Lemma parseNpmrc_values_trimmed_witness :
  trim (js "https://project.example/a/") = js "https://project.example/a/".
Proof.
  apply (proj1 (parseNpmrc_values_trimmed Examples.fs 1%positive
                  Examples.store Examples.sampleConfig
                  ltac:(vm_compute; reflexivity)) (js "@a")).
  reflexivity.
Defined.

Lemma parseNpmrc_no_comment_character_witness :
  (ch_hash ∉ js "@a") ∧ (ch_hash ∉ js "https://project.example/a/")
  ∧ ∀ c, c ∈ js "https://project.example/a/" → isLineTerminator c = false.
Proof.
  apply (proj1 (parseNpmrc_no_comment_character Examples.fs 1%positive
                  Examples.store Examples.sampleConfig
                  ltac:(vm_compute; reflexivity)) (js "@a")).
  reflexivity.
Defined.

(** *** Lines that are recognised *)

(** The matcher on a pattern item whose piece is determined: a literal, or
    a greedy class that cannot take the character that follows. *)
Lemma run_lit w p s pieces :
  run p s = Some pieces → run (Lit w :: p) (w ++ s) = Some (w :: pieces).
Proof.
  intros Hrun. simpl. rewrite startsWith_app.
  rewrite skipn_app, Nat.sub_diag, skipn_all. simpl.
  change (drop 0 s) with s. by rewrite Hrun.
Qed.

Lemma run_star cls p more rest pieces :
  Forall (fun c => cls c = true) more →
  match rest with [] => True | c :: _ => cls c = false end →
  run p rest = Some pieces →
  run (Star cls :: p) (more ++ rest) = Some (more :: pieces).
Proof.
  intros Hmore Hrest Hrun. simpl.
  apply (greedy_maximal cls _ [] more rest); [done|done|].
  simpl. by rewrite Hrun.
Qed.

Lemma run_plus cls p c more rest pieces :
  Forall (fun c => cls c = true) (c :: more) →
  match rest with [] => True | c :: _ => cls c = false end →
  run p rest = Some pieces →
  run (Plus cls :: p) ((c :: more) ++ rest) = Some ((c :: more) :: pieces).
Proof.
  intros [Hc Hmore]%Forall_cons Hrest Hrun. simpl. rewrite Hc.
  apply (greedy_maximal cls _ [c] more rest); [done|done|].
  simpl. by rewrite Hrun.
Qed.

Lemma run_plus_eos cls c more :
  Forall (fun c => cls c = true) (c :: more) →
  run [Plus cls; Eos] (c :: more) = Some [c :: more; []].
Proof.
  intros Hall. pose proof (run_plus cls [Eos] c more [] [[]] Hall I eq_refl) as H.
  by rewrite app_nil_r in H.
Qed.

Lemma isSpace_not_hash (ws : jsstring) :
  Forall (fun c => isSpace c = true) ws → ch_hash ∉ ws.
Proof.
  intros Hws Hin. rewrite Forall_forall in Hws. by apply Hws in Hin.
Qed.

Lemma last_app_cons (a b : jsstring) (x : char) :
  last (a ++ x :: b) = last (x :: b).
Proof.
  induction a as [|c a IH]; [done|].
  simpl. destruct (a ++ x :: b) eqn:Heq; [by destruct a|]. by rewrite <- IH.
Qed.

(** X7. A line [@<name>:registry = <value>], with any whitespace around
    the [=], a non-empty name without [:] and [#], and a plain value, is
    read as the declaration of that value for the scope [@<name>]; the
    configuration then maps the scope to the value. *)
Theorem scoped_declaration_is_read
    (st : config) (name ws1 ws2 value : jsstring) :
  name ≠ [] → ch_colon ∉ name → ch_hash ∉ name →
  Forall (fun c => isSpace c = true) ws1 →
  Forall (fun c => isSpace c = true) ws2 →
  plainValue value →
  let line := js "@" ++ name ++ js ":registry" ++ ws1 ++ js "=" ++ ws2 ++ value in
  classify line = ScopeDecl (js "@" ++ name) value
  ∧ registryMap (applyLine st line) !! (js "@" ++ name) = Some value.
Proof.
  intros Hname Hcolon Hhash Hws1 Hws2 (Hne & Hvhash & Hdot & Hhead & Hlast) line.
  assert (classify line = ScopeDecl (js "@" ++ name) value) as Hc.
  { destruct value as [|v value]; [done|].
    assert (isSpace v = false) as Hv by by apply Hhead.
    assert (trim line = line) as Htrim.
    { apply trim_fixed; [by intros ? [= <-]|].
      unfold line. intros y.
      rewrite !app_assoc, last_app_cons. apply Hlast. }
    assert (cleanLine line = line) as Hclean.
    { unfold cleanLine. rewrite Htrim. apply splitFirst_fixed.
      unfold line. rewrite !elem_of_app.
      intros [Hin|[Hin|[Hin|[Hin|[Hin|[Hin|Hin]]]]]]; try done.
      - by vm_compute in Hin; apply list_elem_of_singleton in Hin.
      - vm_compute in Hin.
        repeat (apply elem_of_cons in Hin as [Hin|Hin]; [discriminate Hin|]).
        by apply elem_of_nil in Hin.
      - by apply isSpace_not_hash in Hws1.
      - by vm_compute in Hin; apply list_elem_of_singleton in Hin.
      - by apply isSpace_not_hash in Hws2. }
    rewrite classify_unfold, Hclean.
    assert (run scopedRe line
            = Some [js "@"; name; js ":registry"; ws1; js "="; ws2;
                    v :: value; []]) as Hrun.
    { unfold scopedRe, line. destruct name as [|n name]; [done|].
      apply run_lit, run_plus; [|done|].
      { apply Forall_forall. intros c Hc. unfold isNot.
        apply negb_true_iff, N.eqb_neq. by intros ->. }
      apply run_lit, run_star; [done|done|].
      apply run_lit, run_star; [done|by simpl|].
      by apply run_plus_eos. }
    unfold scopedMatch. rewrite Hrun.
    f_equal. apply trim_fixed; [by intros ? [= <-]|done]. }
  split; [done|]. unfold applyLine. rewrite Hc. simpl. apply lookup_insert_eq.
Qed.

Lemma scoped_declaration_is_read_witness :
  classify (js "@corp:registry = https://npm.corp.example/")
  = ScopeDecl (js "@corp") (js "https://npm.corp.example/")
  ∧ registryMap (applyLine initial (js "@corp:registry = https://npm.corp.example/"))
      !! js "@corp" = Some (js "https://npm.corp.example/").
Proof.
  apply (scoped_declaration_is_read initial (js "corp") (js " ") (js " ")
           (js "https://npm.corp.example/")).
  - discriminate.
  - vm_compute. intros Hin.
    repeat (apply elem_of_cons in Hin as [Hin|Hin]; [discriminate Hin|]).
    by apply elem_of_nil in Hin.
  - vm_compute. intros Hin.
    repeat (apply elem_of_cons in Hin as [Hin|Hin]; [discriminate Hin|]).
    by apply elem_of_nil in Hin.
  - repeat constructor.
  - repeat constructor.
  - split; [discriminate|]. split.
    + vm_compute. intros Hin.
      repeat (apply elem_of_cons in Hin as [Hin|Hin]; [discriminate Hin|]).
      by apply elem_of_nil in Hin.
    + split; [repeat constructor|].
      split; intros ? [= <-]; reflexivity.
Defined.

(** X8. A line [registry = <value>], with any whitespace around the [=]
    and a plain value, is read as the declaration of the default
    registry, which the configuration then holds. *)
Theorem default_declaration_is_read
    (st : config) (ws1 ws2 value : jsstring) :
  Forall (fun c => isSpace c = true) ws1 →
  Forall (fun c => isSpace c = true) ws2 →
  plainValue value →
  let line := js "registry" ++ ws1 ++ js "=" ++ ws2 ++ value in
  classify line = DefaultDecl value
  ∧ defaultRegistry (applyLine st line) = value.
Proof.
  intros Hws1 Hws2 (Hne & Hvhash & Hdot & Hhead & Hlast) line.
  assert (classify line = DefaultDecl value) as Hc.
  { destruct value as [|v value]; [done|].
    assert (isSpace v = false) as Hv by by apply Hhead.
    assert (trim line = line) as Htrim.
    { apply trim_fixed; [by intros ? [= <-]|].
      unfold line. intros y.
      rewrite !app_assoc, last_app_cons. apply Hlast. }
    assert (cleanLine line = line) as Hclean.
    { unfold cleanLine. rewrite Htrim. apply splitFirst_fixed.
      unfold line. rewrite !elem_of_app.
      intros [Hin|[Hin|[Hin|[Hin|Hin]]]]; try done.
      - vm_compute in Hin.
        repeat (apply elem_of_cons in Hin as [Hin|Hin]; [discriminate Hin|]).
        by apply elem_of_nil in Hin.
      - by apply isSpace_not_hash in Hws1.
      - by vm_compute in Hin; apply list_elem_of_singleton in Hin.
      - by apply isSpace_not_hash in Hws2. }
    assert (run defaultRe line
            = Some [js "registry"; ws1; js "="; ws2; v :: value; []]) as Hrun.
    { unfold defaultRe, line.
      apply run_lit, run_star; [done|done|].
      apply run_lit, run_star; [done|by simpl|].
      by apply run_plus_eos. }
    apply classify_default. exists (v :: value). rewrite Hclean.
    unfold defaultMatch. rewrite Hrun. split; [done|].
    symmetry. apply trim_fixed; [by intros ? [= <-]|done]. }
  split; [done|]. unfold applyLine. by rewrite Hc.
Qed.

Lemma default_declaration_is_read_witness :
  classify (js "registry=https://mirror.example/")
  = DefaultDecl (js "https://mirror.example/")
  ∧ defaultRegistry (applyLine initial (js "registry=https://mirror.example/"))
    = js "https://mirror.example/".
Proof.
  apply (default_declaration_is_read initial [] []
           (js "https://mirror.example/")).
  - constructor.
  - constructor.
  - split; [discriminate|]. split.
    + vm_compute. intros Hin.
      repeat (apply elem_of_cons in Hin as [Hin|Hin]; [discriminate Hin|]).
      by apply elem_of_nil in Hin.
    + split; [repeat constructor|].
      split; intros ? [= <-]; reflexivity.
Defined.

(** *** The candidates of [findNpmrcFiles] *)

(** X9. [findNpmrcFiles] returns only paths that exist, each of them the
    user-level candidate or, for a non-empty lockfile path, the
    project-level one; without a lockfile path (null or empty) only the
    user-level candidate is looked at. *)
Theorem findNpmrcFiles_only_existing_candidates
    (homedir : jsstring) (path_join : jsstring → jsstring → jsstring)
    (path_dirname : jsstring → jsstring)
    (fs : gmap jsstring node) (lockfilePath : option jsstring) :
  (∀ p, p ∈ findNpmrcFiles homedir path_join path_dirname fs lockfilePath →
        is_Some (fs !! p)
        ∧ (p = userNpmrc homedir path_join
           ∨ ∃ lock, lockfilePath = Some lock ∧ lock ≠ []
                     ∧ p = projectNpmrc path_join path_dirname lock))
  ∧ (lockfilePath = None ∨ lockfilePath = Some [] →
     findNpmrcFiles homedir path_join path_dirname fs lockfilePath
     = if existsSync fs (userNpmrc homedir path_join)
       then [userNpmrc homedir path_join] else []).
Proof.
  split.
  - intros p Hin. unfold findNpmrcFiles in Hin.
    apply list_elem_of_In, filter_In in Hin as [Hin Hex].
    split; [by apply bool_decide_eq_true in Hex|].
    apply list_elem_of_In in Hin.
    destruct lockfilePath as [[|c lock]|].
    + apply list_elem_of_singleton in Hin. by left.
    + apply elem_of_cons in Hin as [->|Hin%list_elem_of_singleton].
      * right. by exists (c :: lock).
      * by left.
    + apply list_elem_of_singleton in Hin. by left.
  - by intros [->| ->].
Qed.

Lemma findNpmrcFiles_only_existing_candidates_witness :
  findNpmrcFiles Examples.home joinPath dirnamePath Examples.fs None
  = [Examples.userRc].
Proof.
  refine (proj2 (findNpmrcFiles_only_existing_candidates Examples.home joinPath
                   dirnamePath Examples.fs None) _).
  by left.
Defined.

(** *** The same file read twice *)

Lemma config_eq (st st' : config) :
  registryMap st = registryMap st' → defaultRegistry st = defaultRegistry st' →
  st = st'.
Proof. destruct st, st'. simpl. by intros -> ->. Qed.

(** Either no line is about [scope], or one of them is the last. *)
Lemma scope_lines_cases (ls : list jsstring) (scope : jsstring) :
  (∀ l r, l ∈ ls → ¬ scopeLine l scope r)
  ∨ ∃ before line after r,
      ls = before ++ line :: after ∧ scopeLine line scope r
      ∧ ∀ l r', l ∈ after → ¬ scopeLine l scope r'.
Proof.
  induction ls as [|l ls IH] using rev_ind.
  - left. intros l r Hin. by apply elem_of_nil in Hin.
  - destruct (classify l) as [s r|r|] eqn:Hc.
    1: destruct (decide (s = scope)) as [->|Hne].
    1: { right. exists ls, l, [], r. split; [done|].
         split; [by apply classify_scope|].
         intros l' r' Hin. by apply elem_of_nil in Hin. }
    all: assert (∀ r', ¬ scopeLine l scope r') as Hno
      by (intros r' Hl%classify_scope; congruence).
    all: destruct IH as [IH|(before & line & after & r0 & -> & Hline & Hafter)];
      [left; intros l' r' [Hin|Hin%list_elem_of_singleton]%elem_of_app;
         [by apply IH|subst; apply Hno]
      |right; exists before, line, (after ++ [l]), r0;
         split; [by rewrite <- app_assoc|]; split; [done|];
         intros l' r' [Hin|Hin%list_elem_of_singleton]%elem_of_app;
         [by apply Hafter|subst; apply Hno]].
Qed.

Lemma default_lines_cases (ls : list jsstring) :
  (∀ l r, l ∈ ls → ¬ defaultLine l r)
  ∨ ∃ before line after r,
      ls = before ++ line :: after ∧ defaultLine line r
      ∧ ∀ l r', l ∈ after → ¬ defaultLine l r'.
Proof.
  induction ls as [|l ls IH] using rev_ind.
  - left. intros l r Hin. by apply elem_of_nil in Hin.
  - destruct (classify l) as [s r|r|] eqn:Hc.
    2: { right. exists ls, l, [], r. split; [done|].
         split; [by apply classify_default|].
         intros l' r' Hin. by apply elem_of_nil in Hin. }
    all: assert (∀ r', ¬ defaultLine l r') as Hno
      by (intros r' Hl%classify_default; congruence).
    all: destruct IH as [IH|(before & line & after & r0 & -> & Hline & Hafter)];
      [left; intros l' r' [Hin|Hin%list_elem_of_singleton]%elem_of_app;
         [by apply IH|subst; apply Hno]
      |right; exists before, line, (after ++ [l]), r0;
         split; [by rewrite <- app_assoc|]; split; [done|];
         intros l' r' [Hin|Hin%list_elem_of_singleton]%elem_of_app;
         [by apply Hafter|subst; apply Hno]].
Qed.

Lemma applyLines_idem (ls : list jsstring) (st : config) :
  foldl applyLine (foldl applyLine st ls) ls = foldl applyLine st ls.
Proof.
  apply config_eq.
  - apply map_eq. intros scope.
    destruct (scope_lines_cases ls scope)
      as [Hno|(before & line & after & r & -> & Hline & Hafter)].
    + by rewrite !applyLines_no_scope.
    + by rewrite !(applyLines_last_scope _ _ _ _ _ _ Hline Hafter).
  - destruct (default_lines_cases ls)
      as [Hno|(before & line & after & r & -> & Hline & Hafter)].
    + by rewrite !applyLines_no_default.
    + by rewrite !(applyLines_last_default _ _ _ _ _ Hline Hafter).
Qed.

(** X10. Reading the same path twice in a row gives what reading it once
    gives, value or error, as happens when the lockfile sits in the home
    directory and [findNpmrcFiles] returns the path of the one [.npmrc]
    twice. *)
Theorem parseNpmrc_same_file_twice
    (fs : gmap jsstring node) (filePaths filePaths' : positive)
    (σ σ' : gmap positive (list jsstring)) (p : jsstring) :
  σ !! filePaths = Some [p; p] →
  σ' !! filePaths' = Some [p] →
  (parseNpmrc fs filePaths σ).1 = (parseNpmrc fs filePaths' σ').1.
Proof.
  intros Hσ Hσ'.
  rewrite (parseNpmrc_unfold _ _ _ _ Hσ), (parseNpmrc_unfold _ _ _ _ Hσ').
  cbn [rev app applyFiles fst].
  destruct (fs !! p) as [[content|reason]|] eqn:Hp.
  - rewrite !(applyFile_file _ _ _ _ Hp). cbn [bind].
    rewrite (applyFile_file _ _ _ _ Hp). cbn [bind]. f_equal.
    apply applyLines_idem.
  - by rewrite !(applyFile_unreadable _ _ _ _ Hp).
  - rewrite !(applyFile_missing _ _ _ Hp). cbn [bind].
    by rewrite (applyFile_missing _ _ _ Hp).
Qed.

Lemma parseNpmrc_same_file_twice_witness :
  (parseNpmrc Examples.fs 1%positive
     {[ 1%positive := [Examples.userRc; Examples.userRc] ]}).1
  = (parseNpmrc Examples.fs 1%positive {[ 1%positive := [Examples.userRc] ]}).1.
Proof.
  apply (parseNpmrc_same_file_twice Examples.fs 1%positive 1%positive
           _ _ Examples.userRc); reflexivity.
Defined.

(** *** Paths that cannot be read *)

Lemma applyFiles_throws (fs : gmap jsstring node) (ps : list jsstring)
      (st : config) (reason : jsstring) :
  applyFiles fs st ps = inl reason
  ↔ ∃ before p after, ps = before ++ p :: after ∧ readable fs before
                      ∧ fs !! p = Some (Unreadable reason).
Proof.
  revert st; induction ps as [|p ps IH]; intros st; simpl.
  - split; [done|]. intros (b & q & a & Heq & _). by destruct b.
  - assert (∀ st', applyFile fs st p = inr st' →
                   (∀ r, fs !! p ≠ Some (Unreadable r)) →
                   (let! st1 := applyFile fs st p in applyFiles fs st1 ps)
                   = inl reason
                   ↔ ∃ before q after,
                       p :: ps = before ++ q :: after ∧ readable fs before
                       ∧ fs !! q = Some (Unreadable reason)) as Hpass.
    { intros st' -> Hp. cbn [bind]. rewrite IH. split.
      - intros (b & q & a & -> & Hr & Hq). exists (p :: b), q, a.
        split; [done|]. split; [|done].
        intros x r [->|Hx]%elem_of_cons; [apply Hp|by apply Hr].
      - intros ([|x b] & q & a & Heq & Hr & Hq); simplify_eq/=.
        + by destruct (Hp reason).
        + exists b, q, a. split; [done|]. split; [|done].
          intros y r Hy. by apply Hr, list_elem_of_further. }
    destruct (fs !! p) as [[content|why]|] eqn:Hp.
    + eapply Hpass; [by apply applyFile_file|done].
    + rewrite (applyFile_unreadable _ _ _ _ Hp). cbn [bind]. split.
      * intros [= <-]. exists [], p, ps. split; [done|]. split; [|done].
        intros x r Hx. by apply elem_of_nil in Hx.
      * intros ([|x b] & q & a & Heq & Hr & Hq); simplify_eq/=; [done|].
        by destruct (Hr x why (list_elem_of_here _ _)).
    + eapply Hpass; [by apply applyFile_missing|done].
Qed.

Lemma rev_middle (a b : list jsstring) (p : jsstring) :
  rev (a ++ p :: b) = rev b ++ p :: rev a.
Proof. rewrite rev_app_distr. simpl. by rewrite <- app_assoc. Qed.

(** X25. [parseNpmrc] returns exactly when every path of the array that
    exists can be read.  Otherwise it throws the error of [readFileSync]
    for the first path, in the order of reading, that cannot be read: the
    last such path of the array as the caller passed it. *)
Theorem parseNpmrc_throws_on_unreadable
    (fs : gmap jsstring node) (filePaths : positive)
    (σ : gmap positive (list jsstring)) (paths : list jsstring) :
  σ !! filePaths = Some paths →
  (∀ reason,
     (parseNpmrc fs filePaths σ).1 = inl reason
     ↔ ∃ before p after, paths = before ++ p :: after
                         ∧ fs !! p = Some (Unreadable reason)
                         ∧ readable fs after)
  ∧ ((∃ parsed, (parseNpmrc fs filePaths σ).1 = inr parsed)
     ↔ readable fs paths).
Proof.
  intros Hσ. rewrite (parseNpmrc_unfold _ _ _ _ Hσ). cbn [fst]. split.
  - intros reason. rewrite applyFiles_throws. split.
    + intros (b & p & a & Hrev & Hr & Hp). exists (rev a), p, (rev b).
      split; [|split; [done|by apply readable_rev]].
      by rewrite <- (rev_involutive paths), Hrev, rev_middle.
    + intros (b & p & a & -> & Hp & Hr). exists (rev a), p, (rev b).
      split; [apply rev_middle|]. split; [by apply readable_rev|done].
  - split.
    + intros [parsed Hparsed]. eapply readable_rev, applyFiles_returns.
      exact Hparsed.
    + intros Hr. by apply applyFiles_readable, readable_rev.
Qed.

Lemma parseNpmrc_throws_on_unreadable_witness :
  (parseNpmrc Examples.fs 1%positive
     {[ 1%positive := [js "/work/locked/.npmrc"; Examples.userRc] ]}).1
  = inl (js "EISDIR: illegal operation on a directory, read").
Proof.
  apply (proj1 (parseNpmrc_throws_on_unreadable Examples.fs 1%positive
                  {[ 1%positive := [js "/work/locked/.npmrc"; Examples.userRc] ]}
                  [js "/work/locked/.npmrc"; Examples.userRc]
                  (lookup_singleton_eq _ _))).
  exists [], (js "/work/locked/.npmrc"), [Examples.userRc].
  split; [reflexivity|]. split; [reflexivity|].
  intros p reason Hin Hp.
  apply list_elem_of_singleton in Hin as ->. vm_compute in Hp.
  discriminate Hp.
Defined.

End NpmrcProperties.

(** ** More on the LockfileScanner *)

Module LockfileProperties.
Import StringFacts LockfileFacts LockfileClaims.

(** *** The scope pattern as a string operation *)

(** X11. The pattern that captures the scope of a package key agrees with
    cutting the key at its first slash: a key has a scope exactly when it
    starts with [@] and has a slash, with at least one character between
    them, and the scope is then the text before the first slash. *)
Theorem scopeMatch_is_text_before_first_slash (pkg scope : jsstring) :
  scopeMatch pkg = Some scope
  ↔ head pkg = Some ch_at ∧ ch_slash ∈ pkg
    ∧ scope = splitFirst ch_slash pkg ∧ (2 ≤ length scope)%nat.
Proof.
  split.
  - intros (name & rest & Hne & Hno & -> & ->)%scopeMatch_iff.
    split; [done|]. split; [apply elem_of_app; right; apply list_elem_of_here|].
    split.
    + rewrite splitFirst_app_sep, splitFirst_fixed; [done|].
      apply not_elem_of_cons. split; [|done]. intros H. discriminate H.
    + destruct name; [done|]. simpl. lia.
  - intros (Hhead & Hin & -> & Hlen).
    apply list_elem_of_split_l in Hin as (a & b & -> & Hno).
    rewrite splitFirst_app_sep, splitFirst_fixed in * by done.
    destruct a as [|c [|d name]]; simpl in Hlen; try lia.
    simpl in Hhead. injection Hhead as ->.
    apply scopeMatch_iff. exists (d :: name), b. split; [done|].
    split; [|done]. by apply not_elem_of_cons in Hno as [_ ?].
Qed.

(** *** When the classification loop throws *)

Lemma first_true (f : jsstring → bool) (l : list jsstring) :
  (∀ x, x ∈ l → f x = false)
  ∨ ∃ pre x post, l = pre ++ x :: post
                  ∧ (∀ y, y ∈ pre → f y = false) ∧ f x = true.
Proof.
  induction l as [|x l IH].
  - left. intros x Hin. by apply elem_of_nil in Hin.
  - destruct (f x) eqn:Hx.
    + right. exists [], x, l. split; [done|]. split; [|done].
      intros y Hin. by apply elem_of_nil in Hin.
    + destruct IH as [IH|(pre & y & post & -> & Hpre & Hy)].
      * left. intros y [->|Hin]%elem_of_cons; [done|by apply IH].
      * right. exists (x :: pre), y, post. split; [done|]. split; [|done].
        intros z [->|Hin]%elem_of_cons; [done|by apply Hpre].
Qed.

Lemma filter_none (f : jsstring → bool) (l : list jsstring) :
  (∀ x, x ∈ l → f x = false) → List.filter f l = [].
Proof.
  induction l as [|x l IH]; intros Hl; simpl; [done|].
  rewrite (Hl x) by apply list_elem_of_here.
  apply IH. intros y Hy. by apply Hl, list_elem_of_further.
Qed.

Section Throwing.
Variable registryMap : gmap jsstring jsstring.
Variable defaultRegistry : jsstring.

Lemma throwsOn_true pkg :
  throwsOn registryMap defaultRegistry pkg = true ↔
  ∃ scope R, scopeMatch pkg = Some scope ∧ registryMap !! scope = Some R
             ∧ R ≠ [] ∧ R ≠ defaultRegistry ∧ R ∈ objectPrototypeKeys.
Proof.
  unfold throwsOn. destruct (scopeMatch pkg) as [scope|] eqn:Hs.
  2: { split; [done|]. by intros (scope & R & ? & _). }
  destruct (registryMap !! scope) as [R|] eqn:Hr.
  2: { split; [done|]. intros (scope' & R & [= <-] & Hr' & _). congruence. }
  rewrite !andb_true_iff, !bool_decide_eq_true. split.
  - intros [[H1 H2] H3]. by exists scope, R.
  - intros (scope' & R' & [= <-] & Hr' & H1 & H2 & H3).
    rewrite Hr in Hr'. by injection Hr' as <-.
Qed.

Lemma addPackage_quiet keys m pkg :
  throwsOn registryMap defaultRegistry pkg = false →
  classified registryMap defaultRegistry keys m →
  ∃ m', addPackage registryMap defaultRegistry m pkg = inr m'
        ∧ classified registryMap defaultRegistry (keys ++ [pkg]) m'.
Proof.
  intros Hquiet Hm. unfold addPackage. unfold throwsOn in Hquiet.
  destruct (scopeMatch pkg) as [scope|] eqn:Hs.
  2: { exists m. split; [done|]. apply classified_skip; [|done].
       intros R. unfold mapsTo. rewrite Hs. apply andb_false_r. }
  destruct (registryMap !! scope) as [registry|] eqn:Hr.
  2: { exists m. split; [done|]. apply classified_skip; [|done].
       intros R. unfold mapsTo. rewrite Hs, Hr.
       rewrite (bool_decide_eq_false_2 (None = Some R)) by done.
       apply andb_false_r. }
  destruct (bool_decide (registry ≠ [])
            && bool_decide (registry ≠ defaultRegistry)) eqn:Hgood.
  2: { exists m. split; [done|]. apply classified_skip; [|done].
       intros R. rewrite (mapsTo_eq _ _ _ _ _ Hs Hr).
       destruct (decide (registry = R)) as [<-|Hne].
       - by rewrite Hgood.
       - rewrite (bool_decide_eq_false_2 _ Hne). apply andb_false_r. }
  simpl in Hquiet.
  assert (∀ R, R ≠ registry →
               expected registryMap defaultRegistry (keys ++ [pkg]) R
               = expected registryMap defaultRegistry keys R) as Hother.
  { intros R Hne. rewrite expected_snoc, (mapsTo_eq _ _ _ _ _ Hs Hr).
    rewrite (bool_decide_eq_false_2 (registry = R)) by done.
    by rewrite andb_false_r, app_nil_r. }
  assert (expected registryMap defaultRegistry (keys ++ [pkg]) registry
          = expected registryMap defaultRegistry keys registry ++ [pkg])
    as Hsame.
  { rewrite expected_snoc, Hgood, (mapsTo_eq _ _ _ _ _ Hs Hr).
    by rewrite bool_decide_eq_true_2. }
  unfold getProp. pose proof (Hm registry) as Hreg.
  destruct (expected registryMap defaultRegistry keys registry)
    as [|p ps] eqn:He; rewrite Hreg.
  - rewrite Hquiet.
    eexists. split; [done|]. intros R.
    destruct (decide (R = registry)) as [->|Hne].
    + by rewrite lookup_insert_eq, Hsame.
    + rewrite lookup_insert_ne by done. rewrite Hother by done. apply Hm.
  - eexists. split; [done|]. intros R.
    destruct (decide (R = registry)) as [->|Hne].
    + by rewrite lookup_insert_eq, Hsame.
    + rewrite lookup_insert_ne by done. rewrite Hother by done. apply Hm.
Qed.

Lemma addPackage_throws keys m pkg :
  throwsOn registryMap defaultRegistry pkg = true →
  (∀ k, k ∈ keys → throwsOn registryMap defaultRegistry k = false) →
  classified registryMap defaultRegistry keys m →
  addPackage registryMap defaultRegistry m pkg = inl pushNotAFunction.
Proof.
  intros (scope & R & Hs & Hr & Hne & Hnd & Hin)%throwsOn_true Hkeys Hm.
  unfold addPackage. rewrite Hs, Hr, !bool_decide_eq_true_2 by done. simpl.
  unfold getProp. rewrite (Hm R). unfold expected.
  rewrite !bool_decide_eq_true_2 by done. simpl.
  rewrite filter_none; [done|].
  intros k Hk. destruct (mapsTo registryMap R k) eqn:Hmaps; [|done].
  apply mapsTo_true in Hmaps as (scope' & Hs' & Hr').
  assert (throwsOn registryMap defaultRegistry k = true) as Hthrow.
  { apply throwsOn_true. by exists scope', R. }
  by rewrite (Hkeys k Hk) in Hthrow.
Qed.

Lemma foldl_addPackage_quiet keys :
  (∀ k, k ∈ keys → throwsOn registryMap defaultRegistry k = false) →
  ∃ m,
    foldl (fun acc pkg => bind acc (fun packagesByRegistry =>
             addPackage registryMap defaultRegistry packagesByRegistry pkg))
          (inr ∅) keys
    = inr m
    ∧ classified registryMap defaultRegistry keys m.
Proof.
  induction keys as [|pkg keys IH] using rev_ind; intros Hquiet.
  - exists ∅. split; [done|]. intros R. rewrite lookup_empty.
    unfold expected. by destruct (_ && _).
  - destruct IH as (m & Hfold & Hm).
    { intros k Hk. apply Hquiet, elem_of_app. by left. }
    destruct (addPackage_quiet keys m pkg) as (m' & Hadd & Hm'); [|done|].
    { apply Hquiet, elem_of_app. right. apply list_elem_of_here. }
    exists m'. split; [|done]. by rewrite foldl_app, Hfold.
Qed.

Lemma foldl_addPackage_thrown (e : jsstring) keys :
  foldl (fun acc pkg => bind acc (fun packagesByRegistry =>
           addPackage registryMap defaultRegistry packagesByRegistry pkg))
        (inl e) keys
  = inl e.
Proof. by induction keys as [|k keys IH]. Qed.

Lemma foldl_addPackage_throws keys pkg :
  pkg ∈ keys → throwsOn registryMap defaultRegistry pkg = true →
  foldl (fun acc pkg => bind acc (fun packagesByRegistry =>
           addPackage registryMap defaultRegistry packagesByRegistry pkg))
        (inr ∅) keys
  = inl pushNotAFunction.
Proof.
  intros Hin Hthrow.
  destruct (first_true (throwsOn registryMap defaultRegistry) keys)
    as [Hnone|(pre & x & post & -> & Hpre & Hx)].
  - by rewrite (Hnone pkg Hin) in Hthrow.
  - destruct (foldl_addPackage_quiet pre Hpre) as (m & Hfold & Hm).
    rewrite foldl_app, Hfold. simpl.
    rewrite (addPackage_throws pre m x Hx Hpre Hm).
    apply foldl_addPackage_thrown.
Qed.
End Throwing.

Section Scanner.
Context {Num : Type} (numFalsy : Num → bool).
Variable yaml_load : jsstring → jsstring + jsval Num.
Variable fs : gmap jsstring node.

(** X12. For a lockfile that exists and loads, [extractScopes] succeeds,
    and a scope is in the set it returns exactly when some key of
    [packages] starts with that scope and a slash. *)
Theorem extractScopes_collects_scope_prefixes
    (lockPath content : jsstring) (lockData : jsval Num) :
  fs !! lockPath = Some (File content) →
  yaml_load content = inr lockData →
  ∃ scopes,
    extractScopes numFalsy yaml_load fs lockPath = inr scopes
    ∧ ∀ scope, scope ∈ scopes ↔
        ∃ pkg rest,
          pkg ∈ documentKeys (orEmptyObject numFalsy (getPackages lockData))
          ∧ pkg = scope ++ ch_slash :: rest
          ∧ ∃ name, scope = ch_at :: name ∧ name ≠ [] ∧ ch_slash ∉ name.
Proof.
  intros Hfs Hload.
  destruct (extractScopes_loaded numFalsy yaml_load fs _ _ _ Hfs Hload)
    as (scopes & Hex & Hs).
  exists scopes. split; [done|]. intros scope. rewrite Hs. split.
  - intros (pkg & Hin & (name & rest & Hne & Hno & -> & ->)%scopeMatch_iff).
    exists (ch_at :: name ++ ch_slash :: rest), rest. split; [done|].
    split; [done|]. by exists name.
  - intros (pkg & rest & Hin & -> & name & -> & Hne & Hno).
    eexists. split; [done|]. apply scopeMatch_iff. by exists name, rest.
Qed.

(** A scan returns only for a file that loads. *)
Lemma extractScopes_returns (lockPath : jsstring) (scopes : gset jsstring) :
  extractScopes numFalsy yaml_load fs lockPath = inr scopes →
  ∃ content lockData, fs !! lockPath = Some (File content)
                      ∧ yaml_load content = inr lockData.
Proof.
  intros Hex. destruct (fs !! lockPath) as [[content|reason]|] eqn:Hfs;
    [|by rewrite (extractScopes_unreadable _ _ _ _ _ Hfs) in Hex
     |by rewrite (extractScopes_missing _ _ _ _ Hfs) in Hex].
  rewrite (extractScopes_file _ _ _ _ _ Hfs) in Hex.
  destruct (yaml_load content) as [msg|lockData] eqn:Hload; [done|].
  by exists content, lockData.
Qed.

(** X13. The error contract of [extractScopes]: it reports the lockfile as
    not found exactly when the path does not exist; as unparsable exactly
    when the path exists and either cannot be read (with the message of
    the read error) or is a file whose text the loader rejects (with the
    loader's message); and it succeeds exactly when the path is a file
    that loads. *)
Theorem extractScopes_error_contract (lockPath : jsstring) :
  (∀ e, extractScopes numFalsy yaml_load fs lockPath
        = inl (LockfileNotFound e)
        ↔ fs !! lockPath = None ∧ e = lockPath)
  ∧ (∀ reason, extractScopes numFalsy yaml_load fs lockPath
               = inl (LockfileParseError reason)
               ↔ fs !! lockPath = Some (Unreadable reason)
                 ∨ ∃ content, fs !! lockPath = Some (File content)
                              ∧ yaml_load content = inl reason)
  ∧ ((∃ scopes, extractScopes numFalsy yaml_load fs lockPath = inr scopes)
     ↔ ∃ content lockData, fs !! lockPath = Some (File content)
                           ∧ yaml_load content = inr lockData).
Proof.
  split; [|split].
  - intros e. apply extractScopes_not_found.
  - intros reason. apply extractScopes_parse_error.
  - split.
    + intros [scopes Hex]. by eapply extractScopes_returns.
    + intros (content & lockData & Hfs & Hload).
      destruct (extractScopes_loaded numFalsy yaml_load fs _ _ _ Hfs Hload)
        as (scopes & Hex & _).
      by exists scopes.
Qed.

(** X14. When [packages] is absent or falsy (an empty document, a document
    that is no mapping or has no [packages] key, [packages: null]) both
    scans return their empty result. *)
Theorem absent_packages_yield_nothing
    (lockPath content : jsstring) (lockData : jsval Num)
    (registryMap : gmap jsstring jsstring) (defaultRegistry : jsstring) :
  fs !! lockPath = Some (File content) →
  yaml_load content = inr lockData →
  truthy numFalsy (getPackages lockData) = false →
  extractScopes numFalsy yaml_load fs lockPath = inr ∅
  ∧ extractPackagesByRegistry numFalsy yaml_load fs lockPath
      registryMap defaultRegistry = inr ∅.
Proof.
  intros Hfs Hload Hfalsy.
  rewrite (extractScopes_file _ _ _ _ _ Hfs),
    (extractPackagesByRegistry_file _ _ _ _ _ _ _ Hfs), Hload.
  simpl. unfold packageKeys, orEmptyObject.
  by rewrite Hfalsy.
Qed.

(** What [extractPackagesByRegistry] does on a lockfile that loads, by
    whether some key of the document makes the loop throw. *)
Lemma extractPackagesByRegistry_loaded
    (lockPath content : jsstring) (lockData : jsval Num)
    (registryMap : gmap jsstring jsstring) (defaultRegistry : jsstring) :
  fs !! lockPath = Some (File content) →
  yaml_load content = inr lockData →
  let source := documentKeys (orEmptyObject numFalsy (getPackages lockData)) in
  ((∃ pkg, pkg ∈ source
           ∧ throwsOn registryMap defaultRegistry pkg = true)
   ∧ extractPackagesByRegistry numFalsy yaml_load fs lockPath
       registryMap defaultRegistry
     = inl (LockfileParseError pushNotAFunction))
  ∨ ((∀ pkg, pkg ∈ source →
             throwsOn registryMap defaultRegistry pkg = false)
     ∧ ∃ result,
         extractPackagesByRegistry numFalsy yaml_load fs lockPath
           registryMap defaultRegistry = inr result
         ∧ classified registryMap defaultRegistry source result).
Proof.
  intros Hfs Hload source.
  rewrite (extractPackagesByRegistry_file _ _ _ _ _ _ _ Hfs), Hload. simpl.
  destruct (packageKeys_total numFalsy lockData) as (keys & -> & Hmem & Hkeys).
  simpl. fold source in Hmem, Hkeys.
  assert (∀ k, throwsOn registryMap defaultRegistry k = true →
               is_Some (scopeMatch k)) as Hscoped.
  { intros k (scope & R & Hs & _)%throwsOn_true. by exists scope. }
  destruct (first_true (throwsOn registryMap defaultRegistry) keys)
    as [Hnone|(pre & x & post & Heq & Hpre & Hx)].
  - right. split.
    + intros pkg Hin.
      destruct (throwsOn registryMap defaultRegistry pkg) eqn:Ht; [|done].
      rewrite <- (Hnone pkg); [done|].
      by apply (proj2 (Hmem pkg)); split; [|apply Hscoped].
    + destruct (foldl_addPackage_quiet registryMap defaultRegistry keys Hnone)
        as (m & -> & Hm).
      exists m. split; [done|]. intros R. rewrite (Hm R). unfold expected.
      destruct (_ && _); [|done].
      rewrite (Hkeys (mapsTo registryMap R)); [done|].
      by intros k (scope & Hs & _)%mapsTo_true; exists scope.
  - left. split.
    + exists x. split; [|done].
      apply (proj1 (Hmem x)). split; [|by apply Hscoped].
      rewrite Heq. apply elem_of_app. right. apply list_elem_of_here.
    + rewrite (foldl_addPackage_throws registryMap defaultRegistry keys x);
        [done| |done].
      rewrite Heq. apply elem_of_app. right. apply list_elem_of_here.
Qed.

(** X15. On a lockfile that exists and loads, [extractPackagesByRegistry]
    fails exactly when some package key has a scope that the mapping sends
    to a registry which is not empty, differs from the default registry
    and is the name of a property inherited from [Object.prototype]; the
    failure is then the parse error with the message of the [push] call
    that failed. *)
Theorem extractPackagesByRegistry_fails_on_inherited_names
    (lockPath content : jsstring) (lockData : jsval Num)
    (registryMap : gmap jsstring jsstring) (defaultRegistry : jsstring) :
  fs !! lockPath = Some (File content) →
  yaml_load content = inr lockData →
  ((∃ e, extractPackagesByRegistry numFalsy yaml_load fs lockPath
           registryMap defaultRegistry = inl e)
   ↔ ∃ pkg scope R,
       pkg ∈ documentKeys (orEmptyObject numFalsy (getPackages lockData))
       ∧ scopeMatch pkg = Some scope ∧ registryMap !! scope = Some R
       ∧ R ≠ [] ∧ R ≠ defaultRegistry ∧ R ∈ objectPrototypeKeys)
  ∧ ∀ e, extractPackagesByRegistry numFalsy yaml_load fs lockPath
           registryMap defaultRegistry = inl e →
         e = LockfileParseError
               (js "packagesByRegistry[registry].push is not a function").
Proof.
  intros Hfs Hload.
  destruct (extractPackagesByRegistry_loaded lockPath content lockData
              registryMap defaultRegistry Hfs Hload)
    as [[(pkg & Hin & Ht) ->]|[Hnone (result & -> & _)]].
  - split; [|by intros e [= <-]]. split; [|by eexists].
    intros _. apply throwsOn_true in Ht as (scope & R & ?).
    by exists pkg, scope, R.
  - split; [|done]. split; [by intros [e ?]|].
    intros (pkg & scope & R & Hin & Hrest).
    assert (throwsOn registryMap defaultRegistry pkg = true) as Ht.
    { apply throwsOn_true. by exists scope, R. }
    by rewrite (Hnone pkg Hin) in Ht.
Qed.

(** The lists of a successful classification. *)
Lemma extractPackagesByRegistry_lists
    (lockPath content : jsstring) (lockData : jsval Num)
    (registryMap : gmap jsstring jsstring) (defaultRegistry : jsstring)
    (result : gmap jsstring (list jsstring)) :
  fs !! lockPath = Some (File content) →
  yaml_load content = inr lockData →
  extractPackagesByRegistry numFalsy yaml_load fs lockPath
    registryMap defaultRegistry = inr result →
  ∀ R listed, result !! R = Some listed →
     R ≠ [] ∧ R ≠ defaultRegistry ∧ listed ≠ []
     ∧ listed = List.filter (mapsTo registryMap R)
                  (documentKeys (orEmptyObject numFalsy (getPackages lockData))).
Proof.
  intros Hfs Hload Hex.
  destruct (extractPackagesByRegistry_loaded lockPath content lockData
              registryMap defaultRegistry Hfs Hload)
    as [[_ Herr]|[_ (result' & Hex' & Hm)]]; [congruence|].
  rewrite Hex in Hex'. injection Hex' as <-.
  intros R listed HR. rewrite (Hm R) in HR. unfold expected in HR.
  destruct (bool_decide (R ≠ []) && bool_decide (R ≠ defaultRegistry))
    eqn:Hgood; [|done].
  apply andb_prop in Hgood as [H1%bool_decide_eq_true H2%bool_decide_eq_true].
  destruct (List.filter _ _) as [|p ps] eqn:Hf; [done|].
  by injection HR as <-.
Qed.

(** X16. Whenever [extractPackagesByRegistry] succeeds, every registry of
    the result differs from the empty string and from the default
    registry, its list is not empty and holds, in the order of the source
    document, exactly the package keys whose scope the mapping sends to
    it; no package key is in the lists of two registries. *)
Theorem extractPackagesByRegistry_result_shape
    (lockPath content : jsstring) (lockData : jsval Num)
    (registryMap : gmap jsstring jsstring) (defaultRegistry : jsstring)
    (result : gmap jsstring (list jsstring)) :
  fs !! lockPath = Some (File content) →
  yaml_load content = inr lockData →
  extractPackagesByRegistry numFalsy yaml_load fs lockPath
    registryMap defaultRegistry = inr result →
  (∀ R listed, result !! R = Some listed →
     R ≠ [] ∧ R ≠ defaultRegistry ∧ listed ≠ []
     ∧ listed = List.filter (mapsTo registryMap R)
                  (documentKeys (orEmptyObject numFalsy (getPackages lockData))))
  ∧ (∀ pkg R1 R2 l1 l2, result !! R1 = Some l1 → result !! R2 = Some l2 →
       pkg ∈ l1 → pkg ∈ l2 → R1 = R2).
Proof.
  intros Hfs Hload Hex.
  pose proof (extractPackagesByRegistry_lists _ _ _ _ _ _ Hfs Hload Hex)
    as Hshape.
  split; [done|].
  intros pkg R1 R2 l1 l2 (_ & _ & _ & ->)%Hshape (_ & _ & _ & ->)%Hshape.
  intros [_ H1]%list_elem_of_In%filter_In [_ H2]%list_elem_of_In%filter_In.
  apply mapsTo_true in H1 as (s1 & Hs1 & Hr1).
  apply mapsTo_true in H2 as (s2 & Hs2 & Hr2). congruence.
Qed.

(** X17. The two scans agree: when both succeed on the same lockfile,
    every package listed under a registry starts with a scope that
    [extractScopes] returned and that the mapping sends to that
    registry. *)
Theorem listed_packages_have_extracted_scopes
    (lockPath : jsstring)
    (registryMap : gmap jsstring jsstring) (defaultRegistry : jsstring)
    (scopes : gset jsstring) (result : gmap jsstring (list jsstring)) :
  extractScopes numFalsy yaml_load fs lockPath = inr scopes →
  extractPackagesByRegistry numFalsy yaml_load fs lockPath
    registryMap defaultRegistry = inr result →
  ∀ R listed pkg, result !! R = Some listed → pkg ∈ listed →
    ∃ scope, scope ∈ scopes ∧ scopeMatch pkg = Some scope
             ∧ registryMap !! scope = Some R.
Proof.
  intros Hsc Hex R listed pkg HR Hin.
  destruct (extractScopes_returns _ _ Hsc)
    as (content & lockData & Hfs & Hload).
  apply (extractPackagesByRegistry_lists _ _ _ _ _ _ Hfs Hload Hex)
    in HR as (_ & _ & _ & ->).
  apply list_elem_of_In, filter_In in Hin as [Hin Hmaps].
  apply mapsTo_true in Hmaps as (scope & Hs & Hr).
  exists scope. split; [|done].
  destruct (extractScopes_loaded numFalsy yaml_load fs _ _ _ Hfs Hload)
    as (scopes' & Hsc' & Hmem).
  rewrite Hsc in Hsc'. injection Hsc' as <-.
  apply Hmem. exists pkg. split; [|done]. by apply list_elem_of_In.
Qed.
End Scanner.

Lemma absent_packages_yield_nothing_witness :
  extractScopes Examples.isZero (fun _ => inr (VObj [(js "lockfileVersion", VStr (js "9.0"))]))
    Examples.fs Examples.lockfile = inr ∅
  ∧ extractPackagesByRegistry Examples.isZero
      (fun _ => inr (VObj [(js "lockfileVersion", VStr (js "9.0"))]))
      Examples.fs Examples.lockfile
      {[ js "@foo" := js "https://custom.example/" ]} npmjs = inr ∅.
Proof.
  apply (absent_packages_yield_nothing Examples.isZero _ Examples.fs
           Examples.lockfile Examples.lockText
           (VObj [(js "lockfileVersion", VStr (js "9.0"))])); reflexivity.
Defined.

Lemma extractPackagesByRegistry_fails_on_inherited_names_witness :
  ((∃ e, extractPackagesByRegistry Examples.isZero Examples.load Examples.fs
           Examples.lockfile {[ js "@foo" := js "toString" ]} npmjs = inl e)
   ↔ ∃ pkg scope R,
       pkg ∈ documentKeys
               (orEmptyObject Examples.isZero (getPackages Examples.lockData))
       ∧ scopeMatch pkg = Some scope
       ∧ ({[ js "@foo" := js "toString" ]} : gmap jsstring jsstring) !! scope
         = Some R
       ∧ R ≠ [] ∧ R ≠ npmjs ∧ R ∈ objectPrototypeKeys)
  ∧ ∀ e, extractPackagesByRegistry Examples.isZero Examples.load Examples.fs
           Examples.lockfile {[ js "@foo" := js "toString" ]} npmjs = inl e →
         e = LockfileParseError
               (js "packagesByRegistry[registry].push is not a function").
Proof.
  apply (extractPackagesByRegistry_fails_on_inherited_names Examples.isZero
           Examples.load Examples.fs Examples.lockfile Examples.lockText
           Examples.lockData); reflexivity.
Defined.

Lemma extractPackagesByRegistry_result_shape_witness :
  let result : gmap jsstring (list jsstring) :=
    {[ js "https://custom.example/" := [js "@foo/bar"; js "@foo/qux"] ]} in
  (∀ R listed, result !! R = Some listed →
     R ≠ [] ∧ R ≠ npmjs ∧ listed ≠ []
     ∧ listed = List.filter
                  (mapsTo {[ js "@foo" := js "https://custom.example/" ]} R)
                  (documentKeys
                     (orEmptyObject Examples.isZero
                        (getPackages Examples.lockData))))
  ∧ (∀ pkg R1 R2 l1 l2, result !! R1 = Some l1 → result !! R2 = Some l2 →
       pkg ∈ l1 → pkg ∈ l2 → R1 = R2).
Proof.
  apply (extractPackagesByRegistry_result_shape Examples.isZero Examples.load
           Examples.fs Examples.lockfile Examples.lockText Examples.lockData
           {[ js "@foo" := js "https://custom.example/" ]} npmjs);
    reflexivity.
Defined.

Lemma listed_packages_have_extracted_scopes_witness :
  ∃ scope, scope ∈ ({[ js "@foo" ]} : gset jsstring)
           ∧ scopeMatch (js "@foo/qux") = Some scope
           ∧ ({[ js "@foo" := js "https://custom.example/" ]}
                : gmap jsstring jsstring) !! scope
             = Some (js "https://custom.example/").
Proof.
  apply (listed_packages_have_extracted_scopes Examples.isZero Examples.load
           Examples.fs Examples.lockfile
           {[ js "@foo" := js "https://custom.example/" ]} npmjs
           ({[ js "@foo" ]} : gset jsstring)
           ({[ js "https://custom.example/" := [js "@foo/bar"; js "@foo/qux"] ]}
              : gmap jsstring (list jsstring)))
    with (R := js "https://custom.example/")
         (listed := [js "@foo/bar"; js "@foo/qux"]).
  - vm_compute. reflexivity.
  - vm_compute. reflexivity.
  - reflexivity.
  - apply list_elem_of_further, list_elem_of_here.
Defined.

Lemma extractScopes_collects_scope_prefixes_witness :
  ∃ scopes,
    extractScopes Examples.isZero Examples.load Examples.fs Examples.lockfile
    = inr scopes
    ∧ ∀ scope, scope ∈ scopes ↔
        ∃ pkg rest,
          pkg ∈ documentKeys
                  (orEmptyObject Examples.isZero (getPackages Examples.lockData))
          ∧ pkg = scope ++ ch_slash :: rest
          ∧ ∃ name, scope = ch_at :: name ∧ name ≠ [] ∧ ch_slash ∉ name.
Proof.
  apply (extractScopes_collects_scope_prefixes Examples.isZero Examples.load
           Examples.fs Examples.lockfile Examples.lockText Examples.lockData);
    reflexivity.
Defined.

End LockfileProperties.

(** ** The Reporter *)

Module DisplayProperties.
Import LockfileFacts LockfileProperties.

(** *** The order of [sort] *)

Lemma ltString_irrefl a : ltString a a = false.
Proof.
  induction a as [|x a IH]; simpl; [done|]. by rewrite N.ltb_irrefl.
Qed.

Lemma ltString_asym a b : ltString a b = true → ltString b a = false.
Proof.
  revert b; induction a as [|x a IH]; intros [|y b]; simpl; try done.
  destruct (x <? y) eqn:Hxy.
  - intros _. apply N.ltb_lt in Hxy.
    assert ((y <? x) = false) as Hyx by (apply N.ltb_ge; lia).
    by rewrite Hyx.
  - destruct (y <? x) eqn:Hyx; [done|]. apply IH.
Qed.

Lemma ltString_trans a b c :
  ltString a b = true → ltString b c = true → ltString a c = true.
Proof.
  revert b c; induction a as [|x a IH]; intros [|y b] [|z c]; simpl; try done.
  destruct (x <? y) eqn:Hxy; destruct (y <? z) eqn:Hyz;
    destruct (x <? z) eqn:Hxz; try done;
    try apply N.ltb_lt in Hxy; try apply N.ltb_lt in Hyz;
    try apply N.ltb_ge in Hxy; try apply N.ltb_ge in Hyz;
    try apply N.ltb_ge in Hxz.
  - lia.
  - destruct (z <? y) eqn:Hzy; [done|]. apply N.ltb_ge in Hzy.
    intros _ _. assert (y = z) as -> by lia. lia.
  - destruct (y <? x) eqn:Hyx; [done|]. apply N.ltb_ge in Hyx.
    assert (x = y) as -> by lia. lia.
  - destruct (y <? x) eqn:Hyx; [done|]. destruct (z <? y) eqn:Hzy; [done|].
    apply N.ltb_ge in Hyx, Hzy. assert (x = y) as -> by lia.
    assert (y = z) as -> by lia. rewrite N.ltb_irrefl. apply IH.
Qed.

(** Strings that are not below each other are the same string. *)
Lemma ltString_connex a b :
  ltString a b = false → ltString b a = false → a = b.
Proof.
  revert b; induction a as [|x a IH]; intros [|y b]; simpl; try done.
  destruct (x <? y) eqn:Hxy; [done|]. destruct (y <? x) eqn:Hyx; [done|].
  apply N.ltb_ge in Hxy, Hyx. assert (x = y) as -> by lia.
  intros H1 H2. f_equal. by apply IH.
Qed.

Lemma leString_total a b : leString a b = false → leString b a = true.
Proof.
  unfold leString. intros Hab%negb_false_iff.
  apply negb_true_iff. by apply ltString_asym.
Qed.

Lemma leString_trans a b c :
  leString a b = true → leString b c = true → leString a c = true.
Proof.
  unfold leString. intros Hab%negb_true_iff Hbc%negb_true_iff.
  apply negb_true_iff. destruct (ltString c a) eqn:Hca; [|done].
  destruct (ltString a b) eqn:Hab'.
  - by rewrite (ltString_trans c a b Hca Hab') in Hbc.
  - assert (a = b) as -> by by apply ltString_connex. congruence.
Qed.

Lemma insertString_Permutation x l : insertString x l ≡ₚ x :: l.
Proof.
  induction l as [|y l IH]; simpl; [done|].
  destruct (leString x y); [done|]. rewrite IH. apply Permutation_swap.
Qed.

Lemma sortStrings_Permutation l : sortStrings l ≡ₚ l.
Proof.
  induction l as [|x l IH]; simpl; [done|].
  by rewrite insertString_Permutation, IH.
Qed.

Lemma insertString_sorted x l :
  StronglySorted (fun a b => leString a b = true) l →
  StronglySorted (fun a b => leString a b = true) (insertString x l).
Proof.
  induction 1 as [|y l Hl IH Hy]; simpl.
  - repeat constructor.
  - destruct (leString x y) eqn:Hxy.
    + constructor; [by constructor|]. constructor; [done|].
      eapply Forall_impl; [exact Hy|]. intros z Hz. simpl in Hz.
      by eapply leString_trans.
    + constructor; [done|].
      rewrite (Forall_forall _ _). intros z Hz.
      rewrite insertString_Permutation in Hz.
      apply elem_of_cons in Hz as [->|Hz]; [by apply leString_total|].
      rewrite Forall_forall in Hy. by apply Hy.
Qed.

Lemma sortStrings_sorted l :
  StronglySorted (fun a b => leString a b = true) (sortStrings l).
Proof.
  induction l as [|x l IH]; simpl; [constructor|].
  by apply insertString_sorted.
Qed.

(** *** The lists after the call *)

(** X18. [displaySummary] sorts the list of every registry in place: after
    the call the object has the same registries in the same order, each
    with the packages it had, now ascending by code units; these sorted
    lists are what is printed, one block per registry between the heading
    and the total. *)
Theorem displaySummary_sorts_in_place
    (scopes : gset jsstring) (registryMap : list (jsstring * jsstring))
    (packagesByRegistry : list (jsstring * list jsstring))
    (defaultRegistry : jsstring) (npmrcFiles : list jsstring) :
  let printed :=
    (displaySummary scopes registryMap packagesByRegistry defaultRegistry
       npmrcFiles).1 in
  let after :=
    (displaySummary scopes registryMap packagesByRegistry defaultRegistry
       npmrcFiles).2 in
  Forall2 (fun before now =>
             now.1 = before.1 ∧ now.2 ≡ₚ before.2
             ∧ StronglySorted (fun a b => leString a b = true) now.2)
    packagesByRegistry after
  ∧ (packagesByRegistry ≠ [] →
     ∃ heading total,
       printed = heading ++ concat (List.map registryBlock after) ++ [total]).
Proof.
  cbv zeta. unfold displaySummary. split.
  - assert (∀ l : list (jsstring * list jsstring),
              Forall2 (fun before now =>
                         now.1 = before.1 ∧ now.2 ≡ₚ before.2
                         ∧ StronglySorted (fun a b => leString a b = true) now.2)
                l (List.map (fun '(registry, packages) =>
                               (registry, sortStrings packages)) l)) as Hmap.
    { intros l. induction l as [|[R pkgs] l IH]; cbn [List.map];
        constructor; [|done].
      cbn [fst snd]. split; [done|]. split.
      - apply sortStrings_Permutation.
      - apply sortStrings_sorted. }
    destruct packagesByRegistry as [|entry entries]; [constructor|].
    cbn [snd]. apply Hmap.
  - intros Hne. destruct packagesByRegistry as [|entry entries]; [done|].
    cbn [fst snd].
    exists (summaryHeader registryMap defaultRegistry npmrcFiles
            ++ [[10] ++ warningEmoji
                  ++ js "  Packages from non-default registries:"]).
    eexists. rewrite <- app_assoc. reflexivity.
Qed.

(** *** The total *)

Section Totals.
Variable registryMap : gmap jsstring jsstring.
Variable defaultRegistry : jsstring.

Lemma custom_true pkg :
  custom registryMap defaultRegistry pkg = true ↔
  ∃ R, mapsTo registryMap R pkg = true ∧ R ≠ [] ∧ R ≠ defaultRegistry.
Proof.
  unfold custom, mapsTo. destruct (scopeMatch pkg) as [scope|].
  2: { split; [done|]. by intros (R & ? & _). }
  destruct (registryMap !! scope) as [R0|].
  2: { split; [done|]. by intros (R & ?%bool_decide_eq_true & _). }
  rewrite andb_true_iff, !bool_decide_eq_true. split.
  - intros [H1 H2]. exists R0. by rewrite bool_decide_eq_true.
  - by intros (R & [= ->]%bool_decide_eq_true & H1 & H2).
Qed.

Lemma count_one (R0 : jsstring) (Rs : list jsstring) :
  NoDup Rs →
  length (List.filter (fun R => bool_decide (R0 = R)) Rs)
  = if bool_decide (R0 ∈ Rs) then 1%nat else 0%nat.
Proof.
  induction 1 as [|R Rs Hnotin Hnodup IH]; simpl; [done|].
  destruct (decide (R0 = R)) as [->|Hne].
  - rewrite !bool_decide_eq_true_2; [|apply list_elem_of_here|done].
    simpl. rewrite IH. by rewrite bool_decide_eq_false_2.
  - rewrite (bool_decide_eq_false_2 (R0 = R)) by done. rewrite IH.
    rewrite (bool_decide_ext (R0 ∈ R :: Rs) (R0 ∈ Rs)); [done|].
    rewrite elem_of_cons. naive_solver.
Qed.

Lemma lengths_cons (x : jsstring) (src Rs : list jsstring) :
  length (concat (List.map (fun R => List.filter (mapsTo registryMap R) (x :: src)) Rs))
  = (length (List.filter (fun R => mapsTo registryMap R x) Rs)
     + length (concat (List.map (fun R => List.filter (mapsTo registryMap R) src) Rs)))%nat.
Proof.
  induction Rs as [|R Rs IH]; [done|].
  cbn [List.map concat]. rewrite !length_app, IH.
  cbn [List.filter]. destruct (mapsTo registryMap R x); simpl; lia.
Qed.

(** Over registries that are exactly the custom ones reached from [src],
    the lengths of the lists add up to the number of custom packages. *)
Lemma lengths_total (src Rs : list jsstring) :
  NoDup Rs →
  (∀ R, R ∈ Rs → R ≠ [] ∧ R ≠ defaultRegistry) →
  (∀ pkg R, pkg ∈ src → mapsTo registryMap R pkg = true →
            R ≠ [] → R ≠ defaultRegistry → R ∈ Rs) →
  length (concat (List.map (fun R => List.filter (mapsTo registryMap R) src) Rs))
  = length (List.filter (custom registryMap defaultRegistry) src).
Proof.
  intros Hnodup Hgood. induction src as [|x src IH]; intros Hreach.
  - simpl. clear. by induction Rs.
  - rewrite lengths_cons, IH.
    2: { intros pkg R Hin. apply Hreach. by apply list_elem_of_further. }
    simpl.
    assert (length (List.filter (fun R => mapsTo registryMap R x) Rs)
            = if custom registryMap defaultRegistry x then 1%nat else 0%nat)
      as ->; [|by destruct (custom registryMap defaultRegistry x)].
    destruct (custom registryMap defaultRegistry x) eqn:Hc.
    + apply custom_true in Hc as (R0 & Hmaps & H1 & H2).
      assert (R0 ∈ Rs) as Hin
        by (by apply (Hreach x); [apply list_elem_of_here|..]).
      apply mapsTo_true in Hmaps as (scope & Hs & Hr).
      erewrite filter_ext; [|intros R; apply (mapsTo_eq _ _ _ _ _ Hs Hr)].
      rewrite count_one by done. by rewrite bool_decide_eq_true_2.
    + rewrite filter_none; [done|]. intros R HR.
      destruct (mapsTo registryMap R x) eqn:Hmaps; [|done].
      assert (custom registryMap defaultRegistry x = true) as Hc'.
      { apply custom_true. exists R. destruct (Hgood R HR). done. }
      congruence.
Qed.
End Totals.

Lemma length_concat_sorted (entries : list (jsstring * list jsstring)) :
  length (concat (List.map snd
            (List.map (fun '(registry, packages) =>
                         (registry, sortStrings packages)) entries)))
  = length (concat (List.map snd entries)).
Proof.
  induction entries as [|[R l] entries IH]; [done|].
  cbn [List.map concat snd]. rewrite !length_app, IH.
  by rewrite (Permutation_length (sortStrings_Permutation l)).
Qed.

Lemma enumerates_size {V : Type} (entries : list (jsstring * V))
      (m : gmap jsstring V) :
  enumerates entries m → length entries = size m.
Proof.
  intros [Hnodup Hmem]. rewrite <- length_map_to_list.
  apply Permutation_length, NoDup_Permutation.
  - by apply (NoDup_fmap_1 fst).
  - apply NoDup_map_to_list.
  - intros [k v]. by rewrite Hmem, elem_of_map_to_list.
Qed.

Section Report.
Context {Num : Type} (numFalsy : Num → bool).
Variable yaml_load : jsstring → jsstring + jsval Num.
Variable fs : gmap jsstring node.

(** X19. Run on the classification [extractPackagesByRegistry] returned,
    [displaySummary] ends with the line that all packages use the default
    registry exactly when no package key of the lockfile has a scope
    mapped to a registry that is neither empty nor the default one;
    otherwise it ends with the total line, which gives the number of such
    package keys and the number of registries in the classification. *)
Theorem displaySummary_reports_custom_packages
    (lockPath content : jsstring) (lockData : jsval Num)
    (registryMap : gmap jsstring jsstring) (defaultRegistry : jsstring)
    (result : gmap jsstring (list jsstring))
    (scopes : gset jsstring) (shownRegistries : list (jsstring * jsstring))
    (entries : list (jsstring * list jsstring)) (npmrcFiles : list jsstring) :
  fs !! lockPath = Some (File content) →
  yaml_load content = inr lockData →
  extractPackagesByRegistry numFalsy yaml_load fs lockPath
    registryMap defaultRegistry = inr result →
  enumerates entries result →
  let customPackages :=
    List.filter (custom registryMap defaultRegistry)
      (documentKeys (orEmptyObject numFalsy (getPackages lockData))) in
  last (displaySummary scopes shownRegistries entries defaultRegistry
          npmrcFiles).1
  = Some (match customPackages with
          | [] => checkEmoji ++ js " All packages use the default registry."
          | _ :: _ => totalLine (length customPackages) (size result)
          end).
Proof.
  intros Hfs Hload Hex Henum. cbv zeta.
  set (source := documentKeys (orEmptyObject numFalsy (getPackages lockData))).
  pose proof (extractPackagesByRegistry_lists numFalsy yaml_load fs
                _ _ _ _ _ _ Hfs Hload Hex) as Hlists. fold source in Hlists.
  destruct (extractPackagesByRegistry_loaded numFalsy yaml_load fs
              lockPath content lockData registryMap defaultRegistry Hfs Hload)
    as [[_ Herr]|[_ (result' & Hex' & Hm)]]; [congruence|].
  rewrite Hex in Hex'. injection Hex' as <-. fold source in Hm.
  pose proof (enumerates_size _ _ Henum) as Hsize.
  destruct Henum as [Hnodup Hmem].
  assert (List.map snd entries
          = List.map (fun R => List.filter (mapsTo registryMap R) source)
              (List.map fst entries)) as Hsnd.
  { rewrite List.map_map. apply map_ext_in. intros [R l] Hin. simpl.
    apply list_elem_of_In, Hmem, Hlists in Hin. tauto. }
  assert (length (concat (List.map snd entries))
          = length (List.filter (custom registryMap defaultRegistry) source))
    as Htotal.
  { rewrite Hsnd. apply lengths_total; [done| |].
    - intros R (l & Heq & Hin)%list_elem_of_In%in_map_iff.
      destruct l as [R' l]. simpl in Heq. subst R'.
      apply list_elem_of_In, Hmem, Hlists in Hin. tauto.
    - intros pkg R Hin Hmaps H1 H2.
      pose proof (Hm R) as HR. unfold expected in HR.
      rewrite !bool_decide_eq_true_2 in HR by done. simpl in HR.
      destruct (List.filter (mapsTo registryMap R) source) as [|p ps] eqn:Hf.
      + assert (pkg ∈ List.filter (mapsTo registryMap R) source) as Hpkg
          by (by apply list_elem_of_In, filter_In; split;
                [apply list_elem_of_In|]).
        rewrite Hf in Hpkg. by apply elem_of_nil in Hpkg.
      + apply Hmem in HR. apply list_elem_of_In, in_map_iff.
        exists (R, p :: ps). split; [done|]. by apply list_elem_of_In. }
  unfold displaySummary. destruct entries as [|[R l] entries].
  - simpl in Htotal. cbn [fst].
    destruct (List.filter (custom registryMap defaultRegistry) source);
      [|done].
    apply last_snoc.
  - cbn [fst]. rewrite length_concat_sorted, Htotal, Hsize.
    rewrite !app_assoc, last_snoc.
    destruct (List.filter (custom registryMap defaultRegistry) source)
      eqn:Hf; [|done].
    assert (l ≠ []) as Hl.
    { assert ((R, l) ∈ (R, l) :: entries) as Hin by apply list_elem_of_here.
      apply Hmem, Hlists in Hin. tauto. }
    simpl in Htotal. rewrite length_app in Htotal. destruct l; [done|].
    simpl in Htotal. lia.
Qed.
End Report.

Lemma displaySummary_reports_custom_packages_witness :
  last (displaySummary ∅ [(js "@foo", js "https://custom.example/")]
          [(js "https://custom.example/", [js "@foo/bar"; js "@foo/qux"])]
          npmjs [Examples.userRc]).1
  = Some (totalLine 2 1).
Proof.
  pose proof (displaySummary_reports_custom_packages Examples.isZero
           Examples.load Examples.fs Examples.lockfile Examples.lockText
           Examples.lockData
           {[ js "@foo" := js "https://custom.example/" ]} npmjs
           {[ js "https://custom.example/" := [js "@foo/bar"; js "@foo/qux"] ]}
           ∅ [(js "@foo", js "https://custom.example/")]
           [(js "https://custom.example/", [js "@foo/bar"; js "@foo/qux"])]
           [Examples.userRc]) as H.
  apply H; clear H; try reflexivity.
  split.
  - apply NoDup_singleton.
  - intros k v. rewrite list_elem_of_singleton, lookup_singleton_Some.
    split; [by intros [= -> ->]|by intros [<- <-]].
Defined.

End DisplayProperties.

(** ** The entry point: [resolveLockfilePath] and [main] *)

Module MainProperties.
Import NpmrcFacts NpmrcProperties LockfileClaims LockfileProperties.

Section Run.
Context {Num : Type} (numFalsy : Num → bool).
Variable yaml_load : jsstring → jsstring + jsval Num.
Variable homedir : jsstring.
Variable path_join : jsstring → jsstring → jsstring.
Variable path_dirname : jsstring → jsstring.
Variable path_isAbsolute : jsstring → bool.
Variable path_resolve : jsstring → jsstring → jsstring.
Variable cwd : jsstring.
Variable fs : gmap jsstring node.

(** [findNpmrcFiles(lockfilePath)], and what [parseNpmrc] returns or
    throws when called on that array as [main] calls it. *)
Local Abbreviation found lockfilePath :=
  (findNpmrcFiles homedir path_join path_dirname fs (Some lockfilePath)).
Local Abbreviation parsedFor lockfilePath :=
  (parseNpmrc fs 1%positive {[ 1%positive := found lockfilePath ]}).1.

Lemma rev_found (lockfilePath : jsstring) :
  lockfilePath ≠ [] →
  rev (found lockfilePath)
  = List.filter (existsSync fs)
      [userNpmrc homedir path_join;
       projectNpmrc path_join path_dirname lockfilePath].
Proof.
  intros Hne. unfold findNpmrcFiles.
  destruct lockfilePath as [|d p]; [done|]. by rewrite <- filter_rev_comm.
Qed.

Lemma parsedFor_unfold (lockfilePath : jsstring) :
  parsedFor lockfilePath = applyFiles fs initial (rev (found lockfilePath)).
Proof.
  by rewrite (parseNpmrc_unfold fs 1%positive _ _ (lookup_singleton_eq _ _)).
Qed.

Lemma analyse_unfold (lockfilePath : jsstring) :
  analyse numFalsy yaml_load homedir path_join path_dirname fs lockfilePath
  = let! parsed := parsedFor lockfilePath in
    let! scopes :=
      thrown (extractScopes numFalsy yaml_load fs lockfilePath) in
    let! packagesByRegistry :=
      thrown (extractPackagesByRegistry numFalsy yaml_load fs lockfilePath
                (registryMap parsed) (defaultRegistry parsed)) in
    inr {| shownScopes := scopes;
           shownRegistryMap := registryMap parsed;
           shownPackagesByRegistry := packagesByRegistry;
           shownDefaultRegistry := defaultRegistry parsed;
           shownNpmrcFiles := rev (found lockfilePath) |}.
Proof.
  unfold analyse. cbv zeta.
  rewrite (parseNpmrc_unfold fs 1%positive _ _ (lookup_singleton_eq _ _)).
  cbn [fst]. unfold lookup_total, map_lookup_total.
  by rewrite lookup_insert_eq.
Qed.

(** The user-level file is read first: [parseNpmrc] throws for it, or
    else for the project-level file. *)
Lemma parsedFor_throws (lockfilePath reason : jsstring) :
  lockfilePath ≠ [] →
  parsedFor lockfilePath = inl reason
  ↔ fs !! userNpmrc homedir path_join = Some (Unreadable reason)
    ∨ ((∀ r, fs !! userNpmrc homedir path_join ≠ Some (Unreadable r))
       ∧ fs !! projectNpmrc path_join path_dirname lockfilePath
         = Some (Unreadable reason)).
Proof.
  intros Hne. rewrite parsedFor_unfold, (rev_found _ Hne), applyFiles_existing.
  cbn [applyFiles].
  destruct (fs !! userNpmrc homedir path_join) as [[cu|ru]|] eqn:Hu.
  - rewrite (applyFile_file _ _ _ _ Hu). cbn [bind].
    destruct (fs !! projectNpmrc path_join path_dirname lockfilePath)
      as [[cp|rp]|] eqn:Hp.
    + rewrite (applyFile_file _ _ _ _ Hp). cbn [bind]. naive_solver.
    + rewrite (applyFile_unreadable _ _ _ _ Hp). cbn [bind]. naive_solver.
    + rewrite (applyFile_missing _ _ _ Hp). cbn [bind]. naive_solver.
  - rewrite (applyFile_unreadable _ _ _ _ Hu). cbn [bind]. naive_solver.
  - rewrite (applyFile_missing _ _ _ Hu). cbn [bind].
    destruct (fs !! projectNpmrc path_join path_dirname lockfilePath)
      as [[cp|rp]|] eqn:Hp.
    + rewrite (applyFile_file _ _ _ _ Hp). cbn [bind]. naive_solver.
    + rewrite (applyFile_unreadable _ _ _ _ Hp). cbn [bind]. naive_solver.
    + rewrite (applyFile_missing _ _ _ Hp). cbn [bind]. naive_solver.
Qed.

(** [main] reaches its [try] block exactly for an argument that resolves
    to a path that exists. *)
Lemma main_analyses (argv2 : option jsstring) (o : outcome) :
  main numFalsy yaml_load homedir path_join path_dirname path_isAbsolute
    path_resolve cwd fs argv2 = o →
  (∀ s, o ≠ Displayed s) ∧ (∀ reason, o ≠ Failed reason)
  ∨ ∃ lockfilePath n,
      resolveLockfilePath path_isAbsolute path_resolve cwd argv2
      = Some lockfilePath
      ∧ lockfilePath ≠ [] ∧ fs !! lockfilePath = Some n
      ∧ o = match analyse numFalsy yaml_load homedir path_join path_dirname
                    fs lockfilePath with
            | inl reason => Failed reason
            | inr s => Displayed s
            end.
Proof.
  intros <-. unfold main. destruct argv2 as [[|c a]|]; [by left| |by left].
  cbv zeta.
  destruct (resolveLockfilePath _ _ _ (Some (c :: a))) as [[|d p]|] eqn:Hr;
    [by left| |by left].
  unfold existsSync. case_bool_decide as Hex; [|by left].
  destruct Hex as [n Hfs]. right. by exists (d :: p), n.
Qed.

Lemma main_of_resolved (argv2 : option jsstring)
      (lockfilePath : jsstring) (n : node) :
  resolveLockfilePath path_isAbsolute path_resolve cwd argv2
  = Some lockfilePath →
  lockfilePath ≠ [] → fs !! lockfilePath = Some n →
  main numFalsy yaml_load homedir path_join path_dirname path_isAbsolute
    path_resolve cwd fs argv2
  = match analyse numFalsy yaml_load homedir path_join path_dirname
            fs lockfilePath with
    | inl reason => Failed reason
    | inr s => Displayed s
    end.
Proof.
  intros Hr Hne Hfs. unfold main.
  destruct argv2 as [[|c a]|]; [done| |done]. cbv zeta. rewrite Hr.
  destruct lockfilePath as [|d p]; [done|].
  by rewrite (existsSync_true _ _ _ Hfs).
Qed.

(** What the [try] block of [main] does, by what the configuration files
    and the lockfile are. *)
Lemma analyse_cases (lockfilePath : jsstring) (n : node) :
  fs !! lockfilePath = Some n →
  (∃ reason, parsedFor lockfilePath = inl reason
             ∧ analyse numFalsy yaml_load homedir path_join path_dirname fs
                 lockfilePath = inl reason)
  ∨ ∃ parsed,
      parsedFor lockfilePath = inr parsed
      ∧ ((∃ r, (n = Unreadable r
                ∨ ∃ content, n = File content ∧ yaml_load content = inl r)
               ∧ analyse numFalsy yaml_load homedir path_join path_dirname
                   fs lockfilePath
                 = inl (js "Failed to parse lockfile: " ++ r))
         ∨ ∃ content lockData,
             n = File content ∧ yaml_load content = inr lockData
             ∧ let source :=
                 documentKeys
                   (orEmptyObject numFalsy (getPackages lockData)) in
               ((∃ pkg, pkg ∈ source
                        ∧ throwsOn (registryMap parsed)
                            (defaultRegistry parsed) pkg = true)
                ∧ analyse numFalsy yaml_load homedir path_join path_dirname
                    fs lockfilePath
                  = inl (js "Failed to parse lockfile: " ++ pushNotAFunction))
               ∨ ((∀ pkg, pkg ∈ source →
                          throwsOn (registryMap parsed)
                            (defaultRegistry parsed) pkg = false)
                  ∧ ∃ scopes packagesByRegistry,
                      analyse numFalsy yaml_load homedir path_join
                        path_dirname fs lockfilePath
                      = inr {| shownScopes := scopes;
                               shownRegistryMap := registryMap parsed;
                               shownPackagesByRegistry := packagesByRegistry;
                               shownDefaultRegistry := defaultRegistry parsed;
                               shownNpmrcFiles := rev (found lockfilePath) |})).
Proof.
  intros Hfs. rewrite analyse_unfold.
  destruct (parsedFor lockfilePath) as [reason|parsed]; cbn [bind].
  { left. by exists reason. }
  right. exists parsed. split; [done|].
  destruct n as [content|r].
  - destruct (yaml_load content) as [r|lockData] eqn:Hload.
    + left. exists r. split; [right; by exists content|].
      by rewrite (proj2 (extractScopes_parse_error numFalsy yaml_load fs
                           lockfilePath r))
        by (right; by exists content).
    + right. exists content, lockData. split; [done|]. split; [done|].
      cbv zeta.
      destruct (extractScopes_loaded numFalsy yaml_load fs _ _ _ Hfs Hload)
        as (scopes & -> & _). cbn [thrown bind].
      destruct (extractPackagesByRegistry_loaded numFalsy yaml_load fs
                  lockfilePath content lockData (registryMap parsed)
                  (defaultRegistry parsed) Hfs Hload)
        as [[Hthrow ->]|[Hquiet (result & -> & _)]]; cbn [thrown bind].
      * by left.
      * right. split; [done|]. by exists scopes, result.
  - left. exists r. split; [by left|].
    by rewrite (extractScopes_unreadable numFalsy yaml_load fs _ _ Hfs).
Qed.

(** X20. Why [main] reports an error from its [try] block.  The argument
    resolves to a path that exists, and one of these holds, in this
    order: a configuration file cannot be read, the user-level one or
    else the project-level one, and the message is that of the read error
    as it is; the lockfile cannot be read, or the loader rejects its
    text; some package key of the document has its scope mapped to a
    registry, neither empty nor the default one, whose name is a property
    every object inherits.  But for the first, the message starts with
    [Failed to parse lockfile: ]; the scanners' [Lockfile not found]
    never reaches the user from there. *)
Theorem main_failure_reasons (argv2 : option jsstring) (reason : jsstring) :
  main numFalsy yaml_load homedir path_join path_dirname path_isAbsolute
    path_resolve cwd fs argv2 = Failed reason
  ↔ ∃ lockfilePath,
      resolveLockfilePath path_isAbsolute path_resolve cwd argv2
      = Some lockfilePath
      ∧ lockfilePath ≠ [] ∧ is_Some (fs !! lockfilePath)
      ∧ ((fs !! userNpmrc homedir path_join = Some (Unreadable reason)
          ∨ ((∀ r, fs !! userNpmrc homedir path_join ≠ Some (Unreadable r))
             ∧ fs !! projectNpmrc path_join path_dirname lockfilePath
               = Some (Unreadable reason)))
         ∨ ∃ parsed r,
             parsedFor lockfilePath = inr parsed
             ∧ reason = js "Failed to parse lockfile: " ++ r
             ∧ (fs !! lockfilePath = Some (Unreadable r)
                ∨ ∃ content,
                    fs !! lockfilePath = Some (File content)
                    ∧ (yaml_load content = inl r
                       ∨ ∃ lockData pkg,
                           yaml_load content = inr lockData
                           ∧ pkg ∈ documentKeys
                                     (orEmptyObject numFalsy
                                        (getPackages lockData))
                           ∧ throwsOn (registryMap parsed)
                               (defaultRegistry parsed) pkg = true
                           ∧ r = pushNotAFunction))).
Proof.
  split.
  - intros Hmain. apply main_analyses in Hmain
      as [[_ Hno]|(lockfilePath & n & Hr & Hne & Hfs & Ho)];
      [by destruct (Hno reason)|].
    exists lockfilePath. do 2 (split; [done|]). split; [by exists n|].
    destruct (analyse_cases lockfilePath n Hfs)
      as [(why & Hparsed & Han)
         |(parsed & Hparsed
           & [(r & Hr' & Han)
             |(content & lockData & -> & Hload
               & [[(pkg & Hin & Hthrow) Han]
                 |[_ (scopes & result & Han)]])])];
      rewrite Han in Ho; [| | |done]; injection Ho as ->.
    + left. by apply parsedFor_throws.
    + right. exists parsed, r. do 2 (split; [done|]).
      destruct Hr' as [->|(content & -> & Hload)]; [by left|].
      right. exists content. split; [done|]. by left.
    + right. exists parsed, pushNotAFunction. do 2 (split; [done|]).
      right. exists content. split; [done|]. right. by exists lockData, pkg.
  - intros (lockfilePath & Hr & Hne & [n Hfs] & Hwhy).
    rewrite (main_of_resolved _ _ _ Hr Hne Hfs).
    destruct Hwhy as [Hrc|(parsed & r & Hparsed & -> & Hwhy)].
    + apply parsedFor_throws in Hrc; [|done].
      destruct (analyse_cases lockfilePath n Hfs)
        as [(why & Hparsed & ->)|(parsed & Hparsed & _)]; congruence.
    + destruct (analyse_cases lockfilePath n Hfs)
        as [(why & Hparsed' & _)
           |(parsed' & Hparsed'
             & [(r' & Hr' & ->)
               |(content & lockData & -> & Hload
                 & [[(pkg & Hin & Hthrow) ->]
                   |[Hquiet _]])])];
        [congruence|..];
        rewrite Hparsed in Hparsed'; injection Hparsed' as <-.
      * do 2 f_equal.
        destruct Hwhy as [Hn|(content & Hn & [Hload|(lockData & pkg & Hload
                                                     & _ & _ & ->)])];
          rewrite Hfs in Hn; injection Hn as ->;
          destruct Hr' as [[=]|(c & [=] & Hc)]; subst; congruence.
      * destruct Hwhy as [Hn|(c & Hn & [Hl|(lockData' & pkg' & Hl
                                            & _ & _ & ->)])];
          rewrite Hfs in Hn; try discriminate Hn; injection Hn as <-;
          [congruence|done].
      * destruct Hwhy as [Hn|(c & Hn & [Hl|(lockData' & pkg' & Hl
                                            & Hin & Hthrow & ->)])];
          rewrite Hfs in Hn; try discriminate Hn; injection Hn as <-;
          [congruence|].
        rewrite Hload in Hl. injection Hl as <-.
        by rewrite (Hquiet pkg' Hin) in Hthrow.
Qed.

(** X21. [main] reaches [displaySummary], and with it exit code 0,
    exactly when the argument resolves to a file that can be read and
    loads, [parseNpmrc] returns for the configuration files found, and no
    package key of the document makes the classification throw. *)
Theorem main_displays_iff (argv2 : option jsstring) :
  exitCode (main numFalsy yaml_load homedir path_join path_dirname
              path_isAbsolute path_resolve cwd fs argv2) = 0%N
  ↔ ∃ lockfilePath content lockData parsed,
      resolveLockfilePath path_isAbsolute path_resolve cwd argv2
      = Some lockfilePath
      ∧ lockfilePath ≠ [] ∧ fs !! lockfilePath = Some (File content)
      ∧ yaml_load content = inr lockData
      ∧ (∀ r, fs !! userNpmrc homedir path_join ≠ Some (Unreadable r))
      ∧ (∀ r, fs !! projectNpmrc path_join path_dirname lockfilePath
              ≠ Some (Unreadable r))
      ∧ parsedFor lockfilePath = inr parsed
      ∧ ∀ pkg, pkg ∈ documentKeys
                       (orEmptyObject numFalsy (getPackages lockData)) →
               throwsOn (registryMap parsed) (defaultRegistry parsed) pkg
               = false.
Proof.
  split.
  - intros Hexit.
    destruct (main_analyses argv2 _ eq_refl)
      as [[Hno _]|(lockfilePath & n & Hr & Hne & Hfs & Ho)].
    { destruct (main _ _ _ _ _ _ _ _ _ _) as [| | |s]; try done.
      by destruct (Hno s). }
    rewrite Ho in Hexit. exists lockfilePath.
    destruct (analyse_cases lockfilePath n Hfs)
      as [(why & _ & Han)
         |(parsed & Hparsed
           & [(r & _ & Han)
             |(content & lockData & -> & Hload
               & [[_ Han]|[Hquiet _]])])];
      [by rewrite Han in Hexit..|].
    exists content, lockData, parsed. do 4 (split; [done|]).
    assert (∀ reason, parsedFor lockfilePath ≠ inl reason) as Hok
      by (intros reason; by rewrite Hparsed).
    split; [|split; [|done]].
    + intros r Hu. apply (Hok r), parsedFor_throws; [done|]. by left.
    + intros r Hp.
      destruct (fs !! userNpmrc homedir path_join) as [[cu|ru]|] eqn:Hu.
      * apply (Hok r), parsedFor_throws; [done|]. right. by rewrite Hu.
      * apply (Hok ru), parsedFor_throws; [done|]. by left.
      * apply (Hok r), parsedFor_throws; [done|]. right. by rewrite Hu.
  - intros (lockfilePath & content & lockData & parsed & Hr & Hne & Hfs
            & Hload & _ & _ & Hparsed & Hquiet).
    rewrite (main_of_resolved _ _ _ Hr Hne Hfs).
    destruct (analyse_cases lockfilePath _ Hfs)
      as [(why & Hparsed' & _)
         |(parsed' & Hparsed'
           & [(r & [[=]|(c & [= <-] & Hl)] & _)
             |(c & lockData' & [= <-] & Hl
               & [[(pkg & Hin & Hthrow) _]
                 |[_ (scopes & result & ->)]])])];
      [congruence..| |done].
    rewrite Hparsed in Hparsed'. injection Hparsed' as <-.
    rewrite Hload in Hl. injection Hl as <-.
    by rewrite (Hquiet pkg Hin) in Hthrow.
Qed.

(** X22. The list of [.npmrc] files [displaySummary] receives from [main]
    is the one [parseNpmrc] reversed: the user-level file comes first,
    the project-level file second. *)
Theorem main_shows_user_level_first
    (argv2 : option jsstring) (lockfilePath : jsstring) (s : summary) :
  main numFalsy yaml_load homedir path_join path_dirname path_isAbsolute
    path_resolve cwd fs argv2 = Displayed s →
  resolveLockfilePath path_isAbsolute path_resolve cwd argv2
  = Some lockfilePath →
  shownNpmrcFiles s
  = List.filter (existsSync fs)
      [userNpmrc homedir path_join;
       projectNpmrc path_join path_dirname lockfilePath].
Proof.
  intros Hmain Hr. apply main_analyses in Hmain
    as [[Hno _]|(lockfilePath' & n & Hr' & Hne & Hfs & Ho)];
    [by destruct (Hno s)|].
  rewrite Hr in Hr'. injection Hr' as <-.
  destruct (analyse_cases lockfilePath n Hfs)
    as [(why & _ & Han)
       |(parsed & _
         & [(r & _ & Han)
           |(content & lockData & _ & _
             & [[_ Han]|[_ (scopes & result & Han)]])])];
    rewrite Han in Ho; [done..|].
  injection Ho as ->. cbn [shownNpmrcFiles]. by apply rev_found.
Qed.

(** X23. From end to end the project level wins: when the [.npmrc] next to
    the lockfile declares a registry for a scope, that is the registry
    [displaySummary] receives for the scope, whatever the user-level file
    says. *)
Theorem main_project_level_wins
    (argv2 : option jsstring)
    (lockfilePath projectText scope registry : jsstring) (s : summary) :
  main numFalsy yaml_load homedir path_join path_dirname path_isAbsolute
    path_resolve cwd fs argv2 = Displayed s →
  resolveLockfilePath path_isAbsolute path_resolve cwd argv2
  = Some lockfilePath →
  fs !! projectNpmrc path_join path_dirname lockfilePath
  = Some (File projectText) →
  declaresScope projectText scope registry →
  shownRegistryMap s !! scope = Some registry.
Proof.
  intros Hmain Hr Hp Hd. apply main_analyses in Hmain
    as [[Hno _]|(lockfilePath' & n & Hr' & Hne & Hfs & Ho)];
    [by destruct (Hno s)|].
  rewrite Hr in Hr'. injection Hr' as <-.
  destruct (analyse_cases lockfilePath n Hfs)
    as [(why & _ & Han)
       |(parsed & Hparsed
         & [(r & _ & Han)
           |(content & lockData & _ & _
             & [[_ Han]|[_ (scopes & result & Han)]])])];
    rewrite Han in Ho; [done..|].
  injection Ho as ->. cbn [shownRegistryMap].
  rewrite parsedFor_unfold, (rev_found _ Hne), applyFiles_existing in Hparsed.
  cbn [applyFiles] in Hparsed.
  destruct (applyFile fs initial (userNpmrc homedir path_join))
    as [?|st]; [done|]. cbn [bind] in Hparsed.
  rewrite (applyFile_file _ _ _ _ Hp) in Hparsed. cbn [bind] in Hparsed.
  injection Hparsed as <-. by apply applyText_declares.
Qed.
End Run.

Section Resolve.
Variable path_isAbsolute : jsstring → bool.
Variable path_resolve : jsstring → jsstring → jsstring.
Variable cwd : jsstring.

(** X24. [path.resolve] returns absolute paths and the empty string is not
    absolute; hence whatever [resolveLockfilePath] returns is absolute,
    and resolving it again changes nothing. *)
Theorem resolveLockfilePath_absolute (input : option jsstring) :
  (∀ p, path_isAbsolute (path_resolve cwd p) = true) →
  path_isAbsolute [] = false →
  (∀ p, resolveLockfilePath path_isAbsolute path_resolve cwd input = Some p →
        path_isAbsolute p = true)
  ∧ resolveLockfilePath path_isAbsolute path_resolve cwd
      (resolveLockfilePath path_isAbsolute path_resolve cwd input)
    = resolveLockfilePath path_isAbsolute path_resolve cwd input.
Proof.
  intros Hres Hempty.
  assert (∀ p, resolveLockfilePath path_isAbsolute path_resolve cwd input
               = Some p → path_isAbsolute p = true) as Habs.
  { intros p. destruct input as [[|c s]|]; simpl; try done.
    intros [= <-]. by destruct (path_isAbsolute (c :: s)) eqn:Hc. }
  split; [done|].
  destruct (resolveLockfilePath _ _ _ input) as [p|] eqn:Hr; [|done].
  specialize (Habs p eq_refl). destruct p as [|d p]; [congruence|].
  simpl. by rewrite Habs.
Qed.
End Resolve.

Lemma main_shows_user_level_first_witness :
  shownNpmrcFiles Examples.scenarioSummary
  = List.filter (existsSync Examples.fs)
      [userNpmrc (js "/home/ci") joinPath;
       projectNpmrc joinPath dirnamePath (js "/work/scenario/pnpm-lock.yaml")].
Proof.
  apply (main_shows_user_level_first Examples.isZero Examples.load
           (js "/home/ci") joinPath dirnamePath Examples.isAbsolutePath
           Examples.resolvePath (js "/work") Examples.fs
           (Some (js "scenario/pnpm-lock.yaml")));
    vm_compute; reflexivity.
Defined.

Lemma main_project_level_wins_witness :
  shownRegistryMap Examples.scenarioSummary !! js "@a" = Some (js "R1").
Proof.
  apply (main_project_level_wins Examples.isZero Examples.load
           (js "/home/ci") joinPath dirnamePath Examples.isAbsolutePath
           Examples.resolvePath (js "/work") Examples.fs
           (Some (js "/work/scenario/pnpm-lock.yaml"))
           (js "/work/scenario/pnpm-lock.yaml")
           (js "@a:registry = R1
@b:registry = R0"));
    [vm_compute; reflexivity..|].
  exists [], (js "@a:registry = R1"), [js "@b:registry = R0"].
  split; [reflexivity|]. split.
  - eexists. split; reflexivity.
  - intros l r Hin (value & Hm & _). vm_compute in Hin.
    apply elem_of_cons in Hin as [->|Hin]; [|by apply elem_of_nil in Hin].
    vm_compute in Hm. discriminate Hm.
Defined.

Lemma resolveLockfilePath_absolute_witness :
  let resolve :=
    resolveLockfilePath Examples.isAbsolutePath Examples.resolvePath
      (js "/work") in
  (∀ p, resolve (Some (js "app/pnpm-lock.yaml")) = Some p →
        Examples.isAbsolutePath p = true)
  ∧ resolve (resolve (Some (js "app/pnpm-lock.yaml")))
    = resolve (Some (js "app/pnpm-lock.yaml")).
Proof.
  apply (resolveLockfilePath_absolute Examples.isAbsolutePath
           Examples.resolvePath (js "/work")
           (Some (js "app/pnpm-lock.yaml"))).
  - intros p. unfold Examples.resolvePath.
    by destruct (Examples.isAbsolutePath p) eqn:Hp.
  - reflexivity.
Defined.

End MainProperties.
